(** * ripsrc: the Ripper facade, its slice wrapper and the command-line
    directory discovery, embedded from [ripsrc/rip.go] and the [ripcmd]
    package.

    Channels and goroutines are modelled by a labelled transition system
    over the program counters of the goroutines involved; the history
    of values sent on the result channel is the sink.  The packages
    [gitexec], [parentsgraph], [branches], [commitmeta], [fileinfo] and
    [history3/process] are collaborators of [Rip]: the facade is
    embedded over an arbitrary implementation of them (module [ripsrc]),
    and the statements about the facade alone hold for every such
    implementation.  Where a statement is about what the collaborators
    compute, they are modelled from the specification of the system
    (modules [gitexec], [process], [codeinfo]); each such definition
    says so. *)

From Stdlib Require Import ZArith List String Ascii Bool Lia DecimalString.
From stdpp Require Import base tactics option list gmap strings.

Local Open Scope string_scope.
Local Open Scope list_scope.

(** ** Errors *)

(** Go [error] values.  The two package-level sentinels of the sources
    are constructors of their own; every other error is built by
    [fmt.Errorf] or comes out of a collaborator. *)
Inductive error : Type :=
  | ErrNoHeadCommit                       (* ripsrc: "can't get valid output from git rev-parse HEAD" *)
  | errRevParseFailed                     (* ripcmd: "git rev-parse HEAD failed" *)
  | GraphInconsistent (commit : string)
  | MalformedCommit (commit : string) (offset : nat)
  | PatchApplyFailed (commit path : string)
  | Errorf (msg : string).

#[global] Instance error_eq_dec : EqDecision error.
Proof. solve_decision. Defined.

(** A Go result pair [(T, error)]. *)
Inductive res (A : Type) : Type :=
  | Ok (a : A)
  | Err (e : error).
Arguments Ok {A} a.
Arguments Err {A} e.

(** A value given to [panic]: an error, or the runtime's own panic for
    a send on a closed channel. *)
Inductive panic : Type :=
  | PanicErr (e : error)
  | PanicSendOnClosedChannel.

(** ** Data carried by the stream *)

Module logger.
Inductive Logger : Type :=
  | NewDefaultLogger          (* logger.NewDefaultLogger(os.Stdout) *)
  | UserLogger (id : nat).
End logger.

Module fileinfo.
(** [License = fileinfo.License], with the two fields the command
    reads, [blame.License.Name] and [blame.License.Confidence]; the
    confidence is a float that is carried and never computed on: it is
    kept as its bit pattern. *)
Record License : Type := { Name : string; Confidence : Z }.
End fileinfo.

Module commitmeta.
(** [CommitStatus]: the three statuses [rip.go] names, and, modelled
    from the spec ("status: {Added, Modified, Removed, Renamed,
    Copied}"), the two it does not. *)
Inductive CommitStatus : Type :=
  | GitFileCommitStatusAdded
  | GitFileCommitStatusModified
  | GitFileCommitStatusRemoved
  | GitFileCommitStatusRenamed
  | GitFileCommitStatusCopied.

#[global] Instance CommitStatus_eq_dec : EqDecision CommitStatus.
Proof. solve_decision. Defined.

(** Modelled from the spec: "author: {name, email}". *)
Record Person : Type := { PersonName : string; PersonEmail : string }.

(** Modelled from the spec: the declaration of the entries of a
    commit's files map is not in the sources; "FileChange. {status,
    renamedFrom?, additions, deletions, binary}". *)
Record CommitFile : Type := {
  Status : CommitStatus;
  RenamedFrom : option string;
  Additions : Z;
  Deletions : Z;
  Binary : bool
}.

(** Modelled from the spec: the declaration of [Commit] is not in the
    sources, which read its [SHA], [Branches] and [Files]; "Commit. {sha,
    parents (ordered; first parent is the mainline), author, committer,
    date, message, files: map<Path, FileChange>, branches (possibly
    empty; empty when branch attribution disabled), signed}".  [Files]
    is the files map with its paths in the order the tool lists them.
    The commit of the metadata map and the commit of a record are this
    one type. *)
Record Commit : Type := {
  SHA : string;
  Parents : list string;
  Author : Person;
  Committer : Person;
  Date : Z;
  Message : string;
  Files : list (string * CommitFile);
  Branches : list string;
  Signed : bool
}.
End commitmeta.

Module ripsrc.

(** [BlameLine]; the [time.Time] of [Date] as seconds since the epoch. *)
Record BlameLine : Type := {
  Name : string;
  Email : string;
  Date : Z;
  Comment : bool;
  Code : bool;
  Blank : bool
}.

(** [BlameResult].  [Lines] is the slice of pointers, as the lines
    pointed to; [License] is the pointer, [None] for nil; the [int64]
    fields are carried and never computed on here, and so is the
    [float64] of [WeightedComplexity], kept as its bit pattern. *)
Record BlameResult : Type := {
  Commit : commitmeta.Commit;
  Language : string;
  Filename : string;
  Lines : list BlameLine;
  Size : Z;
  Loc : Z;
  Sloc : Z;
  Comments : Z;
  Blanks : Z;
  Complexity : Z;
  WeightedComplexity : Z;
  Skipped : string;
  License : option fileinfo.License;
  Status : commitmeta.CommitStatus
}.

(** [RipOpts] *)
Record RipOpts : Type := {
  Logger : option logger.Logger;
  CheckpointsDir : string;
  NoStrictResume : bool;
  CommitFromIncl : string;
  AllBranches : bool
}.

(** [&RipOpts{}] *)
Definition RipOpts_zero : RipOpts :=
  {| Logger := None; CheckpointsDir := ""; NoStrictResume := false;
     CommitFromIncl := ""; AllBranches := false |}.

(** [process.Opts] as [Rip] fills it. *)
Record processOpts : Type := {
  pLogger : option logger.Logger;
  pRepoDir : string;
  pCheckpointsDir : string;
  pNoStrictResume : bool;
  pCommitFromIncl : string;
  pAllBranches : bool
}.

Section Facade.
(** The types of the collaborating packages: [parentsgraph.Graph],
    [branches.Process], [process.Result], [process.Timing]. *)
Context {Graph Branches Result Timing : Type}.

(** [Ripper] *)
Record Ripper : Type := {
  commitMeta : gmap string commitmeta.Commit;
  GitProcessTimings : option Timing;
  parentsGraph : option Graph;
  branches : option Branches
}.

(** [New()] *)
Definition New : Ripper :=
  {| commitMeta := ∅; GitProcessTimings := None;
     parentsGraph := None; branches := None |}.

(** What [Rip] calls outside [rip.go].  [parentsgraph_Read] is
    [parentsgraph.New(...)] followed by [Read()], [branches_Run] is
    [branches.New(...)] followed by [Run()]: each gives the object it
    leaves in the Ripper and the error of the call.  [getCommitInfo]
    and [codeInfoFiles] are the Ripper's methods of these names.
    [process_Run] gives the results the processor sends on [gitRes],
    in order, and the error it then returns; it closes [gitRes] when it
    returns, which is what ends the worker's [range] loop. *)
Record Stages : Type := {
  gitexec_Prepare : string → option error;
  parentsgraph_Read : string → bool → Graph * option error;
  branches_Run : string → Graph → Branches * option error;
  getCommitInfo : Ripper → string → RipOpts → Ripper * option error;
  codeInfoFiles : Ripper → Result → RipOpts → res (list BlameResult);
  process_Run : processOpts → list Result * option error;
  process_Timing : processOpts → Timing
}.

(** *** The goroutines of [Rip] *)

(** Where the goroutine that called [Rip] stands. *)
Inductive main_pc : Type :=
  | MRun (pending : list Result) (ret : option error)   (* inside gitProcessor.Run(gitRes) *)
  | MWaitDone                                           (* <-done *)
  | MReturned (err : option error)                      (* returned; the deferred close(res) has run *)
  | MPanicked (p : panic).                              (* unwound by panic; the deferred close(res) has run *)

(** Where the goroutine started by [go func() {...}()] stands. *)
Inductive worker_pc : Type :=
  | WNotStarted
  | WRecv                                               (* for r1 := range gitRes *)
  | WDecorate (r1 : Result)                             (* rs, err := s.codeInfoFiles(r1, *opts) *)
  | WSend (rs : list BlameResult)                       (* for _, r := range rs { res <- r } *)
  | WSendDone                                           (* done <- true *)
  | WExited.

Record state : Type := {
  main : main_pc;
  worker : worker_pc;
  gitRes_closed : bool;
  res_sent : list BlameResult;      (* every value sent on res so far *)
  res_closed : nat;                 (* how many times close(res) has run *)
  crashed : option panic;           (* a panic no goroutine recovers ends the program *)
  ripper : Ripper
}.

Inductive label : Type :=
  | Tau
  | Send (r : BlameResult).

Variable stg : Stages.
Variable opts : RipOpts.            (* *opts after the nil and logger defaults *)
Variable popts : processOpts.

Definition with_pcs (s : state) (m : main_pc) (w : worker_pc) : state :=
  {| main := m; worker := w; gitRes_closed := gitRes_closed s;
     res_sent := res_sent s; res_closed := res_closed s;
     crashed := crashed s; ripper := ripper s |}.

Definition with_worker (s : state) (w : worker_pc) : state :=
  with_pcs s (main s) w.

Definition with_crash (s : state) (p : panic) : state :=
  {| main := main s; worker := worker s; gitRes_closed := gitRes_closed s;
     res_sent := res_sent s; res_closed := res_closed s;
     crashed := Some p; ripper := ripper s |}.

Definition with_sent (s : state) (r : BlameResult) (w : worker_pc) : state :=
  {| main := main s; worker := w; gitRes_closed := gitRes_closed s;
     res_sent := res_sent s ++ [r]; res_closed := res_closed s;
     crashed := crashed s; ripper := ripper s |}.

(** [gitProcessor.Run] returns: [gitRes] is closed; on an error
    [Rip] returns it at once and its deferred [close(res)] runs. *)
Definition run_returns (s : state) (ret : option error) : state :=
  match ret with
  | Some e =>
      {| main := MReturned (Some e); worker := worker s; gitRes_closed := true;
         res_sent := res_sent s; res_closed := S (res_closed s);
         crashed := crashed s; ripper := ripper s |}
  | None =>
      {| main := MWaitDone; worker := worker s; gitRes_closed := true;
         res_sent := res_sent s; res_closed := res_closed s;
         crashed := crashed s; ripper := ripper s |}
  end.

(** [<-done] completes: the timings are stored, [Rip] returns nil
    and its deferred [close(res)] runs. *)
Definition done_received (s : state) : state :=
  {| main := MReturned None; worker := WExited; gitRes_closed := gitRes_closed s;
     res_sent := res_sent s; res_closed := S (res_closed s);
     crashed := crashed s;
     ripper := {| commitMeta := commitMeta (ripper s);
                  GitProcessTimings := Some (process_Timing stg popts);
                  parentsGraph := parentsGraph (ripper s);
                  branches := branches (ripper s) |} |}.

(** One step of one goroutine.  [gitRes] and [done] are unbuffered:
    a send on them is a rendezvous with the receive.  The consumer
    of [res] is taken to drain it, so a send on the open [res]
    always completes. *)
Inductive step : state → label → state → Prop :=
  | step_handoff s r1 rest ret :
      crashed s = None → main s = MRun (r1 :: rest) ret → worker s = WRecv →
      step s Tau (with_pcs s (MRun rest ret) (WDecorate r1))
  | step_decorate s r1 rs :
      crashed s = None → worker s = WDecorate r1 →
      codeInfoFiles stg (ripper s) r1 opts = Ok rs →
      step s Tau (with_worker s (WSend rs))
  | step_decorate_panic s r1 e :
      crashed s = None → worker s = WDecorate r1 →
      codeInfoFiles stg (ripper s) r1 opts = Err e →
      step s Tau (with_crash s (PanicErr e))
  | step_send s r rs :
      crashed s = None → worker s = WSend (r :: rs) → res_closed s = 0 →
      step s (Send r) (with_sent s r (WSend rs))
  | step_send_closed s r rs :
      crashed s = None → worker s = WSend (r :: rs) → res_closed s ≠ 0 →
      step s Tau (with_crash s PanicSendOnClosedChannel)
  | step_next s :
      crashed s = None → worker s = WSend [] →
      step s Tau (with_worker s WRecv)
  | step_run_returns s ret :
      crashed s = None → main s = MRun [] ret →
      step s Tau (run_returns s ret)
  | step_range_ends s :
      crashed s = None → worker s = WRecv → gitRes_closed s = true →
      step s Tau (with_worker s WSendDone)
  | step_done s :
      crashed s = None → main s = MWaitDone → worker s = WSendDone →
      step s Tau (done_received s).

(** Executions: the reflexive transitive closure, with the values
    sent on [res] along the way. *)
Inductive steps : state → list BlameResult → state → Prop :=
  | steps_refl s : steps s [] s
  | steps_tau s s' s'' tr : step s Tau s' → steps s' tr s'' → steps s tr s''
  | steps_send s r s' s'' tr : step s (Send r) s' → steps s' tr s'' → steps s (r :: tr) s''.

Definition reachable (s0 s : state) : Prop := ∃ tr, steps s0 tr s.


(** A scheduler, to run the system: it fires the worker's enabled step
    first, or the caller's first. *)
Inductive policy : Type := WorkerFirst | MainFirst.

Definition worker_next (s : state) : option (label * state) :=
  match crashed s with
  | Some _ => None
  | None =>
      match worker s with
      | WRecv =>
          match main s with
          | MRun (r1 :: rest) ret => Some (Tau, with_pcs s (MRun rest ret) (WDecorate r1))
          | _ => if gitRes_closed s then Some (Tau, with_worker s WSendDone) else None
          end
      | WDecorate r1 =>
          match codeInfoFiles stg (ripper s) r1 opts with
          | Ok rs => Some (Tau, with_worker s (WSend rs))
          | Err e => Some (Tau, with_crash s (PanicErr e))
          end
      | WSend (r :: rs) =>
          match res_closed s with
          | 0 => Some (Send r, with_sent s r (WSend rs))
          | S _ => Some (Tau, with_crash s PanicSendOnClosedChannel)
          end
      | WSend [] => Some (Tau, with_worker s WRecv)
      | WSendDone =>
          match main s with
          | MWaitDone => Some (Tau, done_received s)
          | _ => None
          end
      | WNotStarted | WExited => None
      end
  end.

Definition main_next (s : state) : option (label * state) :=
  match crashed s with
  | Some _ => None
  | None =>
      match main s with
      | MRun [] ret => Some (Tau, run_returns s ret)
      | _ => None
      end
  end.

Definition next (p : policy) (s : state) : option (label * state) :=
  match p with
  | WorkerFirst =>
      match worker_next s with Some x => Some x | None => main_next s end
  | MainFirst =>
      match main_next s with Some x => Some x | None => worker_next s end
  end.

Fixpoint exec (p : policy) (fuel : nat) (s : state) : state :=
  match fuel with
  | 0 => s
  | S n => match next p s with
           | Some (_, s') => exec p n s'
           | None => s
           end
  end.

(** *** [RipSlice]: the collecting goroutine around [Rip] *)

Inductive collector_pc : Type :=
  | CRecv                                (* for r := range resChan { res = append(res, r) } *)
  | CSendDone                            (* done <- true *)
  | CExited.

Record slice_state : Type := {
  rip : state;
  res_slice : list BlameResult;                              (* the named result res *)
  collector : collector_pc;
  slice_returned : option (list BlameResult * option error)  (* return res, err *)
}.

(** [resChan] is unbuffered: each send of [Rip] is one receive and one
    [append] of the collector.  [RipSlice] receives from [done] once
    [Rip] has returned, and then returns the slice and [Rip]'s error. *)
Inductive slice_step : slice_state → slice_state → Prop :=
  | slice_inner σ s' :
      step (rip σ) Tau s' →
      slice_step σ {| rip := s'; res_slice := res_slice σ; collector := collector σ;
                      slice_returned := slice_returned σ |}
  | slice_recv σ r s' :
      step (rip σ) (Send r) s' → collector σ = CRecv →
      slice_step σ {| rip := s'; res_slice := res_slice σ ++ [r]; collector := CRecv;
                      slice_returned := slice_returned σ |}
  | slice_range_ends σ :
      crashed (rip σ) = None → collector σ = CRecv → res_closed (rip σ) ≠ 0 →
      slice_step σ {| rip := rip σ; res_slice := res_slice σ; collector := CSendDone;
                      slice_returned := slice_returned σ |}
  | slice_return σ err :
      crashed (rip σ) = None → collector σ = CSendDone → main (rip σ) = MReturned err →
      slice_step σ {| rip := rip σ; res_slice := res_slice σ; collector := CExited;
                      slice_returned := Some (res_slice σ, err) |}.

Definition slice_reachable : slice_state → slice_state → Prop := rtc slice_step.

Definition slice_next (p : policy) (σ : slice_state) : option slice_state :=
  match next p (rip σ) with
  | Some (Tau, s') =>
      Some {| rip := s'; res_slice := res_slice σ; collector := collector σ;
              slice_returned := slice_returned σ |}
  | Some (Send r, s') =>
      match collector σ with
      | CRecv => Some {| rip := s'; res_slice := res_slice σ ++ [r]; collector := CRecv;
                         slice_returned := slice_returned σ |}
      | _ => None
      end
  | None =>
      match crashed (rip σ), collector σ, main (rip σ) with
      | None, CRecv, _ =>
          match res_closed (rip σ) with
          | 0 => None
          | S _ => Some {| rip := rip σ; res_slice := res_slice σ; collector := CSendDone;
                           slice_returned := slice_returned σ |}
          end
      | None, CSendDone, MReturned err =>
          Some {| rip := rip σ; res_slice := res_slice σ; collector := CExited;
                  slice_returned := Some (res_slice σ, err) |}
      | _, _, _ => None
      end
  end.

Fixpoint slice_exec (p : policy) (fuel : nat) (σ : slice_state) : slice_state :=
  match fuel with
  | 0 => σ
  | S n => match slice_next p σ with
           | Some σ' => slice_exec p n σ'
           | None => σ
           end
  end.
End Facade.

Arguments Ripper : clear implicits.
Arguments Stages : clear implicits.
Arguments state : clear implicits.
Arguments slice_state : clear implicits.
Arguments main_pc : clear implicits.
Arguments worker_pc : clear implicits.

Section Rip.
Context {Graph Branches Result Timing : Type}.
Variable stg : Stages Graph Branches Result Timing.

(** [if opts == nil { opts = &RipOpts{} }] and
    [if opts.Logger == nil { opts.Logger = logger.NewDefaultLogger(os.Stdout) }] *)
Definition default_opts (o : option RipOpts) : RipOpts :=
  let o1 := match o with None => RipOpts_zero | Some o1 => o1 end in
  match Logger o1 with
  | Some _ => o1
  | None => {| Logger := Some logger.NewDefaultLogger;
               CheckpointsDir := CheckpointsDir o1;
               NoStrictResume := NoStrictResume o1;
               CommitFromIncl := CommitFromIncl o1;
               AllBranches := AllBranches o1 |}
  end.

(** [processOpts := process.Opts{...}] *)
Definition process_opts (repoDir : string) (opts : RipOpts) : processOpts :=
  {| pLogger := Logger opts; pRepoDir := repoDir;
     pCheckpointsDir := CheckpointsDir opts;
     pNoStrictResume := NoStrictResume opts;
     pCommitFromIncl := CommitFromIncl opts;
     pAllBranches := AllBranches opts |}.

(** [Rip] left before the worker goroutine was started: by [return err]
    or by [panic(err)].  Either way the deferred [close(res)] has run. *)
Definition left_early (s : Ripper Graph Branches Timing) (m : main_pc Result)
  : state Graph Branches Result Timing :=
  {| main := m; worker := WNotStarted; gitRes_closed := false;
     res_sent := []; res_closed := 1; crashed := None; ripper := s |}.

Definition set_parentsGraph (s : Ripper Graph Branches Timing) (g : Graph) :=
  {| commitMeta := commitMeta s; GitProcessTimings := GitProcessTimings s;
     parentsGraph := Some g; branches := branches s |}.

Definition set_branches (s : Ripper Graph Branches Timing) (b : Branches) :=
  {| commitMeta := commitMeta s; GitProcessTimings := GitProcessTimings s;
     parentsGraph := parentsGraph s; branches := Some b |}.

(** The branch pass of [Rip]: run only [if opts.AllBranches]. *)
Definition branch_pass (s : Ripper Graph Branches Timing) (repoDir : string)
    (opts : RipOpts) (g : Graph) : Ripper Graph Branches Timing * option error :=
  if AllBranches opts then
    let '(b, err) := branches_Run stg repoDir g in (set_branches s b, err)
  else (s, None).

(** [Rip] from its first statement up to [gitProcessor.Run(gitRes)]:
    the state in which the two goroutines start, or the state in
    which [Rip] has already been left. *)
Definition Rip_start (s : Ripper Graph Branches Timing) (repoDir : string)
    (o : option RipOpts) : state Graph Branches Result Timing :=
  let opts := default_opts o in
  match gitexec_Prepare stg repoDir with
  | Some e => left_early s (MReturned (Some e))
  | None =>
      let '(g, err) := parentsgraph_Read stg repoDir (AllBranches opts) in
      let s1 := set_parentsGraph s g in
      match err with
      | Some e => left_early s1 (MReturned (Some e))
      | None =>
          let '(s2, err) := branch_pass s1 repoDir opts g in
          match err with
          | Some e => left_early s2 (MReturned (Some e))
          | None =>
              let '(s3, err) := getCommitInfo stg s2 repoDir opts in
              match err with
              | Some e => left_early s3 (MPanicked (PanicErr e))
              | None =>
                  let '(results, ret) := process_Run stg (process_opts repoDir opts) in
                  {| main := MRun results ret; worker := WRecv; gitRes_closed := false;
                     res_sent := []; res_closed := 0; crashed := None; ripper := s3 |}
              end
          end
      end
  end.

(** The values [Rip] holds between its error checks. *)
Definition graph_read (repoDir : string) (o : option RipOpts) : Graph * option error :=
  parentsgraph_Read stg repoDir (AllBranches (default_opts o)).

Definition after_branches (s : Ripper Graph Branches Timing) (repoDir : string)
    (o : option RipOpts) : Ripper Graph Branches Timing * option error :=
  branch_pass (set_parentsGraph s (graph_read repoDir o).1) repoDir (default_opts o)
              (graph_read repoDir o).1.

Definition after_commit_info (s : Ripper Graph Branches Timing) (repoDir : string)
    (o : option RipOpts) : Ripper Graph Branches Timing * option error :=
  getCommitInfo stg (after_branches s repoDir o).1 repoDir (default_opts o).

(** The results [gitProcessor.Run] sends and the error it returns. *)
Definition run_results (repoDir : string) (o : option RipOpts) : list Result :=
  (process_Run stg (process_opts repoDir (default_opts o))).1.

Definition run_error (repoDir : string) (o : option RipOpts) : option error :=
  (process_Run stg (process_opts repoDir (default_opts o))).2.

(** All four error checks before the pipeline pass. *)
Definition checks_pass (s : Ripper Graph Branches Timing) (repoDir : string)
    (o : option RipOpts) : Prop :=
  gitexec_Prepare stg repoDir = None ∧
  (graph_read repoDir o).2 = None ∧
  (after_branches s repoDir o).2 = None ∧
  (after_commit_info s repoDir o).2 = None.

(** One of the three checks that [return err] fails with [e]. *)
Definition check_returns (s : Ripper Graph Branches Timing) (repoDir : string)
    (o : option RipOpts) (e : error) : Prop :=
  gitexec_Prepare stg repoDir = Some e ∨
  (gitexec_Prepare stg repoDir = None ∧ (graph_read repoDir o).2 = Some e) ∨
  (gitexec_Prepare stg repoDir = None ∧ (graph_read repoDir o).2 = None ∧
   (after_branches s repoDir o).2 = Some e).

(** The check after [getCommitInfo], which is [panic(err)], fails with [e]. *)
Definition check_panics (s : Ripper Graph Branches Timing) (repoDir : string)
    (o : option RipOpts) (e : error) : Prop :=
  gitexec_Prepare stg repoDir = None ∧ (graph_read repoDir o).2 = None ∧
  (after_branches s repoDir o).2 = None ∧
  (after_commit_info s repoDir o).2 = Some e.

(** The transition system of one call [s.Rip(ctx, repoDir, res, o)]. *)
Definition Rip_step (repoDir : string) (o : option RipOpts) :=
  step stg (default_opts o) (process_opts repoDir (default_opts o)).

Definition Rip_steps (repoDir : string) (o : option RipOpts) :=
  steps stg (default_opts o) (process_opts repoDir (default_opts o)).

(** The states a call of [Rip] can be in. *)
Definition Rip_reaches (s : Ripper Graph Branches Timing) (repoDir : string)
    (o : option RipOpts) (st : state Graph Branches Result Timing) : Prop :=
  ∃ tr, Rip_steps repoDir o (Rip_start s repoDir o) tr st.

(** [Rip], run by the scheduler [p] for at most [fuel] steps. *)
Definition Rip (p : policy) (fuel : nat) (s : Ripper Graph Branches Timing)
    (repoDir : string) (o : option RipOpts) : state Graph Branches Result Timing :=
  exec stg (default_opts o) (process_opts repoDir (default_opts o)) p fuel
       (Rip_start s repoDir o).

(** [RipSlice]: the collector is started, then [Rip] is called. *)
Definition RipSlice_start (s : Ripper Graph Branches Timing) (repoDir : string)
    (o : option RipOpts) : slice_state Graph Branches Result Timing :=
  {| rip := Rip_start s repoDir o; res_slice := []; collector := CRecv;
     slice_returned := None |}.

Definition RipSlice_reaches (s : Ripper Graph Branches Timing) (repoDir : string)
    (o : option RipOpts) (σ : slice_state Graph Branches Result Timing) : Prop :=
  slice_reachable stg (default_opts o) (process_opts repoDir (default_opts o))
                  (RipSlice_start s repoDir o) σ.

Definition RipSlice (p : policy) (fuel : nat) (s : Ripper Graph Branches Timing)
    (repoDir : string) (o : option RipOpts)
  : option (list BlameResult * option error) :=
  slice_returned
    (slice_exec stg (default_opts o) (process_opts repoDir (default_opts o)) p fuel
                (RipSlice_start s repoDir o)).
End Rip.

End ripsrc.

(** * Formatting, as the commands use it *)

Module fmt.

(** [%v] and [%d] of an integer: its decimal digits, with a minus sign
    when it is negative. *)
Definition int (n : Z) : string := NilZero.string_of_int (Z.to_int n).

(** The newline that ends a format or that [Println] adds. *)
Definition nl : string := String "010" "".

End fmt.

(** * The command: [ripcmd] *)

Module ripcmd.
Import ripsrc.

(** [err.Error()] *)
Definition error_text (e : error) : string :=
  match e with
  | ErrNoHeadCommit => "can't get valid output from git rev-parse HEAD"
  | errRevParseFailed => "git rev-parse HEAD failed"
  | GraphInconsistent c => "inconsistent graph at " ++ c
  | MalformedCommit c _ => "malformed commit " ++ c
  | PatchApplyFailed c p => "patch apply failed " ++ c ++ " " ++ p
  | Errorf msg => msg
  end%string.

(** What [os.Stat] gives: a [FileInfo], of which [IsDir()] is read, or
    an error, of which [os.IsNotExist] and the text are read. *)
Inductive stat_result : Type :=
  | StatInfo (isDir : bool)
  | StatError (isNotExist : bool) (text : string).

(** An entry of [ioutil.ReadDir]: [Name()] and [IsDir()]. *)
Record FileInfo : Type := { Name : string; IsDir : bool }.

(** [Stats] *)
Record Stats : Type := {
  Repos : Z;
  SkippedEmptyRepos : Z;
  Entries : Z
}.

(** [RepoError] *)
Record RepoError : Type := { Repo : string; RepoErr : error }.

(** [Opts] *)
Record Opts : Type := {
  Dir : string;
  OptCommitFromIncl : string;
  Profile : string
}.

(** Go's [int] on the 64-bit platforms: the sum of two, wrapped. *)
Definition int_add (a b : Z) : Z :=
  ((a + b + 2 ^ 63) mod 2 ^ 64 - 2 ^ 63)%Z.

(** [os.IsPathSeparator] on a Unix system *)
Definition IsPathSeparator (c : ascii) : bool := Ascii.eqb c "/".

(** The loop of [filepath.Ext]: from the last byte down, stopping at a
    path separator, and giving [path[i:]] at the first dot.  [seen]
    are the bytes passed, in their order in the path. *)
Fixpoint Ext_scan (down : list ascii) (seen : list ascii) : string :=
  match down with
  | [] => ""
  | c :: more =>
      if IsPathSeparator c then ""
      else if Ascii.eqb c "." then string_of_list_ascii (c :: seen)
      else Ext_scan more (c :: seen)
  end.

(** [filepath.Ext] *)
Definition Ext (path : string) : string :=
  Ext_scan (rev (list_ascii_of_string path)) [].

(** [unicode.IsSpace] on the bytes of ASCII output *)
Definition IsSpace (c : ascii) : bool :=
  let n := nat_of_ascii c in
  (n =? 32)%nat || ((9 <=? n)%nat && (n <=? 13)%nat).

Fixpoint TrimLeft (l : list ascii) : list ascii :=
  match l with
  | c :: rest => if IsSpace c then TrimLeft rest else l
  | [] => []
  end.

(** [strings.TrimSpace] *)
Definition TrimSpace (s : string) : string :=
  string_of_list_ascii
    (rev (TrimLeft (rev (TrimLeft (list_ascii_of_string s))))).

Section Discovery.
(** The operating system and the tool, as the package calls them. *)
Variable os_Stat : string → stat_result.
Variable ioutil_ReadDir : string → res (list FileInfo).
Variable filepath_Abs : string → res string.
Variable filepath_Join : string → string → string.
(** What [git rev-parse HEAD], run in the directory, writes to its
    standard output. *)
Variable git_rev_parse_HEAD : string → string.
(** A completed call [ripper.Rip(ctx, repoDir, res, ripOpts)] on a
    fresh Ripper: the records it delivered and the error it returned. *)
Variable Rip_call : string → RipOpts → list BlameResult * option error.

Variable opts : Opts.

(** [dirContainsDir] *)
Definition dirContainsDir (dir sub : string) : res bool :=
  match os_Stat (filepath_Join dir sub) with
  | StatError true _ => Ok false
  | StatError false text =>
      Err (Errorf ("can't check if dir contains " ++ sub ++ ", dir: " ++ dir ++
                   " err: " ++ text)%string)
  | StatInfo isDir => Ok isDir
  end.

(** [hasHeadCommit] *)
Definition hasHeadCommit (repoDir : string) : bool :=
  (String.length (TrimSpace (git_rev_parse_HEAD repoDir)) =? 40)%nat.

(** [runOnRepo]: the entries counted and the error.  The collecting
    goroutine counts one entry per record received ([entries++], from
    zero). *)
Definition runOnRepo (repoDir : string) : Z * option error :=
  if negb (hasHeadCommit repoDir) then (0%Z, Some errRevParseFailed)
  else
    let ripOpts := {| Logger := None; CheckpointsDir := ""; NoStrictResume := true;
                      CommitFromIncl := OptCommitFromIncl opts;
                      AllBranches := false |} in
    let '(delivered, err) := Rip_call repoDir ripOpts in
    (fold_left (λ entries _, int_add entries 1) delivered 0%Z, err).

(** What [runOnDirs] returns, with the directories for which
    [runOnRepo] was called, in order: each call writes its
    ["starting processing repo:"] line first. *)
Record dirs_result : Type := {
  stats : Stats;
  repoErrors : list RepoError;
  rerr : option error;
  started : list string
}.

Definition no_stats : Stats := {| Repos := 0; SkippedEmptyRepos := 0; Entries := 0 |}.

Definition failed (e : error) : dirs_result :=
  {| stats := no_stats; repoErrors := []; rerr := Some e; started := [] |}.

Definition nothing : dirs_result :=
  {| stats := no_stats; repoErrors := []; rerr := None; started := [] |}.

(** The closure [run] of [runOnDirs] *)
Definition run (dir : string) : dirs_result :=
  let '(entries, err) := runOnRepo dir in
  match err with
  | Some e =>
      if decide (e = errRevParseFailed) then
        {| stats := {| Repos := 1; SkippedEmptyRepos := 1; Entries := entries |};
           repoErrors := []; rerr := None; started := [dir] |}
      else
        {| stats := no_stats; repoErrors := [{| Repo := dir; RepoErr := e |}];
           rerr := None; started := [dir] |}
  | None =>
      {| stats := {| Repos := 1; SkippedEmptyRepos := 0; Entries := entries |};
         repoErrors := []; rerr := None; started := [dir] |}
  end.

(** The body of [for _, sub := range subs]: the results of the
    subdirectory are added, and its error ends the loop. *)
Fixpoint range_subs (rec : string → dirs_result) (dir : string)
    (subs : list FileInfo) (acc : dirs_result) : dirs_result :=
  match subs with
  | [] => acc
  | sub :: rest =>
      if negb (IsDir sub) then range_subs rec dir rest acc
      else
        let r := rec (filepath_Join dir (Name sub)) in
        let acc' :=
          {| stats := {| Repos := int_add (Repos (stats acc)) (Repos (stats r));
                         SkippedEmptyRepos := int_add (SkippedEmptyRepos (stats acc))
                                                      (SkippedEmptyRepos (stats r));
                         Entries := int_add (Entries (stats acc)) (Entries (stats r)) |};
             repoErrors := repoErrors acc ++ repoErrors r;
             rerr := rerr r;
             started := started acc ++ started r |} in
        match rerr r with
        | Some _ => acc'
        | None => range_subs rec dir rest acc'
        end
  end.

(** [runOnDirs], from [if recurseLevels == 0] on *)
Definition descend (rec : option (string → dirs_result)) (dir : string) : dirs_result :=
  match rec with
  | None => nothing
  | Some rec =>
      match ioutil_ReadDir dir with
      | Err e => failed (Errorf ("can't read passed dir, err: " ++ error_text e)%string)
      | Ok subs => range_subs rec dir subs nothing
      end
  end.

(** [runOnDirs]; [recurseLevels] counts down to zero. *)
Fixpoint runOnDirs (recurseLevels : nat) (dir : string) : dirs_result :=
  let rec := match recurseLevels with
             | 0 => None
             | S n => Some (runOnDirs n)
             end in
  match os_Stat dir with
  | StatError _ text => failed (Errorf ("can't stat passed dir, err: " ++ text)%string)
  | StatInfo false => failed (Errorf "passed dir is a file, expecting a dir")
  | StatInfo true =>
      match dirContainsDir dir ".git" with
      | Err e => failed e
      | Ok true => run dir
      | Ok false =>
          match filepath_Abs dir with
          | Err e =>
              failed (Errorf ("can't convert passed dir to absolute path, err: " ++
                              error_text e)%string)
          | Ok loc =>
              if decide (Ext loc = ".git") then
                match dirContainsDir dir "objects" with
                | Err e => failed e
                | Ok true => run dir
                | Ok false => descend rec dir
                end
              else descend rec dir
          end
      end
  end.

(** [Run]: the call [runOnDirs(ctx, out, opts, opts.Dir, 1, start)] *)
Definition Run : dirs_result := runOnDirs 1 (Dir opts).

(** *** Discovery, in the words of its description *)

(** [dir] contains a subdirectory [sub]. *)
Definition has_subdir (dir sub : string) : bool :=
  match os_Stat (filepath_Join dir sub) with
  | StatInfo true => true
  | _ => false
  end.

(** The name of [dir] ends in [.git]. *)
Definition named_dot_git (dir : string) : bool :=
  match filepath_Abs dir with
  | Ok loc => bool_decide (Ext loc = ".git")
  | Err _ => false
  end.

(** [dir] is processed as a repository. *)
Definition is_repository (dir : string) : bool :=
  has_subdir dir ".git" || (named_dot_git dir && has_subdir dir "objects").

(** The immediate subdirectories of [dir]. *)
Definition subdirs (dir : string) : list string :=
  match ioutil_ReadDir dir with
  | Ok subs => map (λ sub, filepath_Join dir (Name sub)) (filter (λ sub, IsDir sub = true) subs)
  | Err _ => []
  end.

(** The repositories discovery finds from [dir], going [levels] deep. *)
Fixpoint discovered (levels : nat) (dir : string) : list string :=
  if is_repository dir then [dir]
  else match levels with
       | 0 => []
       | S n => flat_map (discovered n) (subdirs dir)
       end.

End Discovery.

(** *** [Run], to its end *)

(** How a call of a command ends: it returns, it leaves the program by
    [os.Exit], or it panics. *)
Inductive ending : Type :=
  | Returns
  | Exits (code : Z)
  | Panics (v : string).

(** What [Run] has done when it ends: what it wrote itself, in order,
    whether the deferred [runEndHook] has run, and how it ended. *)
Record command_end : Type := {
  written : list string;
  hook_ran : bool;
  ends : ending
}.

Section Command.
Variable os_Stat : string → stat_result.
Variable ioutil_ReadDir : string → res (list FileInfo).
Variable filepath_Abs : string → res string.
Variable filepath_Join : string → string → string.
Variable git_rev_parse_HEAD : string → string.
Variable Rip_call : string → RipOpts → list BlameResult * option error.
(** [color.RedString], [color.YellowString] and [color.GreenString],
    applied to the text their format and operands give. *)
Variable color_RedString color_YellowString color_GreenString : string → string.
(** The directory [ioutil.TempDir] gives, and [time.Since(start)] as
    [%v] prints it. *)
Variable ioutil_TempDir : string.
Variable since : string.

Variable opts : Opts.

(** [enableProfiling]: the line its [onEnd] prints after [stop()], or
    the value of the [panic] of its [default] case. *)
Definition enableProfiling (kind : string) : string + string :=
  let fn := filepath_Join ioutil_TempDir (kind ++ ".pprof")%string in
  let onEnd := ("to view profile, run `go tool pprof --pdf " ++ fn ++ "`" ++ fmt.nl)%string in
  if String.eqb kind "cpu" then inl onEnd
  else if String.eqb kind "mem" then inl onEnd
  else if String.eqb kind "trace" then inl onEnd
  else if String.eqb kind "block" then inl onEnd
  else if String.eqb kind "mutex" then inl onEnd
  else inr ("unexpected profile: " ++ kind)%string.

(** The lines [Run] writes for the repositories that failed. *)
Definition repo_error_lines (repoErrs : list RepoError) : list string :=
  (color_RedString "failed processing, errors:" ++ fmt.nl)%string ::
  map (λ err, (color_RedString ("repo: " ++ Repo err ++ " err: " ++
                                error_text (RepoErr err) ++ fmt.nl) ++ fmt.nl)%string)
      repoErrs ++
  [(color_RedString "failed processing" ++ fmt.nl)%string].

(** [Run], from [if err != nil] on, given what [runOnDirs] returned and
    the line of the profiling hook, if profiling is enabled.  [os.Exit]
    leaves the program at once: the deferred hook does not run. *)
Definition Run_report (hook : option string) (r : dirs_result) : command_end :=
  let exit1 lines := {| written := lines; hook_ran := false; ends := Exits 1 |} in
  match rerr r with
  | Some e => exit1 [("failed processing with err " ++ error_text e ++ fmt.nl)%string]
  | None =>
      match repoErrors r with
      | _ :: _ => exit1 (repo_error_lines (repoErrors r))
      | [] =>
          if (Repos (stats r) =? 0)%Z then
            exit1 [(color_RedString ("failed processing, no git repos found in supplied dir: "
                                     ++ Dir opts) ++ fmt.nl)%string]
          else
            let warning :=
              if (SkippedEmptyRepos (stats r) =? 0)%Z then []
              else [color_YellowString ("Warning! Skipped " ++
                                        fmt.int (SkippedEmptyRepos (stats r)) ++
                                        " empty repos" ++ fmt.nl)%string] in
            let finished :=
              color_GreenString ("Finished processing repos " ++ fmt.int (Repos (stats r)) ++
                                 " entries " ++ fmt.int (Entries (stats r)) ++
                                 " in " ++ since ++ fmt.nl)%string in
            {| written := warning ++ [finished] ++
                          match hook with Some line => [line] | None => [] end;
               hook_ran := match hook with Some _ => true | None => false end;
               ends := Returns |}
      end
  end.

(** [Run], whole: profiling is enabled first, [if opts.Profile != ""],
    and its [panic] comes before any directory is looked at. *)
Definition Run_command : command_end :=
  let report hook :=
    Run_report hook (Run os_Stat ioutil_ReadDir filepath_Abs filepath_Join
                         git_rev_parse_HEAD Rip_call opts) in
  if String.eqb (Profile opts) "" then report None
  else match enableProfiling (Profile opts) with
       | inl line => report (Some line)
       | inr v => {| written := []; hook_ran := false; ends := Panics v |}
       end.

End Command.

(** The totals of [Stats], added as the loop of [runOnDirs] adds them,
    and the totals of a list of them, from the zero value. *)
Definition add_stats (a b : Stats) : Stats :=
  {| Repos := int_add (Repos a) (Repos b);
     SkippedEmptyRepos := int_add (SkippedEmptyRepos a) (SkippedEmptyRepos b);
     Entries := int_add (Entries a) (Entries b) |}.

Definition sum_stats (l : list Stats) : Stats := fold_left add_stats l no_stats.

(** The values of an [int]. *)
Definition is_int (n : Z) : Prop := (- 2 ^ 63 ≤ n < 2 ^ 63)%Z.

Definition ints (a : Stats) : Prop :=
  is_int (Repos a) ∧ is_int (SkippedEmptyRepos a) ∧ is_int (Entries a).
End ripcmd.

(** * The first command line: [cmd/root.go] *)

Module cmd.
Import ripsrc.

Section Root.
(** [color.CyanString] and the like, applied to the text their format
    and operands give. *)
Variable color_CyanString color_GreenString color_MagentaString
         color_YellowString : string → string.

(** The slice expression [blame.Commit.SHA[0:8]]: it panics when the
    string has fewer than 8 bytes. *)
Definition sha_0_8 (sha : string) : option string :=
  if (8 <=? String.length sha)%nat then Some (substring 0 8 sha) else None.

(** The [fmt.Printf] of the results goroutine: the line it prints for a
    record, or nothing when the slice expression panics.  The operand
    of both [comments=%v] and [blanks=%v] is [blame.Comments]. *)
Definition record_line (blame : BlameResult) : option string :=
  match sha_0_8 (commitmeta.SHA (Commit blame)) with
  | None => None
  | Some sha =>
      Some ("[" ++ color_CyanString sha ++ "] " ++ color_GreenString (Filename blame) ++
            " language=" ++ color_MagentaString (Language blame) ++
            ",loc=" ++ fmt.int (Loc blame) ++
            ",sloc=" ++ color_YellowString (fmt.int (Sloc blame)) ++
            ",comments=" ++ fmt.int (Comments blame) ++
            ",blanks=" ++ fmt.int (Comments blame) ++
            ",complexity=" ++ fmt.int (Complexity blame) ++ fmt.nl)%string
  end.

(** The results goroutine, [for blame := range results { count++;
    fmt.Printf(...) }], over the records the channel delivers until it
    is closed: the lines printed, the count, and whether the loop ended
    and [resultsDone <- true] was reached rather than a panic. *)
Fixpoint range_results (results : list BlameResult) (count : Z)
  : list string * Z * bool :=
  match results with
  | [] => ([], count, true)
  | blame :: rest =>
      let count := ripcmd.int_add count 1 in
      match record_line blame with
      | None => ([], count, false)
      | Some line =>
          let '(lines, count, ended) := range_results rest count in
          (line :: lines, count, ended)
      end
  end.

End Root.
End cmd.

(** * The stages behind the facade, from their specification

    [gitexec], [commitmeta], [history3/process] and the Ripper's
    [getCommitInfo] and [codeInfoFiles] are not among the sources; what
    follows models them from the specification of the system. *)

Module gitexec.

(** Modelled from the spec: [gitexec.Prepare], which is not in the
    sources: "prepare(repoDir) (fails with NoHead when there is no
    resolvable head)".  The head is resolvable when [git rev-parse HEAD]
    prints a commit id, 40 characters once trimmed: the test of
    [ripcmd.hasHeadCommit], and what the text of [ErrNoHeadCommit]
    names.  The argument is what the command prints. *)
Definition Prepare (rev_parse_HEAD : string) : option error :=
  if (String.length (ripcmd.TrimSpace rev_parse_HEAD) =? 40)%nat then None
  else Some ErrNoHeadCommit.

(** Modelled from the spec: what the tool yields for one repository,
    the output of [git rev-parse HEAD] and the stream
    "logWithPatches(opts) -> stream<RawCommitRecord>". *)
Record Repo (Raw : Type) : Type := {
  rev_parse_HEAD : string;
  logWithPatches : ripsrc.processOpts → list Raw
}.
Arguments rev_parse_HEAD {Raw} _.
Arguments logWithPatches {Raw} _ _.

End gitexec.

Module process.
Import commitmeta.

(** Modelled from the spec: "BlameLine ... classification: {Code,
    Comment, Blank}. Exactly one classification is set." *)
Inductive Classification : Type := IsCode | IsComment | IsBlank.

(** Modelled from the spec: one emission of the engine, for one file
    touched by one commit, before decoration. *)
Record Emission : Type := {
  Path : string;
  FileLines : list ripsrc.BlameLine;
  FileStatus : CommitStatus;
  FileSkipped : string
}.

(** Modelled from the spec: [process.Result], what the engine sends
    for one commit: the emissions of its files, in order. *)
Record Result : Type := {
  ResultCommit : string;
  ResultFiles : list Emission
}.

Section Engine.
(** The raw record of a commit and the patch of one of its files. *)
Context {Raw Patch : Type}.
(** CommitMeta: "Parses each RawCommitRecord into a Commit minus
    branches ... any unexpected line fails the record with
    MalformedCommit". *)
Variable parse : Raw → res Commit.
Variable patch : Raw → string → Patch.
(** The lines a patch adds, and the hunk arithmetic on a line table,
    which gives nothing on a line-count mismatch. *)
Variable plus_lines : Patch → list string.
Variable apply_hunks : Commit → list ripsrc.BlameLine → Patch → option (list ripsrc.BlameLine).
Variable classifyLine : string → string → Classification.

(** Modelled from the spec: a line "stamped with the current commit's
    author/date". *)
Definition stamp (c : Commit) (k : Classification) : ripsrc.BlameLine :=
  {| ripsrc.Name := PersonName (Author c);
     ripsrc.Email := PersonEmail (Author c);
     ripsrc.Date := Date c;
     ripsrc.Comment := match k with IsComment => true | _ => false end;
     ripsrc.Code := match k with IsCode => true | _ => false end;
     ripsrc.Blank := match k with IsBlank => true | _ => false end |}.

(** Modelled from the spec: the source of a rename or copy, from the
    base tree, or from "the other parents' trees only to resolve
    rename/copy sources that do not exist in the first parent". *)
Definition source_blame (base : gmap string (list ripsrc.BlameLine))
    (others : list (gmap string (list ripsrc.BlameLine))) (from : string)
  : list ripsrc.BlameLine :=
  match base !! from with
  | Some b => b
  | None => default [] (head (omap (λ t : gmap string (list ripsrc.BlameLine), t !! from) others))
  end.

(** Modelled from the spec: step 3 of the per-commit processing,
    "Apply each file's patch", for one [(path, change)]: the tree after
    it and the emission. *)
Definition apply_change (c : Commit) (raw : Raw)
    (others : list (gmap string (list ripsrc.BlameLine)))
    (T : gmap string (list ripsrc.BlameLine)) (pc : string * CommitFile)
  : res (gmap string (list ripsrc.BlameLine) * Emission) :=
  let path := pc.1 in
  let emit lines skipped :=
    {| Path := path; FileLines := lines; FileStatus := Status pc.2;
       FileSkipped := skipped |} in
  let patched old k :=
    match apply_hunks c old (patch raw path) with
    | Some b => Ok (k b, emit b "")
    | None => Err (PatchApplyFailed (SHA c) path)
    end in
  if Binary pc.2 then Ok (delete path T, emit [] "binary")
  else
    match Status pc.2 with
    | GitFileCommitStatusAdded =>
        let b := map (λ line, stamp c (classifyLine path line))
                     (plus_lines (patch raw path)) in
        Ok (<[path := b]> T, emit b "")
    | GitFileCommitStatusRemoved => Ok (delete path T, emit [] "")
    | GitFileCommitStatusModified =>
        patched (default [] (T !! path)) (λ b, <[path := b]> T)
    | GitFileCommitStatusRenamed =>
        let from := default path (RenamedFrom pc.2) in
        patched (source_blame T others from) (λ b, <[path := b]> (delete from T))
    | GitFileCommitStatusCopied =>
        let from := default path (RenamedFrom pc.2) in
        patched (source_blame T others from) (λ b, <[path := b]> T)
    end.

(** Modelled from the spec: the files of a commit, "in the order
    listed by the tool"; the first failure ends the commit. *)
Fixpoint apply_changes (c : Commit) (raw : Raw)
    (others : list (gmap string (list ripsrc.BlameLine)))
    (T : gmap string (list ripsrc.BlameLine)) (files : list (string * CommitFile))
  : res (gmap string (list ripsrc.BlameLine) * list Emission) :=
  match files with
  | [] => Ok (T, [])
  | pc :: rest =>
      match apply_change c raw others T pc with
      | Err e => Err e
      | Ok (T1, em) =>
          match apply_changes c raw others T1 rest with
          | Err e => Err e
          | Ok (T2, ems) => Ok (T2, em :: ems)
          end
      end
  end.

(** Modelled from the spec: the engine over the stream, "in
    topological commit order": per commit, the base tree is that of the
    first parent, or empty for the root; each file's patch is applied;
    the emissions of the commit are sent; a structural error ends the
    run.  Reclaiming the trees of commits without unvisited children
    changes no emission and is left out.  The result is what is sent,
    in order, and the error returned. *)
Fixpoint run (treeAt : gmap string (gmap string (list ripsrc.BlameLine)))
    (stream : list Raw) : list Result * option error :=
  match stream with
  | [] => ([], None)
  | raw :: rest =>
      match parse raw with
      | Err e => ([], Some e)
      | Ok c =>
          let base := match Parents c with
                      | [] => ∅
                      | p :: _ => default ∅ (treeAt !! p)
                      end in
          let others := omap (λ p, treeAt !! p) (tail (Parents c)) in
          match apply_changes c raw others base (Files c) with
          | Err e => ([], Some e)
          | Ok (T, ems) =>
              let '(results, err) := run (<[SHA c := T]> treeAt) rest in
              ({| ResultCommit := SHA c; ResultFiles := ems |} :: results, err)
          end
      end
  end.

(** The commits of a stream, up to the first malformed record. *)
Fixpoint commits (stream : list Raw) : list Commit :=
  match stream with
  | [] => []
  | raw :: rest =>
      match parse raw with
      | Ok c => c :: commits rest
      | Err _ => []
      end
  end.

End Engine.
End process.

Module codeinfo.
Import commitmeta.

(** Modelled from the spec: what the FileInfo decorator computes for
    one emission: "language ..., license ..., and totals (loc, sloc,
    comments, blanks, complexity)". *)
Record Info : Type := {
  InfoLanguage : string;
  InfoLicense : option fileinfo.License;
  InfoSize : Z;
  InfoLoc : Z;
  InfoSloc : Z;
  InfoComments : Z;
  InfoBlanks : Z;
  InfoComplexity : Z;
  InfoWeightedComplexity : Z
}.

(** The zero value of [Commit], which a Go map gives for a missing key. *)
Definition Commit_zero : Commit :=
  {| SHA := ""; Parents := []; Author := {| PersonName := ""; PersonEmail := "" |};
     Committer := {| PersonName := ""; PersonEmail := "" |}; Date := 0; Message := "";
     Files := []; Branches := []; Signed := false |}.

Definition with_Branches (c : Commit) (bs : list string) : Commit :=
  {| SHA := SHA c; Parents := Parents c; Author := Author c; Committer := Committer c;
     Date := Date c; Message := Message c; Files := Files c; Branches := bs;
     Signed := Signed c |}.

Section Decorate.
Context {Raw : Type}.
Variable parse : Raw → res Commit.
(** The decorator's findings, for the file of a commit at a path. *)
Variable fileinfo_of : string → string → Info.
(** The branches the branch pass found for a commit. *)
Context {Graph Branches Timing : Type}.
Variable branches_of : Branches → string → list string.

(** Modelled from the spec: the commit metadata of the stream, by sha:
    "Parses each RawCommitRecord into a Commit minus branches", the
    branches being those of the branch pass, "empty when branch
    attribution disabled".  A malformed record is the error. *)
Fixpoint commit_info (all : bool) (b : option Branches) (stream : list Raw)
    (m : gmap string Commit) : gmap string Commit * option error :=
  match stream with
  | [] => (m, None)
  | raw :: rest =>
      match parse raw with
      | Err e => (m, Some e)
      | Ok c =>
          let bs := if all then match b with
                                | Some b => branches_of b (SHA c)
                                | None => []
                                end
                    else [] in
          commit_info all b rest (<[SHA c := with_Branches c bs]> m)
      end
  end.

(** Modelled from the spec: the Ripper's [getCommitInfo], which fills
    [commitMeta] from the stream. *)
Definition getCommitInfo (stream : list Raw) (s : ripsrc.Ripper Graph Branches Timing)
    (opts : ripsrc.RipOpts) : ripsrc.Ripper Graph Branches Timing * option error :=
  let '(m, err) := commit_info (ripsrc.AllBranches opts) (ripsrc.branches s) stream ∅ in
  ({| ripsrc.commitMeta := m; ripsrc.GitProcessTimings := ripsrc.GitProcessTimings s;
      ripsrc.parentsGraph := ripsrc.parentsGraph s; ripsrc.branches := ripsrc.branches s |},
   err).

(** Modelled from the spec: the decoration of one emission: "For each
    BlameResult with non-empty lines, compute ... language ..., license
    ..., and totals"; the commit is the metadata of the emission's sha. *)
Definition decorate (c : Commit) (em : process.Emission) : ripsrc.BlameResult :=
  let bare :=
    {| ripsrc.Commit := c; ripsrc.Language := ""; ripsrc.Filename := process.Path em;
       ripsrc.Lines := process.FileLines em; ripsrc.Size := 0; ripsrc.Loc := 0;
       ripsrc.Sloc := 0; ripsrc.Comments := 0; ripsrc.Blanks := 0;
       ripsrc.Complexity := 0; ripsrc.WeightedComplexity := 0;
       ripsrc.Skipped := process.FileSkipped em; ripsrc.License := None;
       ripsrc.Status := process.FileStatus em |} in
  match process.FileLines em with
  | [] => bare
  | _ :: _ =>
      let i := fileinfo_of (SHA c) (process.Path em) in
      {| ripsrc.Commit := c; ripsrc.Language := InfoLanguage i;
         ripsrc.Filename := process.Path em; ripsrc.Lines := process.FileLines em;
         ripsrc.Size := InfoSize i; ripsrc.Loc := InfoLoc i; ripsrc.Sloc := InfoSloc i;
         ripsrc.Comments := InfoComments i; ripsrc.Blanks := InfoBlanks i;
         ripsrc.Complexity := InfoComplexity i;
         ripsrc.WeightedComplexity := InfoWeightedComplexity i;
         ripsrc.Skipped := process.FileSkipped em; ripsrc.License := InfoLicense i;
         ripsrc.Status := process.FileStatus em |}
  end.

(** Modelled from the spec: the Ripper's [codeInfoFiles], the
    decoration of the emissions of one commit, in their order.  The
    decoration has no error of its own: what it does not find is left
    empty in the record. *)
Definition codeInfoFiles (s : ripsrc.Ripper Graph Branches Timing) (r1 : process.Result)
    (opts : ripsrc.RipOpts) : res (list ripsrc.BlameResult) :=
  let c := default Commit_zero (ripsrc.commitMeta s !! process.ResultCommit r1) in
  Ok (map (decorate c) (process.ResultFiles r1)).

End Decorate.

Section Stages.
Context {Raw Patch Graph Branches Timing : Type}.
Variable parse : Raw → res Commit.
Variable patch : Raw → string → Patch.
Variable plus_lines : Patch → list string.
Variable apply_hunks : Commit → list ripsrc.BlameLine → Patch → option (list ripsrc.BlameLine).
Variable classifyLine : string → string → process.Classification.
Variable fileinfo_of : string → string → Info.
Variable branches_of : Branches → string → list string.
(** The parents graph and the branch pass are taken as they come. *)
Variable parentsgraph_Read : string → bool → Graph * option error.
Variable branches_Run : string → Graph → Branches * option error.
Variable timing : ripsrc.processOpts → Timing.
(** The repository of each directory, as the tool shows it. *)
Variable git : string → gitexec.Repo Raw.

(** The stream the tool gives for a call of [Rip]. *)
Definition stream (repoDir : string) (o : option ripsrc.RipOpts) : list Raw :=
  gitexec.logWithPatches (git repoDir)
    (ripsrc.process_opts repoDir (ripsrc.default_opts o)).

(** The stages of [Rip], as the specification has them. *)
Definition stages : ripsrc.Stages Graph Branches process.Result Timing :=
  {| ripsrc.gitexec_Prepare := λ repoDir,
       gitexec.Prepare (gitexec.rev_parse_HEAD (git repoDir));
     ripsrc.parentsgraph_Read := parentsgraph_Read;
     ripsrc.branches_Run := branches_Run;
     ripsrc.getCommitInfo := λ s repoDir opts,
       getCommitInfo parse branches_of
         (gitexec.logWithPatches (git repoDir) (ripsrc.process_opts repoDir opts)) s opts;
     ripsrc.codeInfoFiles := codeInfoFiles fileinfo_of;
     ripsrc.process_Run := λ popts,
       process.run parse patch plus_lines apply_hunks classifyLine ∅
         (gitexec.logWithPatches (git (ripsrc.pRepoDir popts)) popts);
     ripsrc.process_Timing := timing |}.

End Stages.
End codeinfo.

(** * A small instance of the collaborators, to run the facade on *)

Module demo.
Import ripsrc.

(** The call that fails, if any. *)
Inductive failure : Type :=
  | NoFailure | FailPrepare | FailRead | FailBranches
  | FailCommitInfo | FailDecorate | FailRun.

Definition person : commitmeta.Person :=
  {| commitmeta.PersonName := "ann"; commitmeta.PersonEmail := "ann@example.org" |}.

Definition commit (sha : string) : commitmeta.Commit :=
  {| commitmeta.SHA := sha; commitmeta.Parents := []; commitmeta.Author := person;
     commitmeta.Committer := person; commitmeta.Date := 0; commitmeta.Message := "";
     commitmeta.Files := []; commitmeta.Branches := []; commitmeta.Signed := false |}.

Definition record (sha file : string) : BlameResult :=
  {| Commit := commit sha; Language := "Go"; Filename := file; Lines := [];
     Size := 0; Loc := 0; Sloc := 0; Comments := 0; Blanks := 0; Complexity := 0;
     WeightedComplexity := 0; Skipped := ""; License := None;
     Status := commitmeta.GitFileCommitStatusAdded |}.

Definition fails (f g : failure) (msg : string) : option error :=
  match f, g with
  | FailPrepare, FailPrepare | FailRead, FailRead | FailBranches, FailBranches
  | FailCommitInfo, FailCommitInfo | FailRun, FailRun => Some (Errorf msg)
  | _, _ => None
  end.

(** Two results, ["c1"] and ["c2"], of two records each; decoration
    fails, when it does, on ["c2"]. *)
Definition stages (f : failure) : Stages unit unit string unit :=
  {| gitexec_Prepare := λ _, fails f FailPrepare "prepare";
     parentsgraph_Read := λ _ _, (tt, fails f FailRead "read");
     branches_Run := λ _ _, (tt, fails f FailBranches "branches");
     getCommitInfo := λ s _ _, (s, fails f FailCommitInfo "commit info");
     codeInfoFiles := λ _ r1 _,
       match f with
       | FailDecorate =>
           if String.eqb r1 "c2" then Err (Errorf "code info")
           else Ok [record r1 "a.go"; record r1 "b.go"]
       | _ => Ok [record r1 "a.go"; record r1 "b.go"]
       end;
     process_Run := λ _, (["c1"; "c2"], fails f FailRun "run");
     process_Timing := λ _, tt |}.

(** A directory tree: [/w] holds a working repository [a], a bare
    repository [b.git] without commits, a plain directory [c] with a
    repository [c/d] below it, a directory [e.git] without [objects],
    and a file. *)
Definition dirs : list string :=
  ["/w"; "/w/a"; "/w/a/.git"; "/w/b.git"; "/w/b.git/objects"; "/w/c"; "/w/c/d";
   "/w/c/d/.git"; "/w/e.git"].

Definition os_Stat (path : string) : ripcmd.stat_result :=
  if existsb (String.eqb path) dirs then ripcmd.StatInfo true
  else if String.eqb path "/w/README" then ripcmd.StatInfo false
  else ripcmd.StatError true "no such file or directory".

Definition entry (name : string) (isDir : bool) : ripcmd.FileInfo :=
  {| ripcmd.Name := name; ripcmd.IsDir := isDir |}.

Definition ioutil_ReadDir (path : string) : res (list ripcmd.FileInfo) :=
  if String.eqb path "/w" then
    Ok [entry "README" false; entry "a" true; entry "b.git" true; entry "c" true;
        entry "e.git" true]
  else if String.eqb path "/w/c" then Ok [entry "d" true]
  else Ok [].

Definition filepath_Abs (path : string) : res string := Ok path.

Definition filepath_Join (dir sub : string) : string := (dir ++ "/" ++ sub)%string.

Definition git_rev_parse_HEAD (repoDir : string) : string :=
  if String.eqb repoDir "/w/a" then
    String.append "3a82e44558db78d9e61661d3c85b0a79d23a1d48" (String "010" "")
  else "".

Definition Rip_call (repoDir : string) (o : RipOpts)
  : list BlameResult * option error :=
  ([record "3a82e44558db78d9e61661d3c85b0a79d23a1d48" "main.go"], None).

Definition cmd_opts : ripcmd.Opts :=
  {| ripcmd.Dir := "/w"; ripcmd.OptCommitFromIncl := ""; ripcmd.Profile := "" |}.

(** The same tree, where [/w/b.git/.git] cannot be examined. *)
Definition os_Stat_denied (path : string) : ripcmd.stat_result :=
  if String.eqb path "/w/b.git/.git" then ripcmd.StatError false "permission denied"
  else os_Stat path.

(** A repository of three commits: [c1] adds [a.go] and [b.go], [c2]
    modifies [a.go] and removes [b.go], [c3] merges without a change. *)
Definition change (st : commitmeta.CommitStatus) : commitmeta.CommitFile :=
  {| commitmeta.Status := st; commitmeta.RenamedFrom := None;
     commitmeta.Additions := 1; commitmeta.Deletions := 0; commitmeta.Binary := false |}.

Definition commit_with (sha : string) (parents : list string)
    (files : list (string * commitmeta.CommitFile)) : commitmeta.Commit :=
  {| commitmeta.SHA := sha; commitmeta.Parents := parents; commitmeta.Author := person;
     commitmeta.Committer := person; commitmeta.Date := 0; commitmeta.Message := "";
     commitmeta.Files := files; commitmeta.Branches := []; commitmeta.Signed := false |}.

Definition c1 : commitmeta.Commit :=
  commit_with "c1" [] [("a.go", change commitmeta.GitFileCommitStatusAdded);
                       ("b.go", change commitmeta.GitFileCommitStatusAdded)].
Definition c2 : commitmeta.Commit :=
  commit_with "c2" ["c1"] [("a.go", change commitmeta.GitFileCommitStatusModified);
                           ("b.go", change commitmeta.GitFileCommitStatusRemoved)].
Definition c3 : commitmeta.Commit := commit_with "c3" ["c2"; "c1"] [].

Definition repo (head : string) : gitexec.Repo commitmeta.Commit :=
  {| gitexec.rev_parse_HEAD := head; gitexec.logWithPatches := λ _, [c1; c2; c3] |}.

Definition no_info : codeinfo.Info :=
  {| codeinfo.InfoLanguage := "Go"; codeinfo.InfoLicense := None; codeinfo.InfoSize := 0;
     codeinfo.InfoLoc := 1; codeinfo.InfoSloc := 1; codeinfo.InfoComments := 0;
     codeinfo.InfoBlanks := 0; codeinfo.InfoComplexity := 0;
     codeinfo.InfoWeightedComplexity := 0 |}.

(** The stages of the specification on this repository: a record is
    its own parse, every patch adds one line and changes none. *)
Definition spec_stages (head : string) : Stages unit unit process.Result unit :=
  codeinfo.stages (Raw := commitmeta.Commit) (Patch := unit)
    Ok (λ _ _, tt) (λ _, ["package main"]) (λ _ old _, Some old)
    (λ _ _, process.IsCode) (λ _ _, no_info) (λ _ _, [])
    (λ _ _, (tt, None)) (λ _ _, (tt, None)) (λ _, tt) (λ _, repo head).

Definition a_head : string :=
  String.append "3a82e44558db78d9e61661d3c85b0a79d23a1d48" (String "010" "").

Definition all_branches : RipOpts :=
  {| Logger := None; CheckpointsDir := ""; NoStrictResume := false;
     CommitFromIncl := ""; AllBranches := true |}.

End demo.

(** * Invariants of the pipeline *)

Import ripsrc.

Section Invariants.
Context {Graph Branches Result Timing : Type}.
Variable stg : Stages Graph Branches Result Timing.
Variable opts : RipOpts.

(** [close(res)] has run once when [Rip] has been left and not before. *)
Definition closed_once (s : state Graph Branches Result Timing) : Prop :=
  res_closed s = match main s with
                 | MReturned _ | MPanicked _ => 1
                 | MRun _ _ | MWaitDone => 0
                 end.

(** The results the processor has still to send. *)
Definition pending (s : state Graph Branches Result Timing) : list Result :=
  match main s with MRun p _ => p | _ => [] end.

(** The result the worker has received and not yet decorated. *)
Definition in_flight (s : state Graph Branches Result Timing) : list Result :=
  match worker s with WDecorate r1 => [r1] | _ => [] end.

(** The decorated records the worker has still to send. *)
Definition unsent (s : state Graph Branches Result Timing) : list BlameResult :=
  match worker s with WSend rs => rs | _ => [] end.

(** [outs] are the record lists [codeInfoFiles] gives for [processed]. *)
Definition decorated (rp : Ripper Graph Branches Timing)
    (processed : list Result) (outs : list (list BlameResult)) : Prop :=
  Forall2 (λ r1 rs, codeInfoFiles stg rp r1 opts = Ok rs) processed outs.

(** The pipeline between [gitProcessor.Run] and the sink: the results
    split into those decorated, the one in flight and those pending,
    and what was decorated is what was sent or is about to be. *)
Record pipeline_inv (rp : Ripper Graph Branches Timing) (results : list Result)
    (s : state Graph Branches Result Timing) : Prop := {
  inv_ripper : main s ≠ MReturned None → ripper s = rp;
  inv_exit : main s = MReturned None → worker s = WExited;
  inv_started : worker s ≠ WNotStarted;
  inv_split : ∃ processed outs,
      results = processed ++ in_flight s ++ pending s ∧
      decorated rp processed outs ∧
      concat outs = res_sent s ++ unsent s
}.





(** [RipSlice]: the slice is the sink, the collector leaves its loop
    only on the closed channel, and what was returned stays what [Rip]
    delivered and returned. *)
Record slice_inv (σ : slice_state Graph Branches Result Timing) : Prop := {
  sinv_slice : res_slice σ = res_sent (rip σ);
  sinv_closed : collector σ ≠ CRecv → res_closed (rip σ) ≠ 0;
  sinv_returned : ∀ l err, slice_returned σ = Some (l, err) →
      l = res_sent (rip σ) ∧ main (rip σ) = MReturned err ∧ res_closed (rip σ) ≠ 0
}.

(** [Rip] was left before the worker goroutine was started. *)
Definition is_left_early (st : state Graph Branches Result Timing) : Prop :=
  worker st = WNotStarted ∧ res_sent st = [] ∧ res_closed st = 1 ∧
  crashed st = None ∧
  match main st with MReturned (Some _) | MPanicked _ => True | _ => False end.

(** What [Rip] returns is what [gitProcessor.Run] returned. *)
Definition ret_agree (ret : option error)
    (s : state Graph Branches Result Timing) : Prop :=
  match main s with
  | MRun _ r => r = ret
  | MWaitDone => ret = None
  | MReturned err => err = ret
  | MPanicked _ => False
  end.

End Invariants.

Section CallInvariants.
Context {Graph Branches Result Timing : Type}.
Variable stg : Stages Graph Branches Result Timing.
Variable popts : processOpts.

(** A send on the closed sink is the worker's, with records in hand,
    after [close(res)] has run. *)
Definition send_closed_inv (s : state Graph Branches Result Timing) : Prop :=
  crashed s = Some PanicSendOnClosedChannel →
  res_closed s ≠ 0 ∧ ∃ r rs, worker s = WSend (r :: rs).



End CallInvariants.

(** * What the stream of records is compared with *)

Section Emissions.
Import commitmeta.

(** A record is identified by the sha of its commit and its filename. *)
Definition key (r : BlameResult) : string * string :=
  (SHA (ripsrc.Commit r), Filename r).

(** The [(sha, path)] pairs of commits and their files maps, commit by
    commit and, within a commit, in the order of its files. *)
Definition emission_keys (cs : list Commit) : list (string * string) :=
  flat_map (λ c, map (λ pc : string * CommitFile, (SHA c, pc.1)) (Files c)) cs.

(** The emission [em] is that of the entry [pc] of a files map. *)
Definition emission_of (pc : string * CommitFile) (em : process.Emission) : Prop :=
  process.Path em = pc.1 ∧ process.FileStatus em = Status pc.2 ∧
  (Status pc.2 = GitFileCommitStatusRemoved → process.FileLines em = []).

(** The result [r1] is that of the commit [c]. *)
Definition result_of (c : Commit) (r1 : process.Result) : Prop :=
  process.ResultCommit r1 = SHA c ∧
  Forall2 emission_of (Files c) (process.ResultFiles r1).

(** The record [r] is that of the entry [pc] of the files map of [c]. *)
Definition record_of (c : Commit) (pc : string * CommitFile) (r : BlameResult) : Prop :=
  SHA (ripsrc.Commit r) = SHA c ∧ Filename r = pc.1 ∧
  ripsrc.Status r = Status pc.2 ∧
  (Status pc.2 = GitFileCommitStatusRemoved → Lines r = []).

(** Consecutive duplicates compressed. *)
Fixpoint compress (l : list string) : list string :=
  match l with
  | [] => []
  | x :: rest =>
      match rest with
      | y :: _ => if String.eqb x y then compress rest else x :: compress rest
      | [] => [x]
      end
  end.

(** [a] is an ancestor of [b] among the commits [cs]: a chain of
    parent edges leads from [b] to [a]. *)
Definition parent_in (cs : list Commit) (a b : string) : Prop :=
  ∃ cb, cb ∈ cs ∧ SHA cb = b ∧ a ∈ Parents cb ∧ a ∈ map SHA cs.

Definition ancestor_in (cs : list Commit) : string → string → Prop :=
  tc (parent_in cs).

(** The commits [cs] are listed parents first: what the stream of the
    tool promises, "in topological order". *)
Definition parents_first (cs : list Commit) : Prop :=
  ∀ i j ca cb, cs !! i = Some ca → cs !! j = Some cb →
               SHA ca ∈ Parents cb → i < j.

(** The commit touches a file. *)
Definition touches_files (c : Commit) : bool :=
  match Files c with [] => false | _ :: _ => true end.

(** The shas [l] are in a topological order of the parents graph of
    [cs], oldest first: each sha once, and never a commit before one
    of its ancestors. *)
Definition topological (cs : list Commit) (l : list string) : Prop :=
  NoDup l ∧
  ∀ i j a b, l !! i = Some a → l !! j = Some b → ancestor_in cs a b → i < j.

(** The entries of the files maps of commits, commit by commit and,
    within a commit, in the order of its files. *)
Definition entries (cs : list Commit) : list (Commit * (string * CommitFile)) :=
  flat_map (λ c, map (λ pc, (c, pc)) (Files c)) cs.

(** The record [r] is that of the entry [e]. *)
Definition record_of_entry (e : Commit * (string * CommitFile)) (r : BlameResult) : Prop :=
  record_of e.1 e.2 r.

(** Every sha of the metadata map is the sha of its commit. *)
Definition keyed_by_sha (m : gmap string Commit) : Prop :=
  ∀ k c, m !! k = Some c → SHA c = k.

End Emissions.

(** * Properties of the facade *)

(** Case analysis of [Rip_start] along its error checks. *)
Ltac rip_start_cases stg s repoDir o :=
  unfold Rip_start, branch_pass;
  destruct (gitexec_Prepare stg repoDir) as [?e|] eqn:?HPrepare;
  [|destruct (parentsgraph_Read stg repoDir (AllBranches (default_opts o)))
      as [?g [?e|]] eqn:?HRead;
    [|destruct (AllBranches (default_opts o)) eqn:?HAll;
      [destruct (branches_Run stg repoDir _) as [?b [?e|]] eqn:?HBranches|];
      try (destruct (getCommitInfo stg _ repoDir (default_opts o))
             as [?s3 [?e|]] eqn:?HInfo;
           [|destruct (process_Run stg (process_opts repoDir (default_opts o)))
               as [?results ?ret] eqn:?HRun])]].

(** Side conditions of the pipeline invariant that only look at the
    two program counters. *)
Ltac pcs_side Hrp Hex Hst :=
  simpl;
  first
    [ exact Hrp | exact Hex | exact Hst | congruence
    | intros ?; first
        [ congruence
        | apply Hrp; congruence
        | match goal with
          | H : main _ = MReturned None |- _ => apply Hex in H; congruence
          end ]
    | match goal with
      | |- context [run_returns _ ?ret] =>
          destruct ret; simpl; first
            [ congruence | exact Hst
            | intros ?; first [congruence | apply Hrp; congruence] ]
      end ].

Section FacadeFacts.
Context {Graph Branches Result Timing : Type}.
Variable stg : Stages Graph Branches Result Timing.
Variable opts : RipOpts.
Variable popts : processOpts.

Local Abbreviation St := (state Graph Branches Result Timing).
Local Abbreviation step' := (step stg opts popts).
Local Abbreviation steps' := (steps stg opts popts).

Lemma worker_next_sound (s s' : St) l :
  worker_next stg opts popts s = Some (l, s') → step' s l s'.
Proof.
  unfold worker_next. intros H.
  destruct (crashed s) eqn:Hc; [done|].
  destruct (worker s) as [| |r1|[|r rs]| |] eqn:Hw; try done.
  - destruct (main s) as [[|r1 rest] ret| | |] eqn:Hm;
      try (destruct (gitRes_closed s) eqn:Hg; [|done]; simplify_eq;
           by apply step_range_ends).
    simplify_eq. by eapply step_handoff.
  - destruct (codeInfoFiles stg (ripper s) r1 opts) eqn:Hd; simplify_eq.
    + by eapply step_decorate.
    + by eapply step_decorate_panic.
  - simplify_eq. by apply step_next.
  - destruct (res_closed s) eqn:Hcl; simplify_eq.
    + by eapply step_send.
    + eapply step_send_closed; eauto. lia.
  - destruct (main s) eqn:Hm; simplify_eq. by apply step_done.
Qed.

Lemma main_next_sound (s s' : St) l :
  main_next s = Some (l, s') → step' s l s'.
Proof.
  unfold main_next. intros H.
  destruct (crashed s) eqn:Hc; [done|].
  destruct (main s) as [[|] ret| | |] eqn:Hm; simplify_eq.
  by apply step_run_returns.
Qed.

Lemma next_sound p (s s' : St) l :
  next stg opts popts p s = Some (l, s') → step' s l s'.
Proof.
  destruct p; simpl.
  - destruct (worker_next stg opts popts s) as [[l1 s1]|] eqn:Hw.
    + intros; simplify_eq. by apply worker_next_sound.
    + apply main_next_sound.
  - destruct (main_next s) as [[l1 s1]|] eqn:Hm.
    + intros; simplify_eq. by apply main_next_sound.
    + apply worker_next_sound.
Qed.

Lemma exec_steps p n (s : St) : ∃ tr, steps' s tr (exec stg opts popts p n s).
Proof.
  revert s. induction n as [|n IH]; intros s; simpl.
  - exists []. constructor.
  - destruct (next stg opts popts p s) as [[l s']|] eqn:Hn.
    + apply next_sound in Hn. destruct (IH s') as [tr Htr].
      destruct l as [|r].
      * exists tr. by eapply steps_tau.
      * exists (r :: tr). by eapply steps_send.
    + exists []. constructor.
Qed.

Lemma steps_trans (s1 s2 s3 : St) tr1 tr2 :
  steps' s1 tr1 s2 → steps' s2 tr2 s3 → steps' s1 (tr1 ++ tr2) s3.
Proof.
  induction 1; simpl; intros; eauto using steps.
Qed.

(** A property kept by every step holds along every execution. *)
Lemma steps_invariant (P : St → Prop) :
  (∀ s l s', P s → step' s l s' → P s') →
  ∀ s tr s', steps' s tr s' → P s → P s'.
Proof. intros Hstep s tr s' H. induction H; eauto. Qed.

(** The sink is the history of sends. *)
Lemma step_sent (s s' : St) l :
  step' s l s' →
  res_sent s' = res_sent s ++ match l with Tau => [] | Send r => [r] end.
Proof.
  destruct 1; simpl; rewrite ?app_nil_r; try done;
    destruct ret; simpl; by rewrite ?app_nil_r.
Qed.

Lemma steps_sent (s s' : St) tr :
  steps' s tr s' → res_sent s' = res_sent s ++ tr.
Proof.
  induction 1 as [s|s s' s'' tr Hs _ IH|s r s' s'' tr Hs _ IH].
  - by rewrite app_nil_r.
  - apply step_sent in Hs. rewrite IH, Hs. simpl. by rewrite app_nil_r.
  - apply step_sent in Hs. rewrite IH, Hs. by rewrite <- app_assoc.
Qed.

(** *** The deferred close *)

Lemma closed_once_step (s s' : St) l :
  closed_once s → step' s l s' → closed_once s'.
Proof.
  unfold closed_once. intros Hc Hs.
  destruct Hs as [s r1 rest ret _ Hm _|s r1 rs _ _ _|s r1 e _ _ _|s r rs _ _ _
                 |s r rs _ _ _|s _ _|s ret _ Hm|s _ _ _|s _ Hm _]; simpl; try done.
  - by rewrite Hm in Hc.
  - rewrite Hm in Hc. destruct ret; simpl; by rewrite Hc.
  - rewrite Hm in Hc. by rewrite Hc.
Qed.

Lemma closed_once_steps (s s' : St) tr :
  steps' s tr s' → closed_once s → closed_once s'.
Proof. apply steps_invariant. intros ? l ? ? ?. by eapply closed_once_step. Qed.

(** Once [Rip] has been left its position and the sink are final. *)
Lemma step_left_stable (s s' : St) l :
  step' s l s' →
  (∀ err, main s = MReturned err → main s' = MReturned err) ∧
  (res_closed s ≠ 0 → res_closed s' ≠ 0 ∧ res_sent s' = res_sent s).
Proof.
  destruct 1 as [s r1 rest ret _ Hm _|s r1 rs _ _ _|s r1 e _ _ _|s r rs _ _ Hcl
                |s r rs _ _ _|s _ _|s ret _ Hm|s _ _ _|s _ Hm _]; simpl;
    (split; [intros err Herr; try congruence|intros Hne; try done]).
  destruct ret; simpl; (split; [lia|done]).
Qed.

(** *** What reaches the sink *)

Lemma pipeline_inv_step rp results (s s' : St) l :
  pipeline_inv stg opts rp results s → step' s l s' →
  pipeline_inv stg opts rp results s'.
Proof.
  intros [Hrp Hex Hst (processed & outs & Hres & Hdec & Hcat)] Hs.
  unfold in_flight, pending, unsent in *.
  destruct Hs as [s r1 rest ret _ Hm Hw|s r1 rs _ Hw Hd|s r1 e _ Hw _|s r rs _ Hw _
                 |s r rs _ Hw _|s _ Hw|s ret _ Hm|s _ Hw _|s _ Hm Hw];
    (split; try solve [pcs_side Hrp Hex Hst]).
  - exists processed, outs. unfold in_flight, pending, unsent; simpl.
    rewrite Hm, Hw in *. simpl in *. done.
  - rewrite Hrp in Hd by (intros Hn; apply Hex in Hn; congruence).
    exists (processed ++ [r1]), (outs ++ [rs]).
    unfold in_flight, pending, unsent; simpl. rewrite Hw in *. simpl in *.
    split; [by rewrite <- app_assoc|].
    split; [apply Forall2_app; [done|by constructor]|].
    rewrite concat_app, Hcat. simpl. by rewrite !app_nil_r.
  - exists processed, outs. unfold in_flight, pending, unsent; simpl. done.
  - exists processed, outs. unfold in_flight, pending, unsent; simpl.
    rewrite Hw in *. simpl in *. split; [done|]. split; [done|].
    by rewrite Hcat, <- app_assoc.
  - exists processed, outs. unfold in_flight, pending, unsent; simpl. done.
  - exists processed, outs. unfold in_flight, pending, unsent; simpl.
    rewrite Hw in *. simpl in *. done.
  - exists processed, outs. rewrite Hm in Hres.
    destruct ret; unfold in_flight, pending, unsent; simpl; done.
  - exists processed, outs. unfold in_flight, pending, unsent; simpl.
    rewrite Hw in *. simpl in *. done.
  - exists processed, outs. unfold in_flight, pending, unsent; simpl.
    rewrite Hm, Hw in *. simpl in *. done.
Qed.

Lemma pipeline_inv_steps rp results (s s' : St) tr :
  steps' s tr s' → pipeline_inv stg opts rp results s →
  pipeline_inv stg opts rp results s'.
Proof. apply steps_invariant. intros ? l ? ? ?. by eapply pipeline_inv_step. Qed.

(** When [Rip] has returned nil, every result was decorated and the
    sink holds the decorated records, in order. *)
Lemma pipeline_inv_returned rp results (s : St) :
  pipeline_inv stg opts rp results s → main s = MReturned None →
  ∃ outs, decorated stg opts rp results outs ∧ res_sent s = concat outs.
Proof.
  intros [_ Hex _ (processed & outs & Hres & Hdec & Hcat)] Hm.
  specialize (Hex Hm). unfold in_flight, pending, unsent in *.
  rewrite Hm, Hex in *. simpl in *. rewrite !app_nil_r in *.
  exists outs. by subst.
Qed.

(** At any time the sink holds a prefix of the decorated records of a
    prefix of the results. *)
Lemma pipeline_inv_prefix rp results (s : St) :
  pipeline_inv stg opts rp results s →
  ∃ processed outs rest,
    results = processed ++ rest ∧ decorated stg opts rp processed outs ∧
    res_sent s `prefix_of` concat outs.
Proof.
  intros [_ _ _ (processed & outs & Hres & Hdec & Hcat)].
  exists processed, outs, (in_flight s ++ pending s).
  split; [done|]. split; [done|]. rewrite Hcat. by apply prefix_app_r.
Qed.

(** *** The collector of [RipSlice] *)

Lemma step_send_open (s s' : St) r :
  step' s (Send r) s' → res_closed s = 0 ∧ res_closed s' = 0.
Proof. inversion 1; subst; simpl; done. Qed.

Lemma slice_inv_step (σ σ' : slice_state Graph Branches Result Timing) :
  slice_inv σ → slice_step stg opts popts σ σ' → slice_inv σ'.
Proof.
  intros [Hsl Hcl Hret] Hs.
  destruct Hs as [σ s' Hst|σ r s' Hst Hc|σ Hcr Hc Hne|σ err Hcr Hc Hm]; split; simpl.
  - apply step_sent in Hst. rewrite Hst, Hsl. by rewrite app_nil_r.
  - intros Hc. apply (step_left_stable _ _ _ Hst). auto.
  - intros l err Hr. destruct (Hret l err Hr) as (-> & Hm & Hne).
    destruct (step_left_stable _ _ _ Hst) as [Hmain Hsent].
    destruct (Hsent Hne) as [? ->]. auto.
  - apply step_sent in Hst. by rewrite Hst, Hsl.
  - done.
  - intros l err Hr. destruct (Hret l err Hr) as (_ & _ & Hne).
    apply step_send_open in Hst. lia.
  - done.
  - auto.
  - exact Hret.
  - done.
  - intros _. apply Hcl. congruence.
  - intros l err' Hr. simplify_eq. split; [done|]. split; [done|].
    apply Hcl. congruence.
Qed.

Lemma slice_inv_reachable (σ σ' : slice_state Graph Branches Result Timing) :
  slice_reachable stg opts popts σ σ' → slice_inv σ → slice_inv σ'.
Proof. induction 1; eauto using slice_inv_step. Qed.

(** The inner system of a [RipSlice] execution runs as [Rip] does. *)
Lemma slice_reachable_inner (σ σ' : slice_state Graph Branches Result Timing) :
  slice_reachable stg opts popts σ σ' → ∃ tr, steps' (rip σ) tr (rip σ').
Proof.
  induction 1 as [σ|σ σ1 σ' Hs _ (tr & IH)].
  - exists []. constructor.
  - destruct Hs as [σ s' Hst|σ r s' Hst Hc|σ Hcr Hc Hne|σ err Hcr Hc Hm]; simpl in *.
    + exists tr. by eapply steps_tau.
    + exists (r :: tr). by eapply steps_send.
    + by exists tr.
    + by exists tr.
Qed.

(** Conversely the collector follows every execution of [Rip]. *)
Lemma steps_slice (s s' : St) tr l cur :
  steps' s tr s' →
  slice_reachable stg opts popts
    {| rip := s; res_slice := l; collector := CRecv; slice_returned := cur |}
    {| rip := s'; res_slice := l ++ tr; collector := CRecv; slice_returned := cur |}.
Proof.
  intros H. revert l.
  induction H as [s|s s1 s' tr Hs _ IH|s r s1 s' tr Hs Hss IH]; intros l.
  - rewrite app_nil_r. apply rtc_refl.
  - eapply rtc_l; [|by apply IH]. by apply (slice_inner _ _ _ {| rip := s |}).
  - eapply rtc_l;
      [apply (slice_recv _ _ _ {| rip := s; collector := CRecv |}); done|].
    simpl. replace (l ++ r :: tr) with ((l ++ [r]) ++ tr) by by rewrite <- app_assoc.
    apply IH.
Qed.

(** *** The value returned *)

Lemma ret_agree_step ret (s s' : St) l :
  ret_agree ret s → step' s l s' → ret_agree ret s'.
Proof.
  unfold ret_agree. intros Hr Hs.
  destruct Hs as [s r1 rest r _ Hm _|s r1 rs _ _ _|s r1 e _ _ _|s r rs _ _ _
                 |s r rs _ _ _|s _ _|s r _ Hm|s _ _ _|s _ Hm _]; simpl; try done.
  - by rewrite Hm in Hr.
  - rewrite Hm in Hr. subst. by destruct ret.
  - by rewrite Hm in Hr.
Qed.

Lemma ret_agree_steps ret (s s' : St) tr :
  steps' s tr s' → ret_agree ret s → ret_agree ret s'.
Proof. apply steps_invariant. intros ? l ? ? ?. by eapply ret_agree_step. Qed.

(** *** Executions that complete *)

(** The worker sends the records of one result. *)
Lemma send_all m g sent rp rs :
  steps' {| main := m; worker := WSend rs; gitRes_closed := g; res_sent := sent;
            res_closed := 0; crashed := None; ripper := rp |}
         rs
         {| main := m; worker := WSend []; gitRes_closed := g; res_sent := sent ++ rs;
            res_closed := 0; crashed := None; ripper := rp |}.
Proof.
  revert sent. induction rs as [|r rs IH]; intros sent.
  - rewrite app_nil_r. constructor.
  - eapply steps_send; [by eapply step_send|].
    unfold with_sent; simpl.
    replace (sent ++ r :: rs) with ((sent ++ [r]) ++ rs) by by rewrite <- app_assoc.
    apply IH.
Qed.

(** The worker takes, decorates and sends a prefix of the results:
    the schedule that lets the worker run as far as it can. *)
Lemma run_prefix rp pre outs rest ret sent :
  decorated stg opts rp pre outs →
  steps' {| main := MRun (pre ++ rest) ret; worker := WRecv; gitRes_closed := false;
            res_sent := sent; res_closed := 0; crashed := None; ripper := rp |}
         (concat outs)
         {| main := MRun rest ret; worker := WRecv; gitRes_closed := false;
            res_sent := sent ++ concat outs; res_closed := 0; crashed := None;
            ripper := rp |}.
Proof.
  intros Hdec. revert sent.
  induction Hdec as [|r1 rs pre outs Hd _ IH]; intros sent; simpl.
  - rewrite app_nil_r. constructor.
  - eapply steps_tau; [by eapply step_handoff|].
    eapply steps_tau; [by eapply step_decorate|].
    unfold with_worker, with_pcs; simpl.
    eapply steps_trans; [apply send_all|].
    eapply steps_tau; [by eapply step_next|].
    unfold with_worker, with_pcs; simpl.
    rewrite app_assoc. apply IH.
Qed.

(** After the last result: [Run] returns nil, the worker's loop ends,
    [done] is passed and [Rip] returns nil. *)
Lemma run_to_return rp sent :
  steps' {| main := MRun [] None; worker := WRecv; gitRes_closed := false;
            res_sent := sent; res_closed := 0; crashed := None; ripper := rp |}
         []
         {| main := MReturned None; worker := WExited; gitRes_closed := true;
            res_sent := sent; res_closed := 1; crashed := None;
            ripper := {| commitMeta := commitMeta rp;
                         GitProcessTimings := Some (process_Timing stg popts);
                         parentsGraph := parentsGraph rp;
                         branches := branches rp |} |}.
Proof.
  eapply steps_tau; [by eapply step_run_returns|].
  eapply steps_tau; [by eapply step_range_ends|].
  eapply steps_tau; [by eapply step_done|].
  constructor.
Qed.

(** After the last result, when [Run] returns an error: [Rip] returns
    it at once. *)
Lemma run_to_error rp sent e :
  steps' {| main := MRun [] (Some e); worker := WRecv; gitRes_closed := false;
            res_sent := sent; res_closed := 0; crashed := None; ripper := rp |}
         []
         {| main := MReturned (Some e); worker := WRecv; gitRes_closed := true;
            res_sent := sent; res_closed := 1; crashed := None; ripper := rp |}.
Proof.
  eapply steps_tau; [by eapply step_run_returns|]. constructor.
Qed.

(** The worker panics on the first result [codeInfoFiles] fails on. *)
Lemma run_to_panic rp r1 e rest ret sent :
  codeInfoFiles stg rp r1 opts = Err e →
  steps' {| main := MRun (r1 :: rest) ret; worker := WRecv; gitRes_closed := false;
            res_sent := sent; res_closed := 0; crashed := None; ripper := rp |}
         []
         {| main := MRun rest ret; worker := WDecorate r1; gitRes_closed := false;
            res_sent := sent; res_closed := 0; crashed := Some (PanicErr e);
            ripper := rp |}.
Proof.
  intros Hd.
  eapply steps_tau; [by eapply step_handoff|].
  eapply steps_tau; [by eapply step_decorate_panic|].
  constructor.
Qed.

(** *** Termination and absence of deadlock *)






(** The race at the end of a failed run: [Run] hands over its last
    result and returns an error; [Rip] returns it and closes the sink
    while the worker still holds records to send; its next send is on
    the closed channel. *)
Lemma run_to_send_on_closed rp r1 r rs e sent :
  codeInfoFiles stg rp r1 opts = Ok (r :: rs) →
  steps' {| main := MRun [r1] (Some e); worker := WRecv; gitRes_closed := false;
            res_sent := sent; res_closed := 0; crashed := None; ripper := rp |}
         []
         {| main := MReturned (Some e); worker := WSend (r :: rs); gitRes_closed := true;
            res_sent := sent; res_closed := 1;
            crashed := Some PanicSendOnClosedChannel; ripper := rp |}.
Proof.
  intros Hd.
  eapply steps_tau; [by eapply step_handoff|].
  eapply steps_tau; [by eapply step_run_returns|].
  eapply steps_tau; [by eapply step_decorate|].
  eapply steps_tau; [by eapply step_send_closed|].
  constructor.
Qed.

End FacadeFacts.

Section RipFacts.
Context {Graph Branches Result Timing : Type}.
Variable stg : Stages Graph Branches Result Timing.
Variable s : Ripper Graph Branches Timing.
Variable repoDir : string.
Variable o : option RipOpts.

Local Abbreviation St := (state Graph Branches Result Timing).
Local Abbreviation st0 := (Rip_start stg s repoDir o).

Lemma Rip_start_closed_once : closed_once st0.
Proof. rip_start_cases stg s repoDir o; reflexivity. Qed.

Lemma Rip_start_not_crashed : crashed st0 = None.
Proof. rip_start_cases stg s repoDir o; reflexivity. Qed.

(** Either [Rip] was left before the goroutine started, or the
    pipeline starts on the results of [gitProcessor.Run]. *)
Lemma Rip_start_cases :
  is_left_early st0 ∨
  ∃ ret, main st0 = MRun (process_Run stg (process_opts repoDir (default_opts o))).1 ret ∧
         ret = (process_Run stg (process_opts repoDir (default_opts o))).2 ∧
         worker st0 = WRecv ∧ res_sent st0 = [] ∧ res_closed st0 = 0 ∧
         gitRes_closed st0 = false.
Proof.
  unfold is_left_early.
  rip_start_cases stg s repoDir o; simpl; try (left; done); right; eauto 10.
Qed.

Lemma left_early_no_step opts popts (st st' : St) l :
  is_left_early st → ¬ step stg opts popts st l st'.
Proof.
  intros (Hw & _ & _ & _ & Hm) Hs.
  destruct Hs; try congruence; rewrite H0 in Hm; done.
Qed.

Lemma left_early_steps opts popts (st st' : St) tr :
  is_left_early st → steps stg opts popts st tr st' → st' = st ∧ tr = [].
Proof.
  intros Hl Hs. destruct Hs as [|? ? ? ? Hs _|? ? ? ? ? Hs _]; [done| |];
    by apply left_early_no_step in Hs.
Qed.

Lemma Rip_start_pipeline_inv :
  ¬ is_left_early st0 →
  pipeline_inv stg (default_opts o) (ripper st0)
    (process_Run stg (process_opts repoDir (default_opts o))).1 st0.
Proof.
  intros Hne. destruct Rip_start_cases as [?|(ret & Hm & _ & Hw & Hsent & _)]; [done|].
  split.
  - done.
  - congruence.
  - congruence.
  - exists [], []. unfold in_flight, pending, unsent. rewrite Hm, Hw, Hsent.
    split; [done|]. split; [constructor|done].
Qed.

(** [Rip_reaches] in terms of the invariants. *)
Lemma Rip_reaches_closed_once (st : St) :
  Rip_reaches stg s repoDir o st → closed_once st.
Proof.
  intros [tr Htr]. eapply closed_once_steps; [exact Htr|].
  apply Rip_start_closed_once.
Qed.

Lemma Rip_reaches_cases (st : St) :
  Rip_reaches stg s repoDir o st →
  (is_left_early st0 ∧ st = st0) ∨
  (¬ is_left_early st0 ∧
   pipeline_inv stg (default_opts o) (ripper st0)
     (process_Run stg (process_opts repoDir (default_opts o))).1 st).
Proof.
  intros [tr Htr].
  destruct Rip_start_cases as [Hl|(ret & Hm & Hrest)].
  - left. split; [done|]. by destruct (left_early_steps _ _ _ _ _ Hl Htr).
  - right.
    assert (¬ is_left_early st0) as Hne
        by (intros (_ & _ & _ & _ & Hmm); by rewrite Hm in Hmm).
    split; [done|]. eapply pipeline_inv_steps; [exact Htr|].
    by apply Rip_start_pipeline_inv.
Qed.

(** The scheduler's run of [Rip] is one of its executions. *)
Lemma Rip_exec_reaches p fuel :
  Rip_reaches stg s repoDir o (Rip stg p fuel s repoDir o).
Proof. apply exec_steps. Qed.

Lemma Rip_start_sent_nil : res_sent st0 = [].
Proof. rip_start_cases stg s repoDir o; reflexivity. Qed.

Lemma Rip_start_started :
  ¬ is_left_early st0 →
  st0 = {| main := MRun (process_Run stg (process_opts repoDir (default_opts o))).1
                        (process_Run stg (process_opts repoDir (default_opts o))).2;
           worker := WRecv; gitRes_closed := false; res_sent := []; res_closed := 0;
           crashed := None; ripper := ripper st0 |}.
Proof.
  unfold is_left_early.
  rip_start_cases stg s repoDir o; simpl; intros Hne; try done;
    exfalso; apply Hne; done.
Qed.

Lemma Rip_reaches_ret_agree (st : St) :
  ¬ is_left_early st0 → Rip_reaches stg s repoDir o st →
  ret_agree (process_Run stg (process_opts repoDir (default_opts o))).2 st.
Proof.
  intros Hne [tr Htr]. eapply ret_agree_steps; [exact Htr|].
  rewrite (Rip_start_started Hne). reflexivity.
Qed.

(** When the stages before the pipeline pass, [Run] returns nil and
    every result is decorated, [Rip] can run to its [return nil], and
    the sink then holds the decorated records in order. *)
Lemma Rip_completes outs :
  ¬ is_left_early st0 →
  (process_Run stg (process_opts repoDir (default_opts o))).2 = None →
  decorated stg (default_opts o) (ripper st0)
    (process_Run stg (process_opts repoDir (default_opts o))).1 outs →
  ∃ st, Rip_reaches stg s repoDir o st ∧ main st = MReturned None ∧
        res_sent st = concat outs ∧ res_closed st = 1 ∧ crashed st = None.
Proof.
  intros Hne Hret Hdec. eexists. split; [|split; [|split; [|split]]]; cycle 1.
  5: { unfold Rip_reaches, Rip_steps. rewrite (Rip_start_started Hne), Hret.
       eexists. eapply steps_trans.
       - rewrite <- (app_nil_r (process_Run _ _).1). by apply run_prefix.
       - apply run_to_return. }
  all: done.
Qed.

(** When [Rip] has returned nil, the sink holds the decorated records
    of all results, in order. *)
Lemma Rip_returned_nil_sink (st : St) :
  Rip_reaches stg s repoDir o st → main st = MReturned None →
  ∃ outs, decorated stg (default_opts o) (ripper st0)
            (process_Run stg (process_opts repoDir (default_opts o))).1 outs ∧
          res_sent st = concat outs.
Proof.
  intros Hr Hm. destruct (Rip_reaches_cases _ Hr) as [[Hl ->]|[_ Hinv]].
  - destruct Hl as (_ & _ & _ & _ & Hmm). by rewrite Hm in Hmm.
  - by eapply pipeline_inv_returned.
Qed.

Lemma RipSlice_start_inv : slice_inv (RipSlice_start stg s repoDir o).
Proof.
  split; simpl.
  - by rewrite Rip_start_sent_nil.
  - done.
  - done.
Qed.

(** *** The error checks of [Rip], one by one *)

Lemma Rip_start_Prepare_error e :
  gitexec_Prepare stg repoDir = Some e →
  st0 = left_early s (MReturned (Some e)).
Proof. intros H. unfold Rip_start. by rewrite H. Qed.

Lemma Rip_start_Read_error e :
  gitexec_Prepare stg repoDir = None →
  (graph_read stg repoDir o).2 = Some e →
  st0 = left_early (set_parentsGraph s (graph_read stg repoDir o).1) (MReturned (Some e)).
Proof.
  unfold graph_read, Rip_start. intros -> H.
  destruct (parentsgraph_Read _ _ _) as [g err]. simpl in H. by subst.
Qed.

Lemma Rip_start_branches_error e :
  gitexec_Prepare stg repoDir = None →
  (graph_read stg repoDir o).2 = None →
  (after_branches stg s repoDir o).2 = Some e →
  st0 = left_early (after_branches stg s repoDir o).1 (MReturned (Some e)).
Proof.
  unfold after_branches, graph_read, Rip_start. intros -> H1 H2.
  destruct (parentsgraph_Read _ _ _) as [g err]. simpl in *. subst.
  destruct (branch_pass _ _ _ _ _) as [s2 err]. simpl in *. by subst.
Qed.

Lemma Rip_start_commit_info_error e :
  gitexec_Prepare stg repoDir = None →
  (graph_read stg repoDir o).2 = None →
  (after_branches stg s repoDir o).2 = None →
  (after_commit_info stg s repoDir o).2 = Some e →
  st0 = left_early (after_commit_info stg s repoDir o).1 (MPanicked (PanicErr e)).
Proof.
  unfold after_commit_info, after_branches, graph_read, Rip_start. intros -> H1 H2 H3.
  destruct (parentsgraph_Read _ _ _) as [g err]. simpl in *. subst.
  destruct (branch_pass _ _ _ _ _) as [s2 err]. simpl in *. subst.
  destruct (getCommitInfo _ _ _ _) as [s3 err]. simpl in *. by subst.
Qed.

Lemma Rip_start_passes :
  gitexec_Prepare stg repoDir = None →
  (graph_read stg repoDir o).2 = None →
  (after_branches stg s repoDir o).2 = None →
  (after_commit_info stg s repoDir o).2 = None →
  ¬ is_left_early st0 ∧ ripper st0 = (after_commit_info stg s repoDir o).1.
Proof.
  unfold after_commit_info, after_branches, graph_read, Rip_start, is_left_early.
  intros -> H1 H2 H3.
  destruct (parentsgraph_Read _ _ _) as [g err]. simpl in *. subst.
  destruct (branch_pass _ _ _ _ _) as [s2 err]. simpl in *. subst.
  destruct (getCommitInfo _ _ _ _) as [s3 err]. simpl in *. subst.
  destruct (process_Run _ _) as [results ret]. simpl. split; [|done].
  intros (Hw & _). done.
Qed.

Lemma left_early_reaches (st : St) :
  is_left_early st0 → Rip_reaches stg s repoDir o st → st = st0.
Proof. intros Hl [tr Htr]. by destruct (left_early_steps _ _ _ _ _ Hl Htr). Qed.

(** An error of [gitProcessor.Run] is what [Rip] returns, whenever it
    returns. *)
Lemma Rip_run_error_returned (st : St) err :
  ¬ is_left_early st0 → Rip_reaches stg s repoDir o st →
  main st = MReturned err →
  err = run_error stg repoDir o ∧ res_closed st = 1.
Proof.
  intros Hne Hr Hm. split.
  - pose proof (Rip_reaches_ret_agree _ Hne Hr) as Ha.
    unfold ret_agree in Ha. by rewrite Hm in Ha.
  - pose proof (Rip_reaches_closed_once _ Hr) as Hc.
    unfold closed_once in Hc. by rewrite Hm in Hc.
Qed.

(** With every result decorated, [Rip] can return the error of
    [gitProcessor.Run]. *)
Lemma Rip_run_error_completes outs e :
  ¬ is_left_early st0 → run_error stg repoDir o = Some e →
  decorated stg (default_opts o) (ripper st0) (run_results stg repoDir o) outs →
  ∃ st, Rip_reaches stg s repoDir o st ∧ main st = MReturned (Some e) ∧
        res_sent st = concat outs ∧ res_closed st = 1 ∧ crashed st = None.
Proof.
  unfold run_error, run_results. intros Hne Hret Hdec.
  eexists. split; [|split; [|split; [|split]]]; cycle 1.
  5: { unfold Rip_reaches, Rip_steps. rewrite (Rip_start_started Hne), Hret.
       eexists. eapply steps_trans.
       - rewrite <- (app_nil_r (process_Run _ _).1). by apply run_prefix.
       - apply run_to_error. }
  all: done.
Qed.

(** When [codeInfoFiles] fails on a result, [Rip] never returns nil,
    and the worker can reach the [panic(err)]: the program is ended
    with the sink still open. *)
Lemma Rip_decorate_error pre outs r1 rest e :
  ¬ is_left_early st0 →
  run_results stg repoDir o = pre ++ r1 :: rest →
  decorated stg (default_opts o) (ripper st0) pre outs →
  codeInfoFiles stg (ripper st0) r1 (default_opts o) = Err e →
  (∀ st, Rip_reaches stg s repoDir o st → main st ≠ MReturned None) ∧
  ∃ st, Rip_reaches stg s repoDir o st ∧ crashed st = Some (PanicErr e) ∧
        res_closed st = 0 ∧ res_sent st = concat outs ∧
        main st = MRun rest (run_error stg repoDir o).
Proof.
  unfold run_error, run_results. intros Hne Hres Hdec Herr. split.
  - intros st Hr Hm. destruct (Rip_returned_nil_sink _ Hr Hm) as (outs' & Hd & _).
    rewrite Hres in Hd. apply Forall2_app_inv_l in Hd as (? & ? & _ & Hd & _).
    inversion Hd; subst. congruence.
  - eexists. split; [|split; [|split; [|split]]]; cycle 1.
    5: { unfold Rip_reaches, Rip_steps. rewrite (Rip_start_started Hne), Hres.
         eexists. eapply steps_trans.
         - by apply run_prefix.
         - by apply run_to_panic. }
    all: done.
Qed.

(** When the pipeline starts, its Ripper is the one [getCommitInfo]
    left, and [getCommitInfo] gave no error. *)
Lemma Rip_start_ripper :
  ¬ is_left_early st0 →
  ∃ s2, getCommitInfo stg s2 repoDir (default_opts o) = (ripper st0, None).
Proof.
  unfold is_left_early.
  rip_start_cases stg s repoDir o; simpl; intros Hne;
    try (exfalso; apply Hne; done); eauto.
Qed.

End RipFacts.

(** * The facade's contract *)

(** C4.  On every call of [Rip] the result channel is closed exactly
    once before [Rip] returns, on every exit path: whatever state a
    call can be in, [close(res)] has run once if [Rip] has been left
    (by [return nil], by [return err] or by a panic) and not at all
    before. *)
Theorem Rip_closes_sink_exactly_once {Graph Branches Result Timing : Type}
    (stg : Stages Graph Branches Result Timing) (s : Ripper Graph Branches Timing)
    (repoDir : string) (o : option RipOpts) (st : state Graph Branches Result Timing) :
  Rip_reaches stg s repoDir o st →
  closed_once st ∧
  (∀ err, main st = MReturned err → res_closed st = 1) ∧
  (res_closed st ≤ 1)%nat.
Proof.
  intros Hr. pose proof (Rip_reaches_closed_once _ _ _ _ _ Hr) as Hc.
  split; [done|]. unfold closed_once in Hc. split.
  - intros err Hm. by rewrite Hm in Hc.
  - destruct (main st); lia.
Qed.

Lemma Rip_closes_sink_exactly_once_witness :
  let st := Rip (demo.stages demo.FailRun) MainFirst 30 New "repo" None in
  main st = MReturned (Some (Errorf "run")) ∧
  crashed st = Some PanicSendOnClosedChannel ∧
  closed_once st ∧
  (∀ err, main st = MReturned err → res_closed st = 1) ∧
  (res_closed st ≤ 1)%nat.
Proof.
  split; [reflexivity|]. split; [reflexivity|].
  apply (Rip_closes_sink_exactly_once (demo.stages demo.FailRun) New "repo" None).
  apply Rip_exec_reaches.
Defined.

(** C10.  [RipSlice] returns exactly the sequence of records that its
    call of [Rip] delivered to the channel, in order, and the error
    that call returned; and whatever a call of [Rip] delivers and
    returns, [RipSlice] can return. *)
Theorem RipSlice_returns_what_Rip_delivers {Graph Branches Result Timing : Type}
    (stg : Stages Graph Branches Result Timing) (s : Ripper Graph Branches Timing)
    (repoDir : string) (o : option RipOpts) :
  (∀ σ l err,
     RipSlice_reaches stg s repoDir o σ → slice_returned σ = Some (l, err) →
     Rip_reaches stg s repoDir o (rip σ) ∧
     res_sent (rip σ) = l ∧ main (rip σ) = MReturned err) ∧
  (∀ st err,
     Rip_reaches stg s repoDir o st → main st = MReturned err → crashed st = None →
     ∃ σ, RipSlice_reaches stg s repoDir o σ ∧
          slice_returned σ = Some (res_sent st, err)).
Proof.
  split.
  - intros σ l err Hr Hret.
    pose proof (slice_inv_reachable _ _ _ _ _ Hr (RipSlice_start_inv stg s repoDir o))
      as [_ _ Hinv].
    destruct (Hinv l err Hret) as (-> & Hm & _).
    split; [|done]. by apply slice_reachable_inner in Hr.
  - intros st err [tr Htr] Hm Hcr.
    pose proof (steps_sent _ _ _ _ _ _ Htr) as Hsent.
    rewrite Rip_start_sent_nil in Hsent. simpl in Hsent.
    assert (res_closed st ≠ 0) as Hcl.
    { pose proof (Rip_reaches_closed_once stg s repoDir o st (ex_intro _ tr Htr)) as Hc.
      unfold closed_once in Hc. rewrite Hm in Hc. lia. }
    eexists. split.
    + unfold RipSlice_reaches, slice_reachable.
      eapply rtc_trans; [apply (steps_slice _ _ _ _ _ _ [] None Htr)|].
      eapply rtc_l; [by apply slice_range_ends|].
      eapply rtc_l; [by eapply slice_return|]. apply rtc_refl.
    + simpl. by rewrite Hsent.
Qed.

Lemma RipSlice_returns_what_Rip_delivers_witness :
  let stg := demo.stages demo.NoFailure in
  RipSlice stg WorkerFirst 30 New "repo" None =
    Some ([demo.record "c1" "a.go"; demo.record "c1" "b.go";
           demo.record "c2" "a.go"; demo.record "c2" "b.go"], None) ∧
  ∃ σ, RipSlice_reaches stg New "repo" None σ ∧
       slice_returned σ =
         Some (res_sent (Rip stg WorkerFirst 30 New "repo" None), None).
Proof.
  split; [reflexivity|].
  apply (proj2 (RipSlice_returns_what_Rip_delivers
                  (demo.stages demo.NoFailure) New "repo" None)).
  - apply Rip_exec_reaches.
  - reflexivity.
  - reflexivity.
Defined.

(** C2, as the code has it.  An error of the pre-flight
    ([gitexec.Prepare]), of the parents graph ([Read]), of the branch
    pass ([branches.Run]) or of the history processor
    ([gitProcessor.Run]) is fatal and is the error [Rip] returns, with
    the sink closed exactly once.  An error of the commit-metadata
    retrieval ([getCommitInfo]) leaves [Rip] by [panic(err)], after the
    deferred close of the sink and with nothing sent; an error of the
    decoration of an emission ([codeInfoFiles]) is a [panic(err)] in
    the worker goroutine, which ends the run with the sink open, and
    [Rip] does not return nil. *)
Theorem Rip_error_paths {Graph Branches Result Timing : Type}
    (stg : Stages Graph Branches Result Timing) (s : Ripper Graph Branches Timing)
    (repoDir : string) (o : option RipOpts) :
  (∀ e st, check_returns stg s repoDir o e → Rip_reaches stg s repoDir o st →
     main st = MReturned (Some e) ∧ res_sent st = [] ∧ res_closed st = 1 ∧
     crashed st = None) ∧
  (∀ e, checks_pass stg s repoDir o → run_error stg repoDir o = Some e →
     (∀ st err, Rip_reaches stg s repoDir o st → main st = MReturned err →
        err = Some e ∧ res_closed st = 1) ∧
     (∀ outs, decorated stg (default_opts o) (after_commit_info stg s repoDir o).1
                (run_results stg repoDir o) outs →
        ∃ st, Rip_reaches stg s repoDir o st ∧ main st = MReturned (Some e) ∧
              res_sent st = concat outs ∧ res_closed st = 1 ∧ crashed st = None)) ∧
  (∀ e st, check_panics stg s repoDir o e → Rip_reaches stg s repoDir o st →
     main st = MPanicked (PanicErr e) ∧ res_sent st = [] ∧ res_closed st = 1 ∧
     crashed st = None) ∧
  (∀ pre outs r1 rest e, checks_pass stg s repoDir o →
     run_results stg repoDir o = pre ++ r1 :: rest →
     decorated stg (default_opts o) (after_commit_info stg s repoDir o).1 pre outs →
     codeInfoFiles stg (after_commit_info stg s repoDir o).1 r1 (default_opts o) = Err e →
     (∀ st, Rip_reaches stg s repoDir o st → main st ≠ MReturned None) ∧
     ∃ st, Rip_reaches stg s repoDir o st ∧ crashed st = Some (PanicErr e) ∧
           res_closed st = 0 ∧ res_sent st = concat outs ∧
           main st = MRun rest (run_error stg repoDir o)).
Proof.
  split; [|split; [|split]].
  - intros e st Hc Hr.
    assert (Rip_start stg s repoDir o = left_early (ripper (Rip_start stg s repoDir o))
                                                   (MReturned (Some e))) as Heq.
    { destruct Hc as [H|[[H1 H2]|(H1 & H2 & H3)]].
      - by rewrite (Rip_start_Prepare_error _ _ _ _ _ H).
      - by rewrite (Rip_start_Read_error _ _ _ _ _ H1 H2).
      - by rewrite (Rip_start_branches_error _ _ _ _ _ H1 H2 H3). }
    rewrite (left_early_reaches stg s repoDir o st); [by rewrite Heq| |done].
    rewrite Heq. by repeat split.
  - intros e (H1 & H2 & H3 & H4) Hret.
    destruct (Rip_start_passes _ _ _ _ H1 H2 H3 H4) as [Hne Hrp]. split.
    + intros st err Hr Hm.
      destruct (Rip_run_error_returned _ _ _ _ _ _ Hne Hr Hm) as [-> ?].
      by rewrite Hret.
    + intros outs Hdec. rewrite <- Hrp in Hdec.
      by eapply Rip_run_error_completes.
  - intros e st (H1 & H2 & H3 & H4) Hr.
    pose proof (Rip_start_commit_info_error _ _ _ _ _ H1 H2 H3 H4) as Heq.
    rewrite (left_early_reaches stg s repoDir o st); [by rewrite Heq| |done].
    rewrite Heq. by repeat split.
  - intros pre outs r1 rest e (H1 & H2 & H3 & H4) Hres Hdec Herr.
    destruct (Rip_start_passes _ _ _ _ H1 H2 H3 H4) as [Hne Hrp].
    rewrite <- Hrp in Hdec, Herr. by eapply Rip_decorate_error.
Qed.

Lemma Rip_error_paths_witness :
  let stg := demo.stages demo.FailBranches in
  let st := Rip stg WorkerFirst 30 New "repo" (Some demo.all_branches) in
  check_returns stg New "repo" (Some demo.all_branches) (Errorf "branches") ∧
  main st = MReturned (Some (Errorf "branches")) ∧ res_sent st = [] ∧
  res_closed st = 1 ∧ crashed st = None.
Proof.
  assert (check_returns (demo.stages demo.FailBranches) New "repo"
            (Some demo.all_branches) (Errorf "branches")) as Hc
      by (right; right; repeat split; reflexivity).
  split; [exact Hc|].
  apply (proj1 (Rip_error_paths (demo.stages demo.FailBranches) New "repo"
                  (Some demo.all_branches)) _ _ Hc).
  apply Rip_exec_reaches.
Defined.

(** C2 as stated fails on the code: an error of [getCommitInfo] is met
    and no state of the call is a return, the call is left by a panic;
    an error of [codeInfoFiles] is met and the call never returns, the
    run can end in the worker's panic with the sink open. *)
Lemma Rip_error_not_returned :
  (let stg := demo.stages demo.FailCommitInfo in
   check_panics stg New "repo" None (Errorf "commit info") ∧
   main (Rip stg WorkerFirst 30 New "repo" None) = MPanicked (PanicErr (Errorf "commit info")) ∧
   ∀ st err, Rip_reaches stg New "repo" None st → main st ≠ MReturned err) ∧
  (let stg := demo.stages demo.FailDecorate in
   let st := Rip stg WorkerFirst 30 New "repo" None in
   codeInfoFiles stg New "c2" (default_opts None) = Err (Errorf "code info") ∧
   crashed st = Some (PanicErr (Errorf "code info")) ∧ res_closed st = 0 ∧
   ∀ st' err, Rip_reaches stg New "repo" None st' → main st' ≠ MReturned err).
Proof.
  split.
  - assert (check_panics (demo.stages demo.FailCommitInfo) New "repo" None
              (Errorf "commit info")) as Hc by (repeat split; reflexivity).
    split; [exact Hc|]. split; [reflexivity|].
    intros st err Hr Hm. destruct Hc as (H1 & H2 & H3 & H4).
    pose proof (Rip_start_commit_info_error _ _ _ _ _ H1 H2 H3 H4) as Heq.
    rewrite (left_early_reaches (demo.stages demo.FailCommitInfo) New "repo" None st)
      in Hm; [by rewrite Heq in Hm| |done].
    rewrite Heq. by repeat split.
  - split; [reflexivity|]. split; [reflexivity|]. split; [reflexivity|].
    intros st' err Hr Hm.
    assert (checks_pass (demo.stages demo.FailDecorate) New "repo" None) as Hc
        by (repeat split; reflexivity).
    destruct Hc as (H1 & H2 & H3 & H4).
    destruct (Rip_start_passes _ _ _ _ H1 H2 H3 H4) as [Hne _].
    destruct (Rip_run_error_returned _ _ _ _ _ _ Hne Hr Hm) as [-> _].
    revert Hm. change (run_error (demo.stages demo.FailDecorate) "repo" None)
      with (@None error).
    eapply (Rip_decorate_error (demo.stages demo.FailDecorate) New "repo" None
              ["c1"] [[demo.record "c1" "a.go"; demo.record "c1" "b.go"]]
              "c2" [] (Errorf "code info")); try done.
    repeat constructor.
Qed.

(** * Directory discovery *)

Section DiscoveryFacts.
Import ripcmd.
Variable os_Stat : string → stat_result.
Variable ioutil_ReadDir : string → res (list FileInfo).
Variable filepath_Abs : string → res string.
Variable filepath_Join : string → string → string.
Variable git_rev_parse_HEAD : string → string.
Variable Rip_call : string → RipOpts → list BlameResult * option error.
Variable opts : Opts.

Local Abbreviation runOnDirs' :=
  (runOnDirs os_Stat ioutil_ReadDir filepath_Abs filepath_Join git_rev_parse_HEAD
             Rip_call opts).
Local Abbreviation run' := (run git_rev_parse_HEAD Rip_call opts).
Local Abbreviation is_repository' := (is_repository os_Stat filepath_Abs filepath_Join).
Local Abbreviation subdirs' := (subdirs ioutil_ReadDir filepath_Join).
Local Abbreviation discovered' :=
  (discovered os_Stat ioutil_ReadDir filepath_Abs filepath_Join).

Lemma dirContainsDir_has_subdir dir sub b :
  dirContainsDir os_Stat filepath_Join dir sub = Ok b →
  has_subdir os_Stat filepath_Join dir sub = b.
Proof.
  unfold dirContainsDir, has_subdir.
  destruct (os_Stat _) as [[|]|[|] text]; intros; simplify_eq; done.
Qed.

Lemma run_started dir : started (run' dir) = [dir] ∧ rerr (run' dir) = None.
Proof.
  unfold run. destruct (runOnRepo _ _ _ _) as [entries [e|]]; [|done].
  destruct (decide (e = errRevParseFailed)); done.
Qed.

Lemma range_subs_started (rec : string → dirs_result) (f : string → list string)
    dir subs acc :
  (∀ d, rerr (rec d) = None → started (rec d) = f d) →
  rerr acc = None →
  rerr (range_subs filepath_Join rec dir subs acc) = None →
  started (range_subs filepath_Join rec dir subs acc) =
    started acc ++
    flat_map f (map (λ sub, filepath_Join dir (Name sub))
                    (filter (λ sub, IsDir sub = true) subs)).
Proof.
  intros Hrec. revert acc.
  induction subs as [|sub rest IH]; intros acc Hacc Hr; simpl in *.
  - by rewrite app_nil_r.
  - destruct (IsDir sub) eqn:Hd; simpl in *.
    + rewrite filter_cons_True by done. simpl.
      destruct (rerr (rec (filepath_Join dir (Name sub)))) eqn:Hsub.
      * simpl in Hr. congruence.
      * rewrite IH; [|done..]. simpl. rewrite (Hrec _ Hsub). by rewrite <- app_assoc.
    + rewrite filter_cons_False by (rewrite Hd; done). by apply IH.
Qed.

Lemma descend_started n dir :
  (∀ d, rerr (runOnDirs' n d) = None → started (runOnDirs' n d) = discovered' n d) →
  rerr (descend ioutil_ReadDir filepath_Join (Some (runOnDirs' n)) dir) = None →
  started (descend ioutil_ReadDir filepath_Join (Some (runOnDirs' n)) dir) =
    flat_map (discovered' n) (subdirs' dir).
Proof.
  unfold descend, subdirs. intros Hrec.
  destruct (ioutil_ReadDir dir) as [subs|e]; [|done].
  intros Hr. by rewrite (range_subs_started _ _ dir subs nothing Hrec eq_refl Hr).
Qed.

(** Without an I/O error, [runOnDirs] calls [runOnRepo] on exactly the
    directories [discovered] lists, in that order. *)
Lemma runOnDirs_started n dir :
  rerr (runOnDirs' n dir) = None → started (runOnDirs' n dir) = discovered' n dir.
Proof.
  revert dir. induction n as [|n IH]; intros dir.
  - simpl. unfold is_repository, named_dot_git.
    destruct (os_Stat dir) as [[|]|]; try done.
    destruct (dirContainsDir _ _ dir ".git") as [[|]|] eqn:Hgit; try done;
      apply dirContainsDir_has_subdir in Hgit; rewrite Hgit; simpl.
    { intros _. apply run_started. }
    destruct (filepath_Abs dir) as [loc|]; [|done].
    destruct (decide (Ext loc = ".git")) as [Hext|Hext].
    + rewrite bool_decide_eq_true_2 by done. simpl.
      destruct (dirContainsDir _ _ dir "objects") as [[|]|] eqn:Hobj; try done;
        apply dirContainsDir_has_subdir in Hobj; rewrite Hobj; simpl; [|done].
      intros _. apply run_started.
    + rewrite bool_decide_eq_false_2 by done. done.
  - simpl. unfold is_repository, named_dot_git.
    destruct (os_Stat dir) as [[|]|]; try done.
    destruct (dirContainsDir _ _ dir ".git") as [[|]|] eqn:Hgit; try done;
      apply dirContainsDir_has_subdir in Hgit; rewrite Hgit; simpl.
    { intros _. apply run_started. }
    destruct (filepath_Abs dir) as [loc|]; [|done].
    destruct (decide (Ext loc = ".git")) as [Hext|Hext].
    + rewrite bool_decide_eq_true_2 by done. simpl.
      destruct (dirContainsDir _ _ dir "objects") as [[|]|] eqn:Hobj; try done;
        apply dirContainsDir_has_subdir in Hobj; rewrite Hobj; simpl.
      * intros _. apply run_started.
      * by apply descend_started.
    + rewrite bool_decide_eq_false_2 by done. simpl. by apply descend_started.
Qed.

End DiscoveryFacts.

(** ** [filepath.Ext] and names ending in [.git] *)

Lemma string_of_list_ascii_app (l1 l2 : list ascii) :
  string_of_list_ascii (l1 ++ l2) =
  (string_of_list_ascii l1 ++ string_of_list_ascii l2)%string.
Proof. induction l1 as [|c l1 IH]; simpl; [done|by rewrite IH]. Qed.

Lemma list_ascii_of_string_app (s1 s2 : string) :
  list_ascii_of_string (s1 ++ s2)%string =
  list_ascii_of_string s1 ++ list_ascii_of_string s2.
Proof. induction s1 as [|c s1 IH]; simpl; [done|by rewrite IH]. Qed.

(** A non-empty result of the scan is the suffix from a dot on. *)
Lemma Ext_scan_dot down seen t :
  ripcmd.Ext_scan down seen = string_of_list_ascii t → t ≠ [] →
  ∃ d1 d2, down = d1 ++ "."%char :: d2 ∧ t = "."%char :: rev d1 ++ seen.
Proof.
  revert seen. induction down as [|c more IH]; intros seen Hs Ht; simpl in Hs.
  - destruct t; [done|discriminate].
  - destruct (ripcmd.IsPathSeparator c); [destruct t; [done|discriminate]|].
    destruct (Ascii.eqb c ".") eqn:Hc.
    + apply Ascii.eqb_eq in Hc. subst c. exists [], more. split; [done|].
      apply (f_equal list_ascii_of_string) in Hs.
      rewrite list_ascii_of_string_of_list_ascii in Hs. simpl in Hs.
      rewrite list_ascii_of_string_of_list_ascii in Hs. by subst t.
    + destruct (IH _ Hs Ht) as (d1 & d2 & -> & ->).
      exists (c :: d1), d2. split; [done|]. simpl. by rewrite <- app_assoc.
Qed.

(** The extension is [.git] exactly when the path ends in [.git]. *)
Lemma Ext_dot_git path :
  ripcmd.Ext path = ".git" ↔ ∃ pre, path = (pre ++ ".git")%string.
Proof.
  unfold ripcmd.Ext. split.
  - intros H.
    destruct (Ext_scan_dot _ [] (list_ascii_of_string ".git") H) as (d1 & d2 & Hd & Ht);
      [done|].
    exists (string_of_list_ascii (rev d2)).
    rewrite <- (string_of_list_ascii_of_string path).
    rewrite <- (rev_involutive (list_ascii_of_string path)), Hd.
    rewrite rev_app_distr. simpl. rewrite <- app_assoc. simpl.
    rewrite string_of_list_ascii_app. f_equal.
    rewrite app_nil_r in Ht. simpl in Ht. injection Ht as Ht.
    change ("." :: rev d1)%char with (["."%char] ++ rev d1). by rewrite <- Ht.
  - intros [pre ->]. rewrite list_ascii_of_string_app, rev_app_distr. done.
Qed.

Lemma flat_map_singleton_filter {A : Type} (P : A → bool) (l : list A) :
  flat_map (λ x, if P x then [x] else []) l = filter (λ x, P x = true) l.
Proof.
  induction l as [|x l IH]; simpl; [done|].
  destruct (P x) eqn:Hp.
  - rewrite filter_cons_True by done. simpl. by rewrite IH.
  - rewrite filter_cons_False by (rewrite Hp; done). done.
Qed.

Lemma is_repository_iff os_Stat filepath_Abs filepath_Join d :
  ripcmd.is_repository os_Stat filepath_Abs filepath_Join d = true ↔
  ripcmd.has_subdir os_Stat filepath_Join d ".git" = true ∨
  ((∃ pre, filepath_Abs d = Ok (pre ++ ".git")%string) ∧
   ripcmd.has_subdir os_Stat filepath_Join d "objects" = true).
Proof.
  unfold ripcmd.is_repository, ripcmd.named_dot_git.
  rewrite orb_true_iff, andb_true_iff.
  destruct (filepath_Abs d) as [loc|e].
  - rewrite bool_decide_eq_true, Ext_dot_git. split.
    + intros [?|[[pre ->] ?]]; eauto.
    + intros [?|[[pre Hpre] ?]]; simplify_eq; eauto.
  - split.
    + intros [?|[? ?]]; [by left|done].
    + intros [?|[[pre ?] ?]]; [by left|done].
Qed.

(** C9.  Directory discovery, when no I/O call fails: a directory is
    processed as a repository iff it contains a [.git] subdirectory, or
    its name ends in [.git] and it contains an [objects] subdirectory;
    from the directory given to [Run], that directory alone is
    processed when it is a repository, and otherwise exactly those of
    its immediate subdirectories that are repositories, in listing
    order, and nothing deeper. *)
Theorem runOnDirs_discovery
    (os_Stat : string → ripcmd.stat_result)
    (ioutil_ReadDir : string → res (list ripcmd.FileInfo))
    (filepath_Abs : string → res string)
    (filepath_Join : string → string → string)
    (git_rev_parse_HEAD : string → string)
    (Rip_call : string → RipOpts → list BlameResult * option error)
    (opts : ripcmd.Opts) :
  let is_repo := ripcmd.is_repository os_Stat filepath_Abs filepath_Join in
  let result := ripcmd.Run os_Stat ioutil_ReadDir filepath_Abs filepath_Join
                           git_rev_parse_HEAD Rip_call opts in
  ripcmd.rerr result = None →
  ripcmd.started result =
    (if is_repo (ripcmd.Dir opts) then [ripcmd.Dir opts]
     else filter (λ sub, is_repo sub = true)
                 (ripcmd.subdirs ioutil_ReadDir filepath_Join (ripcmd.Dir opts))) ∧
  ∀ d, is_repo d = true ↔
       ripcmd.has_subdir os_Stat filepath_Join d ".git" = true ∨
       ((∃ pre, filepath_Abs d = Ok (pre ++ ".git")%string) ∧
        ripcmd.has_subdir os_Stat filepath_Join d "objects" = true).
Proof.
  intros is_repo result Hr. split; [|intros d; apply is_repository_iff].
  unfold result, ripcmd.Run in *. rewrite (runOnDirs_started _ _ _ _ _ _ _ _ _ Hr).
  simpl. fold is_repo. destruct (is_repo (ripcmd.Dir opts)); [done|].
  apply flat_map_singleton_filter.
Qed.

Lemma runOnDirs_discovery_witness :
  let result := ripcmd.Run demo.os_Stat demo.ioutil_ReadDir demo.filepath_Abs
                           demo.filepath_Join demo.git_rev_parse_HEAD demo.Rip_call
                           demo.cmd_opts in
  ripcmd.rerr result = None ∧
  ripcmd.started result = ["/w/a"; "/w/b.git"] ∧
  ripcmd.stats result =
    {| ripcmd.Repos := 2; ripcmd.SkippedEmptyRepos := 1; ripcmd.Entries := 1 |}.
Proof.
  split; [reflexivity|]. split; [|reflexivity].
  etransitivity;
    [apply (runOnDirs_discovery demo.os_Stat demo.ioutil_ReadDir demo.filepath_Abs
              demo.filepath_Join demo.git_rev_parse_HEAD demo.Rip_call demo.cmd_opts);
     reflexivity|].
  reflexivity.
Defined.

(** * The stages of the specification behind the facade *)

Section EngineFacts.
Import commitmeta.
Context {Raw Patch : Type}.
Variable parse : Raw → res Commit.
Variable patch : Raw → string → Patch.
Variable plus_lines : Patch → list string.
Variable apply_hunks : Commit → list BlameLine → Patch → option (list BlameLine).
Variable classifyLine : string → string → process.Classification.

Local Abbreviation run' := (process.run parse patch plus_lines apply_hunks classifyLine).
Local Abbreviation commits' := (process.commits parse).

Lemma apply_change_emission c raw others T pc T' em :
  process.apply_change patch plus_lines apply_hunks classifyLine c raw others T pc
    = Ok (T', em) →
  emission_of pc em.
Proof.
  unfold process.apply_change, emission_of.
  destruct (Binary pc.2); [intros; simplify_eq; done|].
  destruct (Status pc.2) eqn:Hs;
    repeat match goal with
           | |- context [apply_hunks ?a ?b ?c] => destruct (apply_hunks a b c)
           end;
    intros; simplify_eq; simpl; rewrite ?Hs; done.
Qed.

Lemma apply_changes_emissions c raw others T files T' ems :
  process.apply_changes patch plus_lines apply_hunks classifyLine c raw others T files
    = Ok (T', ems) →
  Forall2 emission_of files ems.
Proof.
  revert T T' ems. induction files as [|pc rest IH]; intros T T' ems; simpl.
  - intros; simplify_eq. constructor.
  - destruct (process.apply_change _ _ _ _ _ _ _ _ _) as [[T1 em]|] eqn:H1; [|done].
    destruct (process.apply_changes _ _ _ _ _ _ _ _ _) as [[T2 ems']|] eqn:H2; [|done].
    intros; simplify_eq. constructor; eauto using apply_change_emission.
Qed.

(** What the engine sends are the results of a prefix of the commits
    of the stream, in order, and of all of them when it returns nil. *)
Lemma run_results_of treeAt stream results err :
  run' treeAt stream = (results, err) →
  ∃ cs, cs `prefix_of` commits' stream ∧ Forall2 result_of cs results ∧
        (err = None → cs = commits' stream ∧ length cs = length stream).
Proof.
  revert treeAt results err.
  induction stream as [|raw rest IH]; intros treeAt results err; simpl.
  - intros; simplify_eq. exists []. by repeat split; try constructor.
  - destruct (parse raw) as [c|e].
    2: { intros; simplify_eq. exists []. split; [done|]. split; [constructor|done]. }
    destruct (process.apply_changes _ _ _ _ _ _ _ _ _) as [[T ems]|e] eqn:Hc.
    2: { intros; simplify_eq. exists []. split; [apply prefix_nil|].
         split; [constructor|done]. }
    destruct (run' _ rest) as [results' err'] eqn:Hrun.
    intros; simplify_eq.
    destruct (IH _ _ _ Hrun) as (cs & Hpre & Hres & Hall).
    exists (c :: cs). split; [by apply prefix_cons|]. split.
    + constructor; [|done]. split; [done|]. simpl.
      by eapply apply_changes_emissions.
    + intros Hn. destruct (Hall Hn) as [-> Hlen]. split; [done|]. simpl. by rewrite Hlen.
Qed.

End EngineFacts.

Section CommitInfoFacts.
Import commitmeta.
Context {Raw Branches : Type}.
Variable parse : Raw → res Commit.
Variable branches_of : Branches → string → list string.

Lemma commit_info_keyed all b stream m m' err :
  codeinfo.commit_info parse branches_of all b stream m = (m', err) →
  keyed_by_sha m → keyed_by_sha m'.
Proof.
  revert m. induction stream as [|raw rest IH]; intros m; simpl.
  - intros; by simplify_eq.
  - destruct (parse raw) as [c|e]; [|intros; by simplify_eq].
    intros H Hm. apply (IH _ H). intros k c' Hk.
    destruct (decide (SHA c = k)) as [<-|Hne].
    + rewrite lookup_insert_eq in Hk. by simplify_eq.
    + rewrite lookup_insert_ne in Hk by done. by apply Hm.
Qed.

Lemma commit_info_present all b stream m m' :
  codeinfo.commit_info parse branches_of all b stream m = (m', None) →
  (∀ k, is_Some (m !! k) → is_Some (m' !! k)) ∧
  (∀ c, c ∈ process.commits parse stream → is_Some (m' !! SHA c)) ∧
  length (process.commits parse stream) = length stream.
Proof.
  revert m. induction stream as [|raw rest IH]; intros m; simpl.
  - intros; simplify_eq. split; [done|]. split; [|done]. intros c Hc. by inversion Hc.
  - destruct (parse raw) as [c|e]; [|done].
    intros H. destruct (IH _ H) as (Hmono & Hin & Hlen).
    split; [|split].
    + intros k Hk. apply Hmono.
      destruct (decide (SHA c = k)) as [<-|Hne].
      * rewrite lookup_insert_eq. by eexists.
      * by rewrite lookup_insert_ne.
    + intros c' Hc'. apply elem_of_cons in Hc' as [->|Hc']; [|by apply Hin].
      apply Hmono. rewrite lookup_insert_eq. by eexists.
    + simpl. by rewrite Hlen.
Qed.

End CommitInfoFacts.

Section SpecStagesFacts.
Import commitmeta.
Context {Raw Patch Graph Branches Timing : Type}.
Variable parse : Raw → res Commit.
Variable patch : Raw → string → Patch.
Variable plus_lines : Patch → list string.
Variable apply_hunks : Commit → list BlameLine → Patch → option (list BlameLine).
Variable classifyLine : string → string → process.Classification.
Variable fileinfo_of : string → string → codeinfo.Info.
Variable branches_of : Branches → string → list string.
Variable parentsgraph_Read : string → bool → Graph * option error.
Variable branches_Run : string → Graph → Branches * option error.
Variable timing : processOpts → Timing.
Variable git : string → gitexec.Repo Raw.

Local Abbreviation stg :=
  (codeinfo.stages parse patch plus_lines apply_hunks classifyLine fileinfo_of
                   branches_of parentsgraph_Read branches_Run timing git).
Local Abbreviation commits' := (process.commits parse).
Local Abbreviation stream' := (codeinfo.stream git).

Lemma decorate_record c c' pc em :
  SHA c' = SHA c → emission_of pc em →
  record_of c pc (codeinfo.decorate fileinfo_of c' em).
Proof.
  intros Hsha (Hp & Hs & Hl). unfold record_of, codeinfo.decorate.
  destruct (process.FileLines em) eqn:Hlines; simpl; repeat split; try done;
    intros Hr; specialize (Hl Hr); congruence.
Qed.

Lemma entries_keys (cs : list Commit) :
  map (λ e : Commit * (string * CommitFile), (SHA e.1, e.2.1)) (entries cs) =
  emission_keys cs.
Proof.
  unfold entries, emission_keys. induction cs as [|c cs IH]; simpl; [done|].
  rewrite map_app, IH. f_equal. rewrite map_map. done.
Qed.

Lemma records_keys es (rs : list BlameResult) :
  Forall2 record_of_entry es rs →
  map key rs = map (λ e : Commit * (string * CommitFile), (SHA e.1, e.2.1)) es.
Proof.
  induction 1 as [|e r es rs (Hs & Hf & _) _ IH]; simpl; [done|].
  rewrite IH. unfold key. by rewrite Hs, Hf.
Qed.

(** The records decorated for the results of commits are the records
    of the entries of these commits. *)
Lemma decorated_records opts (rp : Ripper Graph Branches Timing) cs results outs :
  keyed_by_sha (commitMeta rp) →
  (∀ c, c ∈ cs → is_Some (commitMeta rp !! SHA c)) →
  Forall2 result_of cs results →
  decorated stg opts rp results outs →
  Forall2 record_of_entry (entries cs) (concat outs).
Proof.
  intros Hkey Hin Hres. revert outs.
  induction Hres as [|c r1 cs results [Hc Hems] _ IH]; intros outs Hdec.
  - inversion Hdec; subst. constructor.
  - inversion Hdec as [|? rs ? outs' Hd Hdec']; subst. simpl in *.
    apply Forall2_app.
    + unfold codeinfo.codeInfoFiles in Hd. simplify_eq.
      destruct (Hin c) as [c' Hc']; [by left|].
      rewrite Hc, Hc'. simpl. apply Hkey in Hc'.
      clear -Hems Hc'. induction Hems; simpl; constructor; [|done].
      by apply decorate_record.
    + apply IH; [|done]. intros c' Hc'. apply Hin. by right.
Qed.

(** The decoration of any result succeeds. *)
Lemma decorated_exists opts (rp : Ripper Graph Branches Timing) results :
  ∃ outs, decorated stg opts rp results outs.
Proof.
  induction results as [|r1 results [outs IH]].
  - exists []. constructor.
  - eexists (_ :: outs). constructor; [reflexivity|done].
Qed.

Section Call.
Variable s : Ripper Graph Branches Timing.
Variable repoDir : string.
Variable o : option RipOpts.

Local Abbreviation st0 := (Rip_start stg s repoDir o).

(** When the pipeline starts, the metadata of every commit of the
    stream is at hand, and no record of the stream is malformed. *)
Lemma spec_start_metadata :
  ¬ is_left_early st0 →
  keyed_by_sha (commitMeta (ripper st0)) ∧
  (∀ c, c ∈ commits' (stream' repoDir o) → is_Some (commitMeta (ripper st0) !! SHA c)) ∧
  length (commits' (stream' repoDir o)) = length (stream' repoDir o).
Proof.
  intros Hne. destruct (Rip_start_ripper _ _ _ _ Hne) as [s2 Hinfo].
  simpl in Hinfo. unfold codeinfo.getCommitInfo in Hinfo.
  destruct (codeinfo.commit_info _ _ _ _ _ _) as [m err] eqn:Hci.
  injection Hinfo as Hrp ->. rewrite <- Hrp. simpl.
  split; [|by apply (commit_info_present _ _ _ _ _ _ _ Hci)].
  eapply commit_info_keyed; [exact Hci|]. intros k c Hk. by rewrite lookup_empty in Hk.
Qed.

(** The sink of a call holds, at any time, the records of a prefix of
    the entries of the commits of the stream, and all of them once
    [Rip] has returned nil. *)
Lemma spec_sink_records st :
  Rip_reaches stg s repoDir o st →
  ∃ es, es `prefix_of` entries (commits' (stream' repoDir o)) ∧
        Forall2 record_of_entry es (res_sent st) ∧
        (main st = MReturned None → es = entries (commits' (stream' repoDir o))).
Proof.
  intros Hr. destruct (Rip_reaches_cases _ _ _ _ _ Hr) as [[Hl ->]|[Hne Hinv]].
  - exists []. rewrite Rip_start_sent_nil. split; [apply prefix_nil|].
    split; [constructor|]. intros Hm. destruct Hl as (_ & _ & _ & _ & Hmm).
    by rewrite Hm in Hmm.
  - destruct (spec_start_metadata Hne) as (Hkey & Hin & Hlen).
    destruct (process.run parse patch plus_lines apply_hunks classifyLine ∅
                (stream' repoDir o)) as [results err] eqn:Hrun.
    destruct (run_results_of _ _ _ _ _ _ _ _ _ Hrun) as (cs & Hpre & Hres & Hall).
    change (process_Run stg (process_opts repoDir (default_opts o))) with
      (process.run parse patch plus_lines apply_hunks classifyLine ∅ (stream' repoDir o))
      in Hinv.
    rewrite Hrun in Hinv. simpl in Hinv.
    assert (∀ c, c ∈ cs → is_Some (commitMeta (ripper st0) !! SHA c)) as Hin'.
    { intros c Hc. apply Hin. destruct Hpre as [k ->]. apply elem_of_app. by left. }
    destruct (pipeline_inv_prefix _ _ _ _ _ Hinv)
      as (processed & outs & rest & Hsplit & Hdec & Hsent).
    subst results. apply Forall2_app_inv_r in Hres as (cs1 & cs2 & Hres1 & Hres2 & ->).
    assert (Forall2 record_of_entry (entries cs1) (concat outs)) as Hrec.
    { eapply decorated_records; [done| |done|done].
      intros c Hc. apply Hin'. apply elem_of_app. by left. }
    destruct Hsent as [more Hmore].
    rewrite Hmore in Hrec. apply Forall2_app_inv_r in Hrec as (es1 & es2 & Hes1 & _ & Hes).
    exists es1. split; [|split; [done|]].
    + destruct Hpre as [k Hk]. rewrite Hk. unfold entries in *.
      rewrite <- app_assoc, !flat_map_app, Hes, <- app_assoc. by eexists.
    + intros Hm.
      destruct (pipeline_inv_returned _ _ _ _ _ Hinv Hm) as (outs' & Hdec' & Hsent').
      pose proof (Rip_reaches_ret_agree _ _ _ _ _ Hne Hr) as Hret.
      unfold ret_agree in Hret. rewrite Hm in Hret.
      change (process_Run stg (process_opts repoDir (default_opts o))) with
        (process.run parse patch plus_lines apply_hunks classifyLine ∅ (stream' repoDir o))
        in Hret.
      rewrite Hrun in Hret. simpl in Hret. symmetry in Hret.
      destruct (Hall Hret) as [Hcs _].
      assert (Forall2 result_of (cs1 ++ cs2) (processed ++ rest)) as Hres
          by by apply Forall2_app.
      pose proof (decorated_records _ _ _ _ _ Hkey Hin' Hres Hdec') as Hrec'.
      rewrite <- Hsent' in Hrec'. rewrite <- Hcs.
      eapply Forall2_length in Hrec' as Hl1. eapply Forall2_length in Hes1 as Hl2.
      assert (length es1 = length (entries (cs1 ++ cs2))) as Hlen' by lia.
      destruct Hpre as [k Hk].
      assert (es1 `prefix_of` entries (cs1 ++ cs2)) as [more' Hmore'].
      { unfold entries in *. rewrite flat_map_app, Hes, <- app_assoc. by eexists. }
      rewrite Hmore' in Hlen'. rewrite length_app in Hlen'.
      destruct more'; [by rewrite app_nil_r in Hmore'|simpl in Hlen'; lia].
Qed.

End Call.
End SpecStagesFacts.

(** ** Lists of keys *)

Lemma NoDup_emission_keys (cs : list commitmeta.Commit) :
  NoDup (map commitmeta.SHA cs) →
  (∀ c, c ∈ cs → NoDup (map fst (commitmeta.Files c))) →
  NoDup (emission_keys cs).
Proof.
  unfold emission_keys. induction cs as [|c cs IH]; simpl; intros Hs Hf.
  - constructor.
  - apply NoDup_cons in Hs as [Hc Hs]. apply NoDup_app. split; [|split].
    + assert (NoDup (map fst (commitmeta.Files c))) as Hn by (apply Hf; by left).
      revert Hn. generalize (commitmeta.Files c). intros files.
      induction files as [|pc files IHf]; simpl; intros Hn; [constructor|].
      apply NoDup_cons in Hn as [Hpc Hn]. apply NoDup_cons. split; [|by apply IHf].
      intros Hin. apply Hpc. apply list_elem_of_fmap in Hin as (pc' & Heq & Hin).
      apply list_elem_of_fmap. exists pc'. split; [congruence|done].
    + intros k Hk1 Hk2. apply Hc.
      apply list_elem_of_fmap in Hk1 as (pc & -> & _).
      apply list_elem_of_In, in_flat_map in Hk2 as (c' & Hc' & Hk).
      apply list_elem_of_In, list_elem_of_fmap in Hk as (pc' & Heq & _).
      apply list_elem_of_fmap. exists c'. split; [congruence|by apply list_elem_of_In].
    + apply IH; [done|]. intros c' Hc'. apply Hf. by right.
Qed.

Lemma filter_none {A : Type} (P : A → Prop) `{∀ x, Decision (P x)} (l : list A) :
  (∀ x, x ∈ l → ¬ P x) → filter P l = [].
Proof.
  induction l as [|y l IH]; intros Hl; [done|].
  rewrite filter_cons_False by (apply Hl; by left).
  apply IH. intros x Hx. apply Hl. by right.
Qed.

Lemma filter_key_singleton {A B : Type} `{EqDecision B} (f : A → B) (l : list A) i x :
  NoDup (map f l) → l !! i = Some x →
  filter (λ y, f y = f x) l = [x].
Proof.
  revert i. induction l as [|y l IH]; intros i Hn Hi; [done|].
  simpl in Hn. apply NoDup_cons in Hn as [Hy Hn]. destruct i as [|i]; simpl in Hi.
  - simplify_eq. rewrite filter_cons_True by done. f_equal.
    apply filter_none. intros z Hz Heq. apply Hy.
    apply list_elem_of_fmap. exists z. split; [congruence|done].
  - rewrite filter_cons_False; [by eapply IH|].
    intros Heq. apply Hy. apply list_elem_of_fmap. exists x. split; [done|].
    by eapply list_elem_of_lookup_2.
Qed.

Lemma entries_elem (cs : list commitmeta.Commit) c pc :
  c ∈ cs → pc ∈ commitmeta.Files c → (c, pc) ∈ entries cs.
Proof.
  intros Hc Hpc. unfold entries. apply list_elem_of_In, in_flat_map.
  exists c. split; [by apply list_elem_of_In|].
  apply list_elem_of_In, list_elem_of_fmap. by exists pc.
Qed.

(** ** Order *)

Lemma compress_block (x : string) (m : nat) (rest : list string) :
  (∀ y, y ∈ rest → y ≠ x) →
  compress (replicate (S m) x ++ rest) = x :: compress rest.
Proof.
  intros Hrest. induction m as [|m IH]; simpl.
  - destruct rest as [|y rest']; [done|].
    assert (x ≠ y) as Hne by (intros ->; by apply (Hrest y); [left|]).
    apply String.eqb_neq in Hne. by rewrite Hne.
  - simpl in IH. rewrite String.eqb_refl. exact IH.
Qed.

Lemma compress_blocks (cs : list commitmeta.Commit) :
  NoDup (map commitmeta.SHA cs) →
  compress (flat_map (λ c, replicate (length (commitmeta.Files c)) (commitmeta.SHA c)) cs) =
  map commitmeta.SHA (filter (λ c, touches_files c = true) cs).
Proof.
  induction cs as [|c cs IH]; intros Hn; [done|].
  simpl in Hn. apply NoDup_cons in Hn as [Hc Hn]. cbn [flat_map].
  destruct (commitmeta.Files c) as [|pc files] eqn:Hf.
  - rewrite filter_cons_False by (unfold touches_files; rewrite Hf; done). by apply IH.
  - rewrite filter_cons_True by (unfold touches_files; by rewrite Hf).
    cbn [length map]. rewrite <- IH by done.
    apply compress_block. intros y Hy ->. apply Hc.
    apply list_elem_of_In, in_flat_map in Hy as (c' & Hc' & Hy).
    apply list_elem_of_In, elem_of_replicate in Hy as [Hy _].
    apply list_elem_of_fmap. exists c'. split; [done|by apply list_elem_of_In].
Qed.

Lemma emission_keys_shas (cs : list commitmeta.Commit) :
  map fst (emission_keys cs) =
  flat_map (λ c, replicate (length (commitmeta.Files c)) (commitmeta.SHA c)) cs.
Proof.
  unfold emission_keys. induction cs as [|c cs IH]; simpl; [done|].
  rewrite map_app, IH. f_equal. rewrite map_map. simpl.
  generalize (commitmeta.Files c). intros files.
  induction files as [|pc files IHf]; simpl; [done|by rewrite IHf].
Qed.

(** Elements in order in a filtered list are in order in the list. *)
Lemma filter_order {A : Type} (P : A → Prop) `{∀ x, Decision (P x)}
    (l : list A) i j a b :
  filter P l !! i = Some a → filter P l !! j = Some b → i < j →
  ∃ i' j', l !! i' = Some a ∧ l !! j' = Some b ∧ i' < j'.
Proof.
  revert i j. induction l as [|x l IH]; intros i j Hi Hj Hlt; [done|].
  destruct (decide (P x)) as [Hp|Hp].
  - rewrite filter_cons_True in Hi, Hj by done.
    destruct j as [|j]; [lia|]. destruct i as [|i]; simpl in *.
    + simplify_eq. apply list_elem_of_lookup_2, list_elem_of_filter in Hj as [_ Hb].
      apply list_elem_of_lookup in Hb as [j' Hj']. exists 0, (S j'). repeat split; [done|lia].
    + destruct (IH i j Hi Hj) as (i' & j' & ? & ? & ?); [lia|].
      exists (S i'), (S j'). repeat split; [done..|lia].
  - rewrite filter_cons_False in Hi, Hj by done.
    destruct (IH i j Hi Hj Hlt) as (i' & j' & ? & ? & ?).
    exists (S i'), (S j'). repeat split; [done..|lia].
Qed.

Lemma NoDup_map_filter {A B : Type} (f : A → B) (P : A → Prop) `{∀ x, Decision (P x)}
    (l : list A) :
  NoDup (map f l) → NoDup (map f (filter P l)).
Proof.
  induction l as [|x l IH]; simpl; intros Hn; [constructor|].
  apply NoDup_cons in Hn as [Hx Hn]. destruct (decide (P x)).
  - rewrite filter_cons_True by done. simpl. apply NoDup_cons. split; [|by apply IH].
    intros Hin. apply Hx. apply list_elem_of_fmap in Hin as (y & -> & Hy).
    apply list_elem_of_filter in Hy as [_ Hy]. apply list_elem_of_fmap. by exists y.
  - rewrite filter_cons_False by done. by apply IH.
Qed.

(** In a stream listed parents first, an ancestor comes before its
    descendants. *)
Lemma parents_first_ancestors (cs : list commitmeta.Commit) a b i j :
  NoDup (map commitmeta.SHA cs) → parents_first cs → ancestor_in cs a b →
  map commitmeta.SHA cs !! i = Some a → map commitmeta.SHA cs !! j = Some b → i < j.
Proof.
  intros Hn Hpf Hanc. revert i j.
  induction Hanc as [a b Hp|a y b Hp _ IH]; intros i j Hi Hj.
  - destruct Hp as (cb & Hcb & Hb & Ha & _).
    apply list_elem_of_lookup in Hcb as [j' Hj'].
    assert (map commitmeta.SHA cs !! j' = Some b) as Hj''
        by (rewrite list_lookup_fmap, Hj'; simpl; by rewrite Hb).
    assert (j' = j) as -> by by eapply NoDup_lookup.
    rewrite list_lookup_fmap in Hi.
    destruct (cs !! i) as [ca|] eqn:Hca; [|done]. simpl in Hi. simplify_eq.
    by eapply Hpf.
  - destruct Hp as (cy & Hcy & Hy & Ha & _).
    apply list_elem_of_lookup in Hcy as [k Hk].
    assert (map commitmeta.SHA cs !! k = Some y) as Hk'
        by (rewrite list_lookup_fmap, Hk; simpl; by rewrite Hy).
    assert (i < k); [|specialize (IH k j Hk' Hj); lia].
    rewrite list_lookup_fmap in Hi.
    destruct (cs !! i) as [ca|] eqn:Hca; [|done]. simpl in Hi. simplify_eq.
    by eapply Hpf.
Qed.

(** The commits that touch a file, in the order of a stream listed
    parents first, are in a topological order. *)
Lemma touching_topological (cs : list commitmeta.Commit) :
  NoDup (map commitmeta.SHA cs) → parents_first cs →
  topological cs (map commitmeta.SHA (filter (λ c, touches_files c = true) cs)).
Proof.
  intros Hn Hpf. split; [by apply NoDup_map_filter|].
  intros i j a b Hi Hj Hanc.
  destruct (decide (i < j)) as [|Hge]; [done|exfalso].
  rewrite list_lookup_fmap in Hi, Hj.
  destruct (filter _ cs !! i) as [ca|] eqn:Hca; [|done].
  destruct (filter _ cs !! j) as [cb|] eqn:Hcb; [|done].
  simpl in Hi, Hj. simplify_eq.
  assert (∀ k c, cs !! k = Some c →
                 map commitmeta.SHA cs !! k = Some (commitmeta.SHA c)) as Hmap
      by (intros k c Hk; by rewrite list_lookup_fmap, Hk).
  destruct (decide (i = j)) as [->|Hne].
  - simplify_eq.
    apply list_elem_of_lookup_2, list_elem_of_filter in Hca as [_ Hin].
    apply list_elem_of_lookup in Hin as [k Hk].
    pose proof (parents_first_ancestors cs _ _ k k Hn Hpf Hanc (Hmap _ _ Hk) (Hmap _ _ Hk)).
    lia.
  - destruct (filter_order _ cs j i cb ca Hcb Hca) as (j' & i' & Hj' & Hi' & Hlt); [lia|].
    pose proof (parents_first_ancestors cs _ _ i' j' Hn Hpf Hanc
                  (Hmap _ _ Hi') (Hmap _ _ Hj')).
    lia.
Qed.

(** The filenames of the records of one commit, in order. *)
Lemma records_of_commit (cs : list commitmeta.Commit) (sent : list BlameResult) c :
  NoDup (map commitmeta.SHA cs) → c ∈ cs →
  Forall2 record_of_entry (entries cs) sent →
  map Filename
      (filter (λ r, commitmeta.SHA (ripsrc.Commit r) = commitmeta.SHA c) sent) =
  map fst (commitmeta.Files c).
Proof.
  revert sent. induction cs as [|c' cs IH]; intros sent Hn Hc Hrec.
  - by apply elem_of_nil in Hc.
  - simpl in Hn. apply NoDup_cons in Hn as [Hc' Hn].
    unfold entries in Hrec. simpl in Hrec.
    apply Forall2_app_inv_l in Hrec as (sent1 & sent2 & Hrec1 & Hrec2 & ->).
    rewrite filter_app, map_app.
    assert (∀ r, r ∈ sent1 → commitmeta.SHA (ripsrc.Commit r) = commitmeta.SHA c') as Hsha1.
    { intros r Hr. apply list_elem_of_lookup in Hr as [i Hi].
      destruct (Forall2_lookup_r _ _ _ _ _ Hrec1 Hi) as (e & He & Hs & _).
      apply list_elem_of_lookup_2, list_elem_of_fmap in He as (pc & -> & _). done. }
    assert (∀ r, r ∈ sent2 → commitmeta.SHA (ripsrc.Commit r) ∈ map commitmeta.SHA cs)
      as Hsha2.
    { intros r Hr. apply list_elem_of_lookup in Hr as [i Hi].
      destruct (Forall2_lookup_r _ _ _ _ _ Hrec2 Hi) as (e & He & Hs & _).
      apply list_elem_of_lookup_2, list_elem_of_In, in_flat_map in He as (c2 & Hc2 & He).
      apply list_elem_of_In, list_elem_of_fmap in He as (pc & -> & _).
      rewrite Hs. apply list_elem_of_fmap. exists c2. split; [done|by apply list_elem_of_In]. }
    apply elem_of_cons in Hc as [->|Hc].
    + rewrite (filter_none _ sent2), app_nil_r.
      2: { intros r Hr Heq. apply Hc'. rewrite <- Heq. by apply Hsha2. }
      assert (filter (λ r, commitmeta.SHA (ripsrc.Commit r) = commitmeta.SHA c') sent1 = sent1)
        as ->.
      { clear -Hsha1. induction sent1 as [|r sent1 IHs]; [done|].
        rewrite filter_cons_True by (apply Hsha1; by left).
        f_equal. apply IHs. intros r' Hr'. apply Hsha1. by right. }
      clear -Hrec1. revert sent1 Hrec1. generalize (commitmeta.Files c').
      intros files. induction files as [|pc files IHf]; intros sent1 Hrec1;
        inversion Hrec1 as [|? r ? sent1' (_ & Hf & _) Hrest]; subst; simpl; [done|].
      rewrite Hf. f_equal. by apply IHf.
    + rewrite (filter_none _ sent1); [by apply IH|].
      intros r Hr Heq. apply Hc'. rewrite <- (Hsha1 r Hr), Heq.
      apply list_elem_of_fmap. by exists c.
Qed.

(** * The stream of records, with the stages of the specification *)

Section SpecClaims.
Import commitmeta.
Context {Raw Patch Graph Branches Timing : Type}.
Variable parse : Raw → res Commit.
Variable patch : Raw → string → Patch.
Variable plus_lines : Patch → list string.
Variable apply_hunks : Commit → list BlameLine → Patch → option (list BlameLine).
Variable classifyLine : string → string → process.Classification.
Variable fileinfo_of : string → string → codeinfo.Info.
Variable branches_of : Branches → string → list string.
Variable parentsgraph_Read : string → bool → Graph * option error.
Variable branches_Run : string → Graph → Branches * option error.
Variable timing : processOpts → Timing.
Variable git : string → gitexec.Repo Raw.

Local Abbreviation stg :=
  (codeinfo.stages parse patch plus_lines apply_hunks classifyLine fileinfo_of
                   branches_of parentsgraph_Read branches_Run timing git).

(** A call whose checks pass and whose engine returns nil can run to
    its [return nil]. *)
Lemma spec_completes (s : Ripper Graph Branches Timing) repoDir o :
  checks_pass stg s repoDir o → run_error stg repoDir o = None →
  ∃ st, Rip_reaches stg s repoDir o st ∧ main st = MReturned None ∧
        res_closed st = 1 ∧ crashed st = None.
Proof.
  intros (H1 & H2 & H3 & H4) Hret.
  destruct (Rip_start_passes _ _ _ _ H1 H2 H3 H4) as [Hne _].
  destruct (decorated_exists parse patch plus_lines apply_hunks classifyLine fileinfo_of
              branches_of parentsgraph_Read branches_Run timing git (default_opts o)
              (ripper (Rip_start stg s repoDir o))
              (run_results stg repoDir o)) as [outs Hdec].
  destruct (Rip_completes _ _ _ _ outs Hne Hret Hdec) as (st & ? & ? & ? & ? & ?).
  by exists st.
Qed.

(** C8.  Within one call of [Rip], with the stages of the
    specification, on a stream that lists each commit once and each
    path of a commit once, no two records delivered to the sink share
    their [(sha, filename)], at any time of the call. *)
Theorem Rip_no_record_twice (s : Ripper Graph Branches Timing) (repoDir : string)
    (o : option RipOpts) (st : state Graph Branches process.Result Timing) :
  let cs := process.commits parse (codeinfo.stream git repoDir o) in
  NoDup (map SHA cs) →
  (∀ c, c ∈ cs → NoDup (map fst (Files c))) →
  Rip_reaches stg s repoDir o st →
  NoDup (map key (res_sent st)).
Proof.
  intros cs Hshas Hpaths Hr.
  destruct (spec_sink_records _ _ _ _ _ _ _ _ _ _ _ _ _ _ _ Hr) as (es & [more Hpre] & Hrec & _).
  rewrite (records_keys _ _ Hrec).
  pose proof (NoDup_emission_keys cs Hshas Hpaths) as Hn.
  rewrite <- entries_keys in Hn. fold cs in Hpre. rewrite Hpre, map_app in Hn.
  by apply NoDup_app in Hn as [? _].
Qed.

(** C1.  With the stages of the specification, on a stream that lists
    each commit once and each path of a commit once: when [Rip] has
    returned nil, for every commit of the stream and every path of its
    files map exactly one record with that sha and that filename is in
    the sink, and it is the record of that entry, with no lines for a
    removed file; and a call whose checks pass and whose engine returns
    nil does run to [return nil]. *)
Theorem Rip_one_record_per_file (s : Ripper Graph Branches Timing) (repoDir : string)
    (o : option RipOpts) :
  let cs := process.commits parse (codeinfo.stream git repoDir o) in
  NoDup (map SHA cs) →
  (∀ c, c ∈ cs → NoDup (map fst (Files c))) →
  (∀ st c pc,
     Rip_reaches stg s repoDir o st → main st = MReturned None →
     c ∈ cs → pc ∈ Files c →
     ∃ r, filter (λ r', key r' = (SHA c, pc.1)) (res_sent st) = [r] ∧
          record_of c pc r) ∧
  (checks_pass stg s repoDir o → run_error stg repoDir o = None →
   ∃ st, Rip_reaches stg s repoDir o st ∧ main st = MReturned None).
Proof.
  intros cs Hshas Hpaths. split.
  - intros st c pc Hr Hm Hc Hpc.
    destruct (spec_sink_records _ _ _ _ _ _ _ _ _ _ _ _ _ _ _ Hr) as (es & Hpre & Hrec & Hall).
    rewrite (Hall Hm) in Hrec. fold cs in Hrec.
    pose proof (entries_elem cs c pc Hc Hpc) as He.
    apply list_elem_of_lookup in He as [i Hi].
    destruct (Forall2_lookup_l _ _ _ _ _ Hrec Hi) as (r & Hri & Hro).
    exists r. split; [|done].
    assert (key r = (SHA c, pc.1)) as Hk
        by (destruct Hro as (Hs & Hf & _); unfold key; by rewrite Hs, Hf).
    rewrite <- Hk. eapply filter_key_singleton; [|done].
    rewrite (records_keys _ _ Hrec), entries_keys.
    by apply NoDup_emission_keys.
  - intros Hc Hret. destruct (spec_completes s repoDir o Hc Hret) as (st & ? & ? & _).
    by exists st.
Qed.

(** C7.  With the pre-flight of the specification: on a repository
    without a resolvable head ([git rev-parse HEAD] does not print a
    commit id) [Rip] returns [ErrNoHeadCommit] from the pre-flight,
    before any record is sent, with the sink closed; and the command
    ([runOnRepo]) stops on such a repository before it calls [Rip],
    with no entry and its own error for the failed [rev-parse]. *)
Theorem Rip_no_head_commit (s : Ripper Graph Branches Timing) (repoDir : string)
    (o : option RipOpts) :
  let rev_parse := λ dir, gitexec.rev_parse_HEAD (git dir) in
  ripcmd.hasHeadCommit rev_parse repoDir = false →
  (∀ st, Rip_reaches stg s repoDir o st →
     main st = MReturned (Some ErrNoHeadCommit) ∧ res_sent st = [] ∧
     res_closed st = 1 ∧ crashed st = None) ∧
  (∀ Rip_call opts,
     ripcmd.runOnRepo rev_parse Rip_call opts repoDir = (0%Z, Some errRevParseFailed)).
Proof.
  intros rev_parse Hhead. split.
  - intros st Hr.
    assert (gitexec_Prepare stg repoDir = Some ErrNoHeadCommit) as Hp.
    { simpl. unfold gitexec.Prepare. unfold ripcmd.hasHeadCommit, rev_parse in Hhead.
      by rewrite Hhead. }
    pose proof (Rip_start_Prepare_error _ s repoDir o _ Hp) as Heq.
    rewrite (left_early_reaches stg s repoDir o st); [by rewrite Heq| |done].
    rewrite Heq. by repeat split.
  - intros Rip_call opts. unfold ripcmd.runOnRepo. by rewrite Hhead.
Qed.

(** C5.  With the stages of the specification, on a stream that lists
    each commit once and parents first (a topological order, oldest
    first): when [Rip] has returned nil, the shas of the records in the
    sink, consecutive duplicates compressed, are the shas of the
    commits of the stream that touch a file, in the order of the
    stream, which is a topological order of the parents graph: no
    commit comes before one of its ancestors; the records of one
    commit carry its filenames in the order of its files map; and the
    sink is in the order of the engine's emissions: the decoration
    keeps it. *)
Theorem Rip_sends_in_topological_order (s : Ripper Graph Branches Timing)
    (repoDir : string) (o : option RipOpts)
    (st : state Graph Branches process.Result Timing) :
  let cs := process.commits parse (codeinfo.stream git repoDir o) in
  let shas := compress (map (λ r, SHA (ripsrc.Commit r)) (res_sent st)) in
  NoDup (map SHA cs) → parents_first cs →
  Rip_reaches stg s repoDir o st → main st = MReturned None →
  shas = map SHA (filter (λ c, touches_files c = true) cs) ∧
  topological cs shas ∧
  (∀ c, c ∈ cs →
        map Filename (filter (λ r, SHA (ripsrc.Commit r) = SHA c) (res_sent st)) =
        map fst (Files c)) ∧
  map key (res_sent st) = emission_keys cs.
Proof.
  intros cs shas Hn Hpf Hr Hm.
  destruct (spec_sink_records _ _ _ _ _ _ _ _ _ _ _ _ _ _ _ Hr) as (es & _ & Hrec & Hall).
  rewrite (Hall Hm) in Hrec. fold cs in Hrec.
  assert (map key (res_sent st) = emission_keys cs) as Hkeys
      by by rewrite (records_keys _ _ Hrec), entries_keys.
  assert (shas = map SHA (filter (λ c, touches_files c = true) cs)) as Hshas.
  { unfold shas. rewrite <- (compress_blocks cs Hn), <- emission_keys_shas, <- Hkeys.
    by rewrite map_map. }
  split; [done|]. split; [|split; [|done]].
  - rewrite Hshas. by apply touching_topological.
  - intros c Hc. by apply (records_of_commit cs).
Qed.

End SpecClaims.

Lemma demo_shas_NoDup head :
  NoDup (map commitmeta.SHA
           (process.commits (Ok : commitmeta.Commit → res commitmeta.Commit)
              (codeinfo.stream (λ _, demo.repo head) "repo" None))).
Proof. compute_done. Qed.

Lemma demo_paths_NoDup head c :
  c ∈ process.commits (Ok : commitmeta.Commit → res commitmeta.Commit)
        (codeinfo.stream (λ _, demo.repo head) "repo" None) →
  NoDup (map fst (commitmeta.Files c)).
Proof.
  intros Hc. change (c ∈ [demo.c1; demo.c2; demo.c3]) in Hc.
  repeat (apply elem_of_cons in Hc as [->|Hc]; [compute_done|]).
  by apply elem_of_nil in Hc.
Qed.

Lemma Rip_no_record_twice_witness :
  let st := Rip (demo.spec_stages demo.a_head) MainFirst 7 New "repo" None in
  map key (res_sent st) = [("c1", "a.go"); ("c1", "b.go")] ∧
  NoDup (map key (res_sent st)).
Proof.
  split; [reflexivity|].
  apply (Rip_no_record_twice (Raw := commitmeta.Commit) (Patch := unit)
           Ok (λ _ _, tt) (λ _, ["package main"]) (λ _ old _, Some old)
           (λ _ _, process.IsCode) (λ _ _, demo.no_info) (λ _ _, [])
           (λ _ _, (tt, None)) (λ _ _, (tt, None)) (λ _, tt) (λ _, demo.repo demo.a_head)
           New "repo" None).
  - apply demo_shas_NoDup.
  - apply demo_paths_NoDup.
  - apply Rip_exec_reaches.
Defined.

Lemma Rip_one_record_per_file_witness :
  let st := Rip (demo.spec_stages demo.a_head) WorkerFirst 50 New "repo" None in
  main st = MReturned None ∧
  map key (res_sent st) =
    [("c1", "a.go"); ("c1", "b.go"); ("c2", "a.go"); ("c2", "b.go")] ∧
  ∃ r, filter (λ r', key r' = ("c2", "b.go")) (res_sent st) = [r] ∧
       record_of demo.c2 ("b.go", demo.change commitmeta.GitFileCommitStatusRemoved) r.
Proof.
  split; [reflexivity|]. split; [reflexivity|].
  apply (proj1 (Rip_one_record_per_file (Raw := commitmeta.Commit) (Patch := unit)
           Ok (λ _ _, tt) (λ _, ["package main"]) (λ _ old _, Some old)
           (λ _ _, process.IsCode) (λ _ _, demo.no_info) (λ _ _, [])
           (λ _ _, (tt, None)) (λ _ _, (tt, None)) (λ _, tt) (λ _, demo.repo demo.a_head)
           New "repo" None (demo_shas_NoDup demo.a_head) (demo_paths_NoDup demo.a_head))
         _ demo.c2 ("b.go", demo.change commitmeta.GitFileCommitStatusRemoved)).
  - apply Rip_exec_reaches.
  - reflexivity.
  - change (demo.c2 ∈ [demo.c1; demo.c2; demo.c3]). right. left.
  - right. left.
Defined.

Lemma Rip_no_head_commit_witness :
  let st := Rip (demo.spec_stages "") WorkerFirst 50 New "repo" None in
  ripcmd.hasHeadCommit (λ _, "") "repo" = false ∧
  main st = MReturned (Some ErrNoHeadCommit) ∧ res_sent st = [] ∧
  res_closed st = 1 ∧ crashed st = None.
Proof.
  split; [reflexivity|].
  apply (proj1 (Rip_no_head_commit (Raw := commitmeta.Commit) (Patch := unit)
           Ok (λ _ _, tt) (λ _, ["package main"]) (λ _ old _, Some old)
           (λ _ _, process.IsCode) (λ _ _, demo.no_info) (λ _ _, [])
           (λ _ _, (tt, None)) (λ _ _, (tt, None)) (λ _, tt) (λ _, demo.repo "")
           New "repo" None eq_refl)).
  apply Rip_exec_reaches.
Defined.

Lemma demo_parents_first head :
  parents_first (process.commits (Ok : commitmeta.Commit → res commitmeta.Commit)
                   (codeinfo.stream (λ _, demo.repo head) "repo" None)).
Proof.
  change (parents_first [demo.c1; demo.c2; demo.c3]).
  intros i j ca cb Hi Hj Hp.
  destruct i as [|[|[|i]]]; destruct j as [|[|[|j]]]; simpl in *; simplify_eq;
    try lia; exfalso;
    repeat (apply elem_of_cons in Hp as [Hp|Hp]; [discriminate|]);
    by apply elem_of_nil in Hp.
Qed.

Lemma Rip_sends_in_topological_order_witness :
  let st := Rip (demo.spec_stages demo.a_head) WorkerFirst 50 New "repo" None in
  let shas := compress (map (λ r, commitmeta.SHA (ripsrc.Commit r)) (res_sent st)) in
  main st = MReturned None ∧ shas = ["c1"; "c2"] ∧
  topological [demo.c1; demo.c2; demo.c3] shas ∧
  map key (res_sent st) =
    [("c1", "a.go"); ("c1", "b.go"); ("c2", "a.go"); ("c2", "b.go")].
Proof.
  split; [reflexivity|]. split; [reflexivity|].
  pose proof (Rip_sends_in_topological_order (Raw := commitmeta.Commit) (Patch := unit)
           Ok (λ _ _, tt) (λ _, ["package main"]) (λ _ old _, Some old)
           (λ _ _, process.IsCode) (λ _ _, demo.no_info) (λ _ _, [])
           (λ _ _, (tt, None)) (λ _ _, (tt, None)) (λ _, tt) (λ _, demo.repo demo.a_head)
           New "repo" None _ (demo_shas_NoDup demo.a_head)
           (demo_parents_first demo.a_head)
           (Rip_exec_reaches _ New "repo" None WorkerFirst 50) eq_refl)
    as (_ & Htopo & _ & Hkeys).
  split; [exact Htopo|exact Hkeys].
Defined.

(** * Further properties of the facade and of the command *)

(** [Rip] forwards every record of every result once and in order:
    when it has returned nil, the sink is the concatenation, in the
    order [gitProcessor.Run] sent the results, of the record lists
    [codeInfoFiles] gave for them; and when the checks pass, [Run]
    returns nil and every result is decorated, [Rip] does run to this
    [return nil]. *)
Theorem Rip_forwards_every_record_in_order {Graph Branches Result Timing : Type}
    (stg : Stages Graph Branches Result Timing) (s : Ripper Graph Branches Timing)
    (repoDir : string) (o : option RipOpts) :
  checks_pass stg s repoDir o →
  (∀ st, Rip_reaches stg s repoDir o st → main st = MReturned None →
     ∃ outs, decorated stg (default_opts o) (after_commit_info stg s repoDir o).1
               (run_results stg repoDir o) outs ∧
             res_sent st = concat outs) ∧
  (∀ outs, run_error stg repoDir o = None →
     decorated stg (default_opts o) (after_commit_info stg s repoDir o).1
       (run_results stg repoDir o) outs →
     ∃ st, Rip_reaches stg s repoDir o st ∧ main st = MReturned None ∧
           res_sent st = concat outs ∧ res_closed st = 1 ∧ crashed st = None).
Proof.
  intros (H1 & H2 & H3 & H4).
  destruct (Rip_start_passes _ _ _ _ H1 H2 H3 H4) as [Hne Hrp]. rewrite <- Hrp. split.
  - intros st Hr Hm. by apply Rip_returned_nil_sink.
  - intros outs Hret Hdec. by apply Rip_completes.
Qed.

Lemma Rip_forwards_every_record_in_order_witness :
  let stg := demo.stages demo.NoFailure in
  ∃ outs, decorated stg (default_opts None) (after_commit_info stg New "repo" None).1
            (run_results stg "repo" None) outs ∧
          res_sent (Rip stg WorkerFirst 30 New "repo" None) = concat outs.
Proof.
  apply (proj1 (Rip_forwards_every_record_in_order (demo.stages demo.NoFailure)
                  New "repo" None ltac:(repeat split; reflexivity))).
  - apply Rip_exec_reaches.
  - reflexivity.
Defined.

(** The end of a failed run is a race: when [gitProcessor.Run] returns
    an error after it has handed over its last result, [Rip] can return
    that error and close the sink before the worker has sent the
    records of that result; the worker's send is then on the closed
    channel and panics. *)
Theorem Rip_can_close_before_last_send {Graph Branches Result Timing : Type}
    (stg : Stages Graph Branches Result Timing) (s : Ripper Graph Branches Timing)
    (repoDir : string) (o : option RipOpts) pre outs r1 r rs e :
  checks_pass stg s repoDir o →
  run_results stg repoDir o = pre ++ [r1] →
  run_error stg repoDir o = Some e →
  decorated stg (default_opts o) (after_commit_info stg s repoDir o).1 pre outs →
  codeInfoFiles stg (after_commit_info stg s repoDir o).1 r1 (default_opts o)
    = Ok (r :: rs) →
  ∃ st, Rip_reaches stg s repoDir o st ∧ main st = MReturned (Some e) ∧
        res_closed st = 1 ∧ res_sent st = concat outs ∧
        crashed st = Some PanicSendOnClosedChannel.
Proof.
  unfold run_results, run_error. intros (H1 & H2 & H3 & H4) Hres Hret Hdec Hd.
  destruct (Rip_start_passes _ _ _ _ H1 H2 H3 H4) as [Hne Hrp].
  rewrite <- Hrp in Hdec, Hd.
  eexists. split; [|split; [|split; [|split]]]; cycle 1.
  5: { unfold Rip_reaches, Rip_steps. rewrite (Rip_start_started _ _ _ _ Hne), Hres, Hret.
       eexists. eapply steps_trans.
       - by apply run_prefix.
       - by eapply run_to_send_on_closed. }
  all: done.
Qed.

Lemma Rip_can_close_before_last_send_witness :
  let stg := demo.stages demo.FailRun in
  let st := Rip stg MainFirst 30 New "repo" None in
  main st = MReturned (Some (Errorf "run")) ∧
  crashed st = Some PanicSendOnClosedChannel ∧
  ∃ st', Rip_reaches stg New "repo" None st' ∧ main st' = MReturned (Some (Errorf "run")) ∧
         res_closed st' = 1 ∧
         res_sent st' = [demo.record "c1" "a.go"; demo.record "c1" "b.go"] ∧
         crashed st' = Some PanicSendOnClosedChannel.
Proof.
  split; [reflexivity|]. split; [reflexivity|].
  apply (Rip_can_close_before_last_send (demo.stages demo.FailRun) New "repo" None
           ["c1"] [[demo.record "c1" "a.go"; demo.record "c1" "b.go"]] "c2"
           (demo.record "c2" "a.go") [demo.record "c2" "b.go"] (Errorf "run")).
  - repeat split; reflexivity.
  - reflexivity.
  - reflexivity.
  - repeat constructor.
  - reflexivity.
Defined.




(** * The facade, further: the scheduler, the close and the worker *)

Section FacadeMore.
Context {Graph Branches Result Timing : Type}.
Variable stg : Stages Graph Branches Result Timing.
Variable opts : RipOpts.
Variable popts : processOpts.

Local Abbreviation St := (state Graph Branches Result Timing).
Local Abbreviation step' := (step stg opts popts).
Local Abbreviation steps' := (steps stg opts popts).



(** Once the sink is closed nothing is delivered any more. *)
Lemma steps_after_close (s s' : St) tr :
  steps' s tr s' → res_closed s ≠ 0 →
  tr = [] ∧ res_sent s' = res_sent s ∧ res_closed s' ≠ 0.
Proof.
  induction 1 as [s|s s1 s' tr Hs _ IH|s r s1 s' tr Hs _ IH]; intros Hcl.
  - done.
  - destruct (step_left_stable _ _ _ _ _ _ Hs) as [_ Hst].
    destruct (Hst Hcl) as [Hcl1 Hsent].
    destruct (IH Hcl1) as (-> & -> & ?). done.
  - apply step_send_open in Hs. lia.
Qed.

Lemma send_closed_inv_step (s s' : St) l :
  send_closed_inv s → step' s l s' → send_closed_inv s'.
Proof.
  unfold send_closed_inv. intros Hi Hs.
  destruct Hs as [s r1 rest ret Hc Hm Hw|s r1 rs Hc Hw Hd|s r1 e Hc Hw Hd
                 |s r rs Hc Hw Hcl|s r rs Hc Hw Hcl|s Hc Hw|s ret Hc Hm
                 |s Hc Hw Hg|s Hc Hm Hw]; simpl; try congruence.
  - intros _. eauto.
  - destruct ret; simpl; congruence.
Qed.

Lemma send_closed_inv_steps (s s' : St) tr :
  steps' s tr s' → send_closed_inv s → send_closed_inv s'.
Proof. apply steps_invariant. intros ? l ? ? ?. by eapply send_closed_inv_step. Qed.



(** The worker leaves through [done <- true], which needs [Rip] at
    [<-done]: that is, [gitProcessor.Run] returned nil. *)
Lemma worker_stays_step (s s' : St) l e :
  ret_agree (Some e) s → worker s ≠ WExited → step' s l s' → worker s' ≠ WExited.
Proof.
  unfold ret_agree. intros Hr Hw Hs.
  destruct Hs as [s r1 rest ret Hc Hm Hw'|s r1 rs Hc Hw' Hd|s r1 e' Hc Hw' Hd
                 |s r rs Hc Hw' Hcl|s r rs Hc Hw' Hcl|s Hc Hw'|s ret Hc Hm
                 |s Hc Hw' Hg|s Hc Hm Hw']; simpl; try done.
  - by destruct ret.
  - by rewrite Hm in Hr.
Qed.

Lemma worker_stays_steps (s s' : St) tr e :
  steps' s tr s' → ret_agree (Some e) s → worker s ≠ WExited → worker s' ≠ WExited.
Proof.
  induction 1 as [s|s s1 s' tr Hs _ IH|s r s1 s' tr Hs _ IH]; intros Hr Hw; [done|..];
    (apply IH; [by eapply ret_agree_step|by eapply worker_stays_step]).
Qed.

End FacadeMore.

Section SliceMore.
Context {Graph Branches Result Timing : Type}.
Variable stg : Stages Graph Branches Result Timing.
Variable opts : RipOpts.
Variable popts : processOpts.

Local Abbreviation Sl := (slice_state Graph Branches Result Timing).

(** The scheduler of [RipSlice] takes steps of [RipSlice]. *)
Lemma slice_next_sound p (σ σ' : Sl) :
  slice_next stg opts popts p σ = Some σ' → slice_step stg opts popts σ σ'.
Proof.
  unfold slice_next.
  destruct (next stg opts popts p (rip σ)) as [[[|r] s']|] eqn:Hn.
  - intros; simplify_eq. apply slice_inner. by eapply next_sound.
  - destruct (collector σ) eqn:Hc; intros; simplify_eq.
    apply slice_recv; [by eapply next_sound|done].
  - destruct (crashed (rip σ)) eqn:Hcr; [done|].
    destruct (collector σ) eqn:Hc; [| |done].
    + destruct (res_closed (rip σ)) eqn:Hcl; intros; simplify_eq.
      apply slice_range_ends; [done..|lia].
    + destruct (main (rip σ)) eqn:Hm; intros; simplify_eq.
      by apply slice_return.
Qed.

Lemma slice_exec_reachable p fuel (σ : Sl) :
  slice_reachable stg opts popts σ (slice_exec stg opts popts p fuel σ).
Proof.
  revert σ. induction fuel as [|n IH]; intros σ; simpl; [apply rtc_refl|].
  destruct (slice_next stg opts popts p σ) as [σ'|] eqn:Hn; [|apply rtc_refl].
  eapply rtc_l; [by eapply slice_next_sound|apply IH].
Qed.


(** After its last result, [Run] returns an error: [Rip] returns it,
    the worker's loop ends on the closed [gitRes], and its
    [done <- true] finds no receiver. *)
Lemma run_to_blocked rp sent e :
  steps stg opts popts
        {| main := MRun [] (Some e); worker := WRecv; gitRes_closed := false;
           res_sent := sent; res_closed := 0; crashed := None; ripper := rp |}
        []
        {| main := MReturned (Some e); worker := WSendDone; gitRes_closed := true;
           res_sent := sent; res_closed := 1; crashed := None; ripper := rp |}.
Proof.
  eapply steps_tau; [by eapply step_run_returns|].
  eapply steps_tau; [by eapply step_range_ends|].
  constructor.
Qed.

End SliceMore.

(** At every moment of a call, also of one that fails part-way, the
    sink holds a prefix of what decoration gave for a prefix of the
    results of [gitProcessor.Run], in their order: [Rip] delivers no
    record twice, out of order or ahead of an earlier one. *)
Theorem Rip_delivers_a_prefix {Graph Branches Result Timing : Type}
    (stg : Stages Graph Branches Result Timing) (s : Ripper Graph Branches Timing)
    (repoDir : string) (o : option RipOpts) (st : state Graph Branches Result Timing) :
  checks_pass stg s repoDir o → Rip_reaches stg s repoDir o st →
  ∃ processed outs rest,
    run_results stg repoDir o = processed ++ rest ∧
    decorated stg (default_opts o) (after_commit_info stg s repoDir o).1 processed outs ∧
    res_sent st `prefix_of` concat outs.
Proof.
  intros (H1 & H2 & H3 & H4) Hr.
  destruct (Rip_start_passes _ _ _ _ H1 H2 H3 H4) as [Hne Hrp]. rewrite <- Hrp.
  destruct (Rip_reaches_cases _ _ _ _ _ Hr) as [[Hl _]|[_ Hinv]]; [done|].
  by eapply pipeline_inv_prefix.
Qed.

Lemma Rip_delivers_a_prefix_witness :
  let stg := demo.stages demo.FailDecorate in
  let st := Rip stg WorkerFirst 30 New "repo" None in
  crashed st = Some (PanicErr (Errorf "code info")) ∧
  res_sent st = [demo.record "c1" "a.go"; demo.record "c1" "b.go"] ∧
  ∃ processed outs rest,
    run_results stg "repo" None = processed ++ rest ∧
    decorated stg (default_opts None) (after_commit_info stg New "repo" None).1
              processed outs ∧
    res_sent st `prefix_of` concat outs.
Proof.
  split; [reflexivity|]. split; [reflexivity|].
  apply (Rip_delivers_a_prefix (demo.stages demo.FailDecorate) New "repo" None).
  - repeat split; reflexivity.
  - apply Rip_exec_reaches.
Defined.

(** Nothing reaches the sink after [close(res)] has run; and the
    worker sends on the closed sink, and panics, only in a call in
    which [gitProcessor.Run] returned an error and [Rip] has returned
    it: a call in which [Run] returns nil has no such panic. *)
Theorem Rip_sends_on_closed_sink_only_after_Run_error
    {Graph Branches Result Timing : Type}
    (stg : Stages Graph Branches Result Timing) (s : Ripper Graph Branches Timing)
    (repoDir : string) (o : option RipOpts) (st : state Graph Branches Result Timing) :
  Rip_reaches stg s repoDir o st →
  (res_closed st ≠ 0 →
   ∀ tr st', Rip_steps stg repoDir o st tr st' → tr = [] ∧ res_sent st' = res_sent st) ∧
  (crashed st = Some PanicSendOnClosedChannel →
   ∃ e, run_error stg repoDir o = Some e ∧ main st = MReturned (Some e)).
Proof.
  intros Hr. split.
  - intros Hcl tr st' Hs. by destruct (steps_after_close _ _ _ _ _ _ Hs Hcl) as (? & ? & _).
  - intros Hcr.
    destruct (Rip_reaches_cases _ _ _ _ _ Hr) as [[Hl ->]|[Hne Hinv]].
    { by rewrite Rip_start_not_crashed in Hcr. }
    pose proof (Rip_reaches_closed_once _ _ _ _ _ Hr) as Hco.
    pose proof (Rip_reaches_ret_agree _ _ _ _ _ Hne Hr) as Hra.
    assert (send_closed_inv st) as Hsc.
    { destruct Hr as [tr Htr]. eapply send_closed_inv_steps; [exact Htr|].
      intros Hc. by rewrite Rip_start_not_crashed in Hc. }
    destruct (Hsc Hcr) as (Hcl & r & rs & Hw).
    unfold closed_once in Hco. unfold ret_agree in Hra. unfold run_error.
    destruct (main st) as [| |[e|]|] eqn:Hm; try done.
    + exists e. by rewrite <- Hra.
    + destruct Hinv as [_ Hex _ _]. rewrite Hex in Hw; done.
Qed.

Lemma Rip_sends_on_closed_sink_only_after_Run_error_witness :
  let stg := demo.stages demo.FailRun in
  let st := Rip stg MainFirst 30 New "repo" None in
  crashed st = Some PanicSendOnClosedChannel ∧
  ∃ e, run_error stg "repo" None = Some e ∧ main st = MReturned (Some e).
Proof.
  split; [reflexivity|].
  apply (Rip_sends_on_closed_sink_only_after_Run_error
           (demo.stages demo.FailRun) New "repo" None).
  - apply Rip_exec_reaches.
  - reflexivity.
Defined.

(** When [gitProcessor.Run] returns an error the worker goroutine never
    exits: [Rip] returns without receiving from [done], so that, when
    no send panics, the worker ends blocked on its [done <- true]. *)
Theorem Rip_worker_never_exits_after_Run_error {Graph Branches Result Timing : Type}
    (stg : Stages Graph Branches Result Timing) (s : Ripper Graph Branches Timing)
    (repoDir : string) (o : option RipOpts) (e : error) :
  checks_pass stg s repoDir o → run_error stg repoDir o = Some e →
  (∀ st, Rip_reaches stg s repoDir o st → worker st ≠ WExited) ∧
  (∀ outs,
     decorated stg (default_opts o) (after_commit_info stg s repoDir o).1
               (run_results stg repoDir o) outs →
     ∃ st, Rip_reaches stg s repoDir o st ∧ main st = MReturned (Some e) ∧
           worker st = WSendDone ∧ crashed st = None ∧ res_sent st = concat outs ∧
           ∀ l st', ¬ Rip_step stg repoDir o st l st').
Proof.
  unfold run_error, run_results. intros (H1 & H2 & H3 & H4) Hret.
  destruct (Rip_start_passes _ _ _ _ H1 H2 H3 H4) as [Hne Hrp]. rewrite <- Hrp.
  pose proof (Rip_start_started _ _ _ _ Hne) as Hst. split.
  - intros st [tr Htr]. eapply worker_stays_steps; [exact Htr| |].
    + rewrite Hst. unfold ret_agree. simpl. done.
    + by rewrite Hst.
  - intros outs Hdec. eexists. split; [|split; [|split; [|split; [|split]]]]; cycle 1.
    6: { unfold Rip_reaches, Rip_steps. rewrite Hst, Hret.
         eexists. eapply steps_trans.
         - rewrite <- (app_nil_r (process_Run _ _).1). by apply run_prefix.
         - apply run_to_blocked. }
    all: try done.
    intros l st' Hs. inversion Hs; simpl in *; congruence.
Qed.

Lemma Rip_worker_never_exits_after_Run_error_witness :
  let stg := demo.stages demo.FailRun in
  let st := Rip stg WorkerFirst 30 New "repo" None in
  main st = MReturned (Some (Errorf "run")) ∧ worker st = WSendDone ∧
  crashed st = None ∧ worker st ≠ WExited.
Proof.
  split; [reflexivity|]. split; [reflexivity|]. split; [reflexivity|].
  apply (proj1 (Rip_worker_never_exits_after_Run_error
                  (demo.stages demo.FailRun) New "repo" None (Errorf "run")
                  ltac:(repeat split; reflexivity) eq_refl)).
  apply Rip_exec_reaches.
Defined.





(** [RipSlice] when [Rip] is left before its pipeline starts.  When a
    check that returns its error fails, [RipSlice] returns the empty
    slice and that error, under every scheduler and as soon as it has
    fuel for its two steps.  When [getCommitInfo] fails, [Rip] is left
    by its panic and [RipSlice] returns nothing. *)
Theorem RipSlice_when_Rip_is_left_early {Graph Branches Result Timing : Type}
    (stg : Stages Graph Branches Result Timing) (s : Ripper Graph Branches Timing)
    (repoDir : string) (o : option RipOpts) (e : error) :
  (check_returns stg s repoDir o e →
   (∀ σ l err, RipSlice_reaches stg s repoDir o σ → slice_returned σ = Some (l, err) →
               l = [] ∧ err = Some e) ∧
   (∀ p fuel, (2 ≤ fuel)%nat → RipSlice stg p fuel s repoDir o = Some ([], Some e))) ∧
  (check_panics stg s repoDir o e →
   (∀ σ, RipSlice_reaches stg s repoDir o σ → slice_returned σ = None) ∧
   (∀ p fuel, RipSlice stg p fuel s repoDir o = None)).
Proof.
  assert (∀ m, Rip_start stg s repoDir o = left_early (ripper (Rip_start stg s repoDir o)) m →
               match m with MReturned (Some _) | MPanicked _ => True | _ => False end →
               ∀ σ l err, RipSlice_reaches stg s repoDir o σ →
                          slice_returned σ = Some (l, err) →
                          l = [] ∧ m = MReturned err) as Hearly.
  { intros m Heq Hm σ l err Hr Hret.
    pose proof (slice_inv_reachable _ _ _ _ _ Hr (RipSlice_start_inv stg s repoDir o))
      as [_ _ Hinv].
    destruct (Hinv l err Hret) as (-> & Hmain & _).
    apply slice_reachable_inner in Hr. simpl in Hr.
    assert (rip σ = Rip_start stg s repoDir o) as Hrip.
    { apply left_early_reaches; [|done]. rewrite Heq. by repeat split. }
    rewrite Hrip in Hmain |- *. rewrite Heq in Hmain |- *. simpl in *. done. }
  split.
  - intros Hc.
    assert (Rip_start stg s repoDir o = left_early (ripper (Rip_start stg s repoDir o))
                                                   (MReturned (Some e))) as Heq.
    { destruct Hc as [H|[[H1 H2]|(H1 & H2 & H3)]].
      - by rewrite (Rip_start_Prepare_error _ _ _ _ _ H).
      - by rewrite (Rip_start_Read_error _ _ _ _ _ H1 H2).
      - by rewrite (Rip_start_branches_error _ _ _ _ _ H1 H2 H3). }
    split.
    + intros σ l err Hr Hret. destruct (Hearly _ Heq I σ l err Hr Hret) as [-> Hm].
      split; [done|]. congruence.
    + intros p fuel Hfuel. unfold RipSlice, RipSlice_start. rewrite Heq.
      destruct fuel as [|[|fuel]]; [lia..|].
      destruct p, fuel; reflexivity.
  - intros (H1 & H2 & H3 & H4).
    pose proof (Rip_start_commit_info_error _ _ _ _ _ H1 H2 H3 H4) as Heq0.
    assert (Rip_start stg s repoDir o = left_early (ripper (Rip_start stg s repoDir o))
                                                   (MPanicked (PanicErr e))) as Heq
        by by rewrite Heq0.
    assert (∀ σ, RipSlice_reaches stg s repoDir o σ → slice_returned σ = None) as Hnone.
    { intros σ Hr. destruct (slice_returned σ) as [[l err]|] eqn:Hret; [|done].
      by destruct (Hearly _ Heq I σ l err Hr Hret) as [_ ?]. }
    split; [done|]. intros p fuel. apply Hnone. apply slice_exec_reachable.
Qed.

Lemma RipSlice_when_Rip_is_left_early_witness :
  RipSlice (demo.stages demo.FailPrepare) MainFirst 2 New "repo" None =
    Some ([], Some (Errorf "prepare")) ∧
  RipSlice (demo.stages demo.FailCommitInfo) WorkerFirst 30 New "repo" None = None.
Proof.
  split.
  - apply (proj1 (RipSlice_when_Rip_is_left_early (demo.stages demo.FailPrepare)
                    New "repo" None (Errorf "prepare"))); [by left|lia].
  - apply (proj2 (RipSlice_when_Rip_is_left_early (demo.stages demo.FailCommitInfo)
                    New "repo" None (Errorf "commit info"))).
    repeat split; reflexivity.
Defined.

(** * The command, further: totals, failures and the end of [Run] *)

Section IntFacts.
Import ripcmd.

Lemma int_add_is_int a b : is_int (int_add a b).
Proof.
  unfold is_int, int_add.
  pose proof (Z.mod_pos_bound (a + b + 2 ^ 63) (2 ^ 64) ltac:(lia)). lia.
Qed.

Lemma int_add_exact a b : is_int (a + b) → int_add a b = (a + b)%Z.
Proof.
  unfold is_int, int_add. intros H. rewrite Z.mod_small; lia.
Qed.

Lemma int_add_assoc a b c : int_add (int_add a b) c = int_add a (int_add b c).
Proof.
  unfold int_add. f_equal.
  replace ((a + b + 2 ^ 63) mod 2 ^ 64 - 2 ^ 63 + c + 2 ^ 63)%Z
    with ((a + b + 2 ^ 63) mod 2 ^ 64 + c)%Z by lia.
  replace (a + ((b + c + 2 ^ 63) mod 2 ^ 64 - 2 ^ 63) + 2 ^ 63)%Z
    with (a + (b + c + 2 ^ 63) mod 2 ^ 64)%Z by lia.
  rewrite Zplus_mod_idemp_l, Zplus_mod_idemp_r. f_equal. lia.
Qed.

Lemma add_stats_ints a b : ints (add_stats a b).
Proof. repeat split; apply int_add_is_int. Qed.

Lemma add_stats_assoc a b c : add_stats (add_stats a b) c = add_stats a (add_stats b c).
Proof. unfold add_stats; simpl. by rewrite !int_add_assoc. Qed.

Lemma add_stats_zero_r a : ints a → add_stats a no_stats = a.
Proof.
  intros (H1 & H2 & H3). destruct a as [r k e]; unfold add_stats; simpl in *.
  rewrite !int_add_exact by (rewrite Z.add_0_r; done). by rewrite !Z.add_0_r.
Qed.

Lemma add_stats_zero_l a : ints a → add_stats no_stats a = a.
Proof.
  intros (H1 & H2 & H3). destruct a as [r k e]; unfold add_stats; simpl in *.
  by rewrite !int_add_exact.
Qed.

Lemma fold_add_stats (l : list Stats) a :
  ints a → fold_left add_stats l a = add_stats a (sum_stats l).
Proof.
  unfold sum_stats. revert a. induction l as [|x l IH]; intros a Ha; simpl.
  - by rewrite add_stats_zero_r.
  - rewrite IH by apply add_stats_ints.
    rewrite (IH (add_stats no_stats x)) by apply add_stats_ints.
    rewrite <- !add_stats_assoc. by rewrite (add_stats_zero_r a).
Qed.

End IntFacts.

Section TotalsFacts.
Import ripcmd.

Lemma fold_add_stats_ints (l : list Stats) a : ints a → ints (fold_left add_stats l a).
Proof.
  revert a. induction l as [|x l IH]; intros a Ha; simpl; [done|].
  apply IH, add_stats_ints.
Qed.

Lemma sum_stats_app (l1 l2 : list Stats) :
  sum_stats (l1 ++ l2) = add_stats (sum_stats l1) (sum_stats l2).
Proof.
  unfold sum_stats at 1. rewrite fold_left_app. apply fold_add_stats.
  apply fold_add_stats_ints. repeat split; unfold is_int; simpl; lia.
Qed.

Lemma count_is_int {A : Type} (l : list A) a :
  is_int a → is_int (fold_left (λ entries _, int_add entries 1) l a).
Proof.
  revert a. induction l as [|x l IH]; intros a Ha; simpl; [done|].
  apply IH, int_add_is_int.
Qed.

(** The count of a list by [entries++], as long as it fits an [int]. *)
Lemma count_exact {A : Type} (l : list A) a :
  (0 ≤ a)%Z → (a + Z.of_nat (length l) < 2 ^ 63)%Z →
  fold_left (λ entries _, int_add entries 1) l a = (a + Z.of_nat (length l))%Z.
Proof.
  revert a. induction l as [|x l IH]; intros a H0 Hlt; simpl in *; [lia|].
  rewrite int_add_exact by (unfold is_int; lia). rewrite IH; lia.
Qed.

End TotalsFacts.

Section DiscoveryMore.
Import ripcmd.
Variable os_Stat : string → stat_result.
Variable ioutil_ReadDir : string → res (list FileInfo).
Variable filepath_Abs : string → res string.
Variable filepath_Join : string → string → string.
Variable git_rev_parse_HEAD : string → string.
Variable Rip_call : string → RipOpts → list BlameResult * option error.
Variable opts : Opts.

Local Abbreviation runOnDirs' :=
  (runOnDirs os_Stat ioutil_ReadDir filepath_Abs filepath_Join git_rev_parse_HEAD
             Rip_call opts).
Local Abbreviation run' := (run git_rev_parse_HEAD Rip_call opts).
Local Abbreviation runOnRepo' := (runOnRepo git_rev_parse_HEAD Rip_call opts).
Local Abbreviation is_repository' := (is_repository os_Stat filepath_Abs filepath_Join).
Local Abbreviation discovered' :=
  (discovered os_Stat ioutil_ReadDir filepath_Abs filepath_Join).
Local Abbreviation descend' := (descend ioutil_ReadDir filepath_Join).
Local Abbreviation tallied r :=
  (repoErrors r = flat_map (λ d, repoErrors (run' d)) (started r) ∧
   stats r = sum_stats (map (λ d, stats (run' d)) (started r))).

(** [runOnDirs] by its three ways out: a failure of its own, the
    closure [run] on a repository, the descent elsewhere. *)
Lemma runOnDirs_cases (P : dirs_result → Prop) n dir :
  (∀ e, P (failed e)) →
  (is_repository' dir = true → P (run' dir)) →
  (is_repository' dir = false →
   P (descend' (match n with 0 => None | S n => Some (runOnDirs' n) end) dir)) →
  P (runOnDirs' n dir).
Proof.
  intros Hf Hrun Hdesc.
  assert (runOnDirs' n dir =
          match os_Stat dir with
          | StatError _ text => failed (Errorf ("can't stat passed dir, err: " ++ text)%string)
          | StatInfo false => failed (Errorf "passed dir is a file, expecting a dir")
          | StatInfo true =>
              match dirContainsDir os_Stat filepath_Join dir ".git" with
              | Err e => failed e
              | Ok true => run' dir
              | Ok false =>
                  match filepath_Abs dir with
                  | Err e =>
                      failed (Errorf ("can't convert passed dir to absolute path, err: " ++
                                      error_text e)%string)
                  | Ok loc =>
                      if decide (Ext loc = ".git") then
                        match dirContainsDir os_Stat filepath_Join dir "objects" with
                        | Err e => failed e
                        | Ok true => run' dir
                        | Ok false =>
                            descend' (match n with 0 => None | S n => Some (runOnDirs' n) end) dir
                        end
                      else descend' (match n with 0 => None | S n => Some (runOnDirs' n) end) dir
                  end
              end
          end) as -> by by destruct n.
  revert Hrun Hdesc. unfold is_repository, named_dot_git.
  destruct (os_Stat dir) as [[|]|]; try done.
  destruct (dirContainsDir _ _ dir ".git") as [[|]|] eqn:Hgit; try done;
    apply dirContainsDir_has_subdir in Hgit; rewrite Hgit; simpl; [by auto|].
  destruct (filepath_Abs dir) as [loc|]; [|done].
  destruct (decide (Ext loc = ".git")) as [Hext|Hext].
  - rewrite bool_decide_eq_true_2 by done. simpl.
    destruct (dirContainsDir _ _ dir "objects") as [[|]|] eqn:Hobj; try done;
      apply dirContainsDir_has_subdir in Hobj; rewrite Hobj; simpl; by auto.
  - rewrite bool_decide_eq_false_2 by done. simpl. by auto.
Qed.

Lemma run_ints dir : ints (stats (run' dir)).
Proof.
  assert (is_int (runOnRepo' dir).1) as He.
  { unfold runOnRepo. destruct (negb _); [unfold is_int; simpl; lia|].
    destruct (Rip_call _ _) as [delivered err]. simpl.
    apply count_is_int. unfold is_int; lia. }
  unfold run. destruct (runOnRepo' dir) as [entries [e|]]; simpl in *;
    [destruct (decide (e = errRevParseFailed))|]; unfold ints, is_int in *; simpl; lia.
Qed.

Lemma run_tallied dir : tallied (run' dir).
Proof.
  rewrite (proj1 (run_started _ _ _ dir)). simpl. rewrite app_nil_r. split; [done|].
  unfold sum_stats. simpl. by rewrite add_stats_zero_l by apply run_ints.
Qed.

Lemma range_subs_tallied (rec : string → dirs_result) dir subs acc :
  (∀ d, tallied (rec d)) → tallied acc →
  tallied (range_subs filepath_Join rec dir subs acc).
Proof.
  intros Hrec. revert acc. induction subs as [|sub rest IH]; intros acc Hacc; simpl; [done|].
  destruct (IsDir sub); simpl; [|by apply IH].
  set (r := rec (filepath_Join dir (Name sub))).
  assert (tallied {| stats := {| Repos := int_add (Repos (stats acc)) (Repos (stats r));
                                 SkippedEmptyRepos := int_add (SkippedEmptyRepos (stats acc))
                                                              (SkippedEmptyRepos (stats r));
                                 Entries := int_add (Entries (stats acc)) (Entries (stats r)) |};
                     repoErrors := repoErrors acc ++ repoErrors r;
                     rerr := rerr r;
                     started := started acc ++ started r |}) as Hacc'.
  { destruct Hacc as [Ha1 Ha2]. destruct (Hrec (filepath_Join dir (Name sub))) as [Hr1 Hr2].
    fold r in Hr1, Hr2. simpl. split.
    - by rewrite flat_map_app, <- Ha1, <- Hr1.
    - rewrite map_app, sum_stats_app, <- Ha2, <- Hr2. done. }
  destruct (rerr r); [done|by apply IH].
Qed.

Lemma nothing_tallied : tallied nothing.
Proof. done. Qed.

(** The totals and the repository errors [runOnDirs] returns are those
    of the calls of [run] it made, whether it failed or not. *)
Lemma runOnDirs_tallied n dir : tallied (runOnDirs' n dir).
Proof.
  revert dir. induction n as [|n IH]; intros dir;
    apply runOnDirs_cases; try done; intros; try apply run_tallied.
  unfold descend. destruct (ioutil_ReadDir dir); [|done].
  by apply range_subs_tallied.
Qed.

End DiscoveryMore.

Section DiscoveryPrefix.
Import ripcmd.
Variable os_Stat : string → stat_result.
Variable ioutil_ReadDir : string → res (list FileInfo).
Variable filepath_Abs : string → res string.
Variable filepath_Join : string → string → string.
Variable git_rev_parse_HEAD : string → string.
Variable Rip_call : string → RipOpts → list BlameResult * option error.
Variable opts : Opts.

Local Abbreviation runOnDirs' :=
  (runOnDirs os_Stat ioutil_ReadDir filepath_Abs filepath_Join git_rev_parse_HEAD
             Rip_call opts).
Local Abbreviation run' := (run git_rev_parse_HEAD Rip_call opts).
Local Abbreviation runOnRepo' := (runOnRepo git_rev_parse_HEAD Rip_call opts).
Local Abbreviation is_repository' := (is_repository os_Stat filepath_Abs filepath_Join).
Local Abbreviation discovered' :=
  (discovered os_Stat ioutil_ReadDir filepath_Abs filepath_Join).

Lemma discovered_repositories n dir d :
  d ∈ discovered' n dir → is_repository' d = true.
Proof.
  revert dir. induction n as [|n IH]; intros dir; simpl;
    destruct (is_repository' dir) eqn:Hrepo.
  - intros Hd. apply list_elem_of_singleton in Hd. by subst.
  - intros Hd. by apply elem_of_nil in Hd.
  - intros Hd. apply list_elem_of_singleton in Hd. by subst.
  - intros Hd. apply list_elem_of_In, in_flat_map in Hd as (sub & _ & Hd).
    apply list_elem_of_In in Hd. by eapply IH.
Qed.

Lemma range_subs_prefix (rec : string → dirs_result) (f : string → list string)
    dir subs acc :
  (∀ d, started (rec d) `prefix_of` f d) →
  (∀ d, rerr (rec d) = None → started (rec d) = f d) →
  ∃ t, started (range_subs filepath_Join rec dir subs acc) = started acc ++ t ∧
       t `prefix_of` flat_map f (map (λ sub, filepath_Join dir (Name sub))
                                     (filter (λ sub, IsDir sub = true) subs)).
Proof.
  intros Hpre Heq. revert acc. induction subs as [|sub rest IH]; intros acc; simpl.
  - exists []. by rewrite app_nil_r.
  - destruct (IsDir sub) eqn:Hd; simpl.
    + rewrite filter_cons_True by done. simpl.
      destruct (rerr (rec (filepath_Join dir (Name sub)))) eqn:Hsub.
      * simpl. eexists. split; [done|]. by apply prefix_app_r.
      * match goal with
        | |- ∃ t, started (range_subs _ _ _ _ ?a) = _ ∧ _ =>
            destruct (IH a) as (t & Ht & Hp)
        end.
        simpl in Ht.
        exists (started (rec (filepath_Join dir (Name sub))) ++ t).
        split; [by rewrite Ht, <- app_assoc|].
        rewrite (Heq _ Hsub). by apply prefix_app.
    + rewrite filter_cons_False by (rewrite Hd; done). apply IH.
Qed.

(** Whatever fails, the directories [runOnDirs] has started are the
    first of those a walk without failure starts, in its order. *)
Lemma runOnDirs_prefix n dir :
  started (runOnDirs' n dir) `prefix_of` discovered' n dir.
Proof.
  revert dir. induction n as [|n IH]; intros dir;
    apply runOnDirs_cases; try (intros; apply prefix_nil).
  - intros Hrepo. simpl. rewrite Hrepo. by rewrite (proj1 (run_started _ _ _ dir)).
  - intros Hrepo. simpl. rewrite Hrepo. by rewrite (proj1 (run_started _ _ _ dir)).
  - intros Hrepo. simpl. rewrite Hrepo. unfold descend, subdirs.
    destruct (ioutil_ReadDir dir) as [subs|e]; [|apply prefix_nil].
    destruct (range_subs_prefix (runOnDirs' n) (discovered' n) dir subs nothing IH
                (runOnDirs_started _ _ _ _ _ _ _ n)) as (t & -> & Hp).
    done.
Qed.

(** What one call of [run] adds to the totals. *)
Lemma run_adds dir :
  let r := run' dir in
  (Repos (stats r) = 1%Z ∧ repoErrors r = [] ∧
   (SkippedEmptyRepos (stats r) = 0%Z ∨ SkippedEmptyRepos (stats r) = 1%Z) ∧
   ((runOnRepo' dir).2 = None ∨ (runOnRepo' dir).2 = Some errRevParseFailed)) ∨
  (Repos (stats r) = 0%Z ∧ SkippedEmptyRepos (stats r) = 0%Z ∧
   ∃ e, repoErrors r = [{| Repo := dir; RepoErr := e |}] ∧
        (runOnRepo' dir).2 = Some e ∧ e ≠ errRevParseFailed).
Proof.
  unfold run. destruct (runOnRepo' dir) as [entries [e|]]; simpl.
  - destruct (decide (e = errRevParseFailed)) as [->|Hne]; simpl.
    + left. split; [done|]. split; [done|]. split; by right.
    + right. split; [done|]. split; [done|]. by exists e.
  - left. split; [done|]. split; [done|]. split; by left.
Qed.

(** The totals of the runs on a list of directories, counted. *)
Lemma sum_stats_runs (l : list string) :
  let total := sum_stats (map (λ d, stats (run' d)) l) in
  let errs := flat_map (λ d, repoErrors (run' d)) l in
  (Z.of_nat (length l) < 2 ^ 63)%Z →
  Repos total = (Z.of_nat (length l) - Z.of_nat (length errs))%Z ∧
  (0 ≤ SkippedEmptyRepos total ≤ Repos total)%Z ∧
  (length errs ≤ length l)%nat.
Proof.
  induction l as [|d l IH] using rev_ind; intros total errs Hlt; [by compute|].
  unfold total, errs. rewrite map_app, flat_map_app, sum_stats_app. simpl.
  rewrite !length_app in *. simpl in *.
  destruct IH as (IH1 & IH2 & IH3); [lia|].
  destruct (run_adds d) as [(Hr & He & Hk & _)|(Hr & Hk & e & He & _)];
    simpl in Hr, He, Hk; rewrite Hr, He; [destruct Hk as [Hk|Hk]|]; rewrite Hk; simpl;
    rewrite !(int_add_exact 0) by (unfold is_int; lia);
    rewrite !int_add_exact by (unfold is_int; lia); lia.
Qed.

End DiscoveryPrefix.

(** Whatever fails during the walk, and for every number of levels,
    the directories on which [runOnDirs] has called [runOnRepo] are
    the first of those a walk without failure finds, in its order:
    each of them is a repository by the rule of discovery, none is
    skipped before the failure and none is started after it; without a
    failure they are all of them. *)
Theorem runOnDirs_starts_a_prefix_of_the_repositories
    (os_Stat : string → ripcmd.stat_result)
    (ioutil_ReadDir : string → res (list ripcmd.FileInfo))
    (filepath_Abs : string → res string)
    (filepath_Join : string → string → string)
    (git_rev_parse_HEAD : string → string)
    (Rip_call : string → RipOpts → list BlameResult * option error)
    (opts : ripcmd.Opts) (recurseLevels : nat) (dir : string) :
  let result := ripcmd.runOnDirs os_Stat ioutil_ReadDir filepath_Abs filepath_Join
                                 git_rev_parse_HEAD Rip_call opts recurseLevels dir in
  let found := ripcmd.discovered os_Stat ioutil_ReadDir filepath_Abs filepath_Join
                                 recurseLevels dir in
  ripcmd.started result `prefix_of` found ∧
  (∀ d, d ∈ ripcmd.started result →
        ripcmd.is_repository os_Stat filepath_Abs filepath_Join d = true) ∧
  (ripcmd.rerr result = None → ripcmd.started result = found).
Proof.
  intros result found.
  pose proof (runOnDirs_prefix os_Stat ioutil_ReadDir filepath_Abs filepath_Join
                git_rev_parse_HEAD Rip_call opts recurseLevels dir) as Hp.
  split; [done|]. split.
  - intros d Hd. eapply discovered_repositories.
    destruct Hp as [more Hp]. unfold found. rewrite Hp. apply elem_of_app. by left.
  - apply runOnDirs_started.
Qed.

Lemma runOnDirs_starts_a_prefix_of_the_repositories_witness :
  let result := ripcmd.runOnDirs demo.os_Stat_denied demo.ioutil_ReadDir demo.filepath_Abs
                  demo.filepath_Join demo.git_rev_parse_HEAD demo.Rip_call demo.cmd_opts
                  1 "/w" in
  let found := ripcmd.discovered demo.os_Stat_denied demo.ioutil_ReadDir demo.filepath_Abs
                 demo.filepath_Join 1 "/w" in
  ripcmd.rerr result ≠ None ∧ ripcmd.started result = ["/w/a"] ∧
  found = ["/w/a"; "/w/b.git"] ∧ ripcmd.started result `prefix_of` found.
Proof.
  split; [discriminate|]. split; [reflexivity|]. split; [reflexivity|].
  apply (runOnDirs_starts_a_prefix_of_the_repositories demo.os_Stat_denied
           demo.ioutil_ReadDir demo.filepath_Abs demo.filepath_Join
           demo.git_rev_parse_HEAD demo.Rip_call demo.cmd_opts 1 "/w").
Defined.

(** The totals [runOnDirs] returns are those of its calls of [run], in
    the wrapping arithmetic of [int], and its repository errors are
    theirs, in order, also when it fails.  As long as the calls fit an
    [int], every call is counted once, as a repository or as a
    repository error, and the repositories skipped as empty are among
    the repositories counted. *)
Theorem runOnDirs_totals
    (os_Stat : string → ripcmd.stat_result)
    (ioutil_ReadDir : string → res (list ripcmd.FileInfo))
    (filepath_Abs : string → res string)
    (filepath_Join : string → string → string)
    (git_rev_parse_HEAD : string → string)
    (Rip_call : string → RipOpts → list BlameResult * option error)
    (opts : ripcmd.Opts) (recurseLevels : nat) (dir : string) :
  let result := ripcmd.runOnDirs os_Stat ioutil_ReadDir filepath_Abs filepath_Join
                                 git_rev_parse_HEAD Rip_call opts recurseLevels dir in
  let run := ripcmd.run git_rev_parse_HEAD Rip_call opts in
  ripcmd.repoErrors result =
    flat_map (λ d, ripcmd.repoErrors (run d)) (ripcmd.started result) ∧
  ripcmd.stats result =
    ripcmd.sum_stats (map (λ d, ripcmd.stats (run d)) (ripcmd.started result)) ∧
  ((Z.of_nat (length (ripcmd.started result)) < 2 ^ 63)%Z →
   (ripcmd.Repos (ripcmd.stats result) + Z.of_nat (length (ripcmd.repoErrors result)) =
      Z.of_nat (length (ripcmd.started result)))%Z ∧
   (0 ≤ ripcmd.SkippedEmptyRepos (ripcmd.stats result)
      ≤ ripcmd.Repos (ripcmd.stats result))%Z).
Proof.
  intros result run.
  destruct (runOnDirs_tallied os_Stat ioutil_ReadDir filepath_Abs filepath_Join
              git_rev_parse_HEAD Rip_call opts recurseLevels dir) as [He Hs].
  fold result in He, Hs. split; [done|]. split; [done|].
  intros Hlt. rewrite He, Hs.
  destruct (sum_stats_runs git_rev_parse_HEAD Rip_call opts (ripcmd.started result) Hlt)
    as (H1 & H2 & _).
  split; [|done]. rewrite H1. lia.
Qed.

Lemma runOnDirs_totals_witness :
  let result := ripcmd.runOnDirs demo.os_Stat demo.ioutil_ReadDir demo.filepath_Abs
                  demo.filepath_Join demo.git_rev_parse_HEAD demo.Rip_call demo.cmd_opts
                  1 "/w" in
  ripcmd.started result = ["/w/a"; "/w/b.git"] ∧
  (ripcmd.Repos (ripcmd.stats result) + Z.of_nat (length (ripcmd.repoErrors result)) =
     Z.of_nat (length (ripcmd.started result)))%Z ∧
  (0 ≤ ripcmd.SkippedEmptyRepos (ripcmd.stats result)
     ≤ ripcmd.Repos (ripcmd.stats result))%Z.
Proof.
  split; [reflexivity|].
  apply (runOnDirs_totals demo.os_Stat demo.ioutil_ReadDir demo.filepath_Abs
           demo.filepath_Join demo.git_rev_parse_HEAD demo.Rip_call demo.cmd_opts 1 "/w").
  vm_compute. reflexivity.
Defined.

(** ** [strings.TrimSpace] and the head commit *)







(** [runOnRepo] on a repository with a head commit calls [Rip] with
    [NoStrictResume] set, the [CommitFromIncl] of the command and
    [AllBranches] unset, returns the error of [Rip], and counts one
    entry for each record delivered, as long as the count fits an
    [int].  Its collecting goroutine prints [blame.Commit.SHA[0:8]] for
    each record, which needs a sha of 8 bytes at least. *)
Theorem runOnRepo_counts_the_records
    (git_rev_parse_HEAD : string → string)
    (Rip_call : string → RipOpts → list BlameResult * option error)
    (opts : ripcmd.Opts) (repoDir : string)
    (delivered : list BlameResult) (err : option error) :
  let ripOpts := {| Logger := None; CheckpointsDir := ""; NoStrictResume := true;
                    CommitFromIncl := ripcmd.OptCommitFromIncl opts;
                    AllBranches := false |} in
  ripcmd.hasHeadCommit git_rev_parse_HEAD repoDir = true →
  Rip_call repoDir ripOpts = (delivered, err) →
  Forall (λ r, (8 ≤ String.length (commitmeta.SHA (Commit r)))%nat) delivered →
  (Z.of_nat (length delivered) < 2 ^ 63)%Z →
  ripcmd.runOnRepo git_rev_parse_HEAD Rip_call opts repoDir =
    (Z.of_nat (length delivered), err).
Proof.
  intros ripOpts Hhead Hcall _ Hlt. unfold ripcmd.runOnRepo.
  rewrite Hhead. simpl. fold ripOpts. rewrite Hcall.
  by rewrite count_exact by lia.
Qed.

Lemma runOnRepo_counts_the_records_witness :
  ripcmd.runOnRepo demo.git_rev_parse_HEAD demo.Rip_call demo.cmd_opts "/w/a" = (1%Z, None).
Proof.
  apply (runOnRepo_counts_the_records demo.git_rev_parse_HEAD demo.Rip_call demo.cmd_opts
           "/w/a" [demo.record "3a82e44558db78d9e61661d3c85b0a79d23a1d48" "main.go"] None).
  - reflexivity.
  - reflexivity.
  - repeat constructor.
  - vm_compute. reflexivity.
Defined.

(** ** The end of [Run] *)

Section CommandFacts.
Import ripcmd.
Variable os_Stat : string → stat_result.
Variable ioutil_ReadDir : string → res (list FileInfo).
Variable filepath_Abs : string → res string.
Variable filepath_Join : string → string → string.
Variable git_rev_parse_HEAD : string → string.
Variable Rip_call : string → RipOpts → list BlameResult * option error.
Variable color_RedString color_YellowString color_GreenString : string → string.
Variable ioutil_TempDir : string.
Variable since : string.
Variable opts : Opts.

Local Abbreviation kinds := ["cpu"; "mem"; "trace"; "block"; "mutex"].
Local Abbreviation enableProfiling' := (enableProfiling filepath_Join ioutil_TempDir).
Local Abbreviation Run_report' :=
  (Run_report color_RedString color_YellowString color_GreenString since opts).
Local Abbreviation Run_command' :=
  (Run_command os_Stat ioutil_ReadDir filepath_Abs filepath_Join git_rev_parse_HEAD
               Rip_call color_RedString color_YellowString color_GreenString
               ioutil_TempDir since opts).
Local Abbreviation Run' :=
  (Run os_Stat ioutil_ReadDir filepath_Abs filepath_Join git_rev_parse_HEAD Rip_call opts).

Lemma enableProfiling_kinds kind :
  ((kind ∈ kinds) ∧ ∃ line, enableProfiling' kind = inl line) ∨
  ((kind ∉ kinds) ∧ enableProfiling' kind = inr ("unexpected profile: " ++ kind)%string).
Proof.
  unfold enableProfiling.
  destruct (String.eqb_spec kind "cpu") as [->|H1]; [left; split; [set_solver|eauto]|].
  destruct (String.eqb_spec kind "mem") as [->|H2]; [left; split; [set_solver|eauto]|].
  destruct (String.eqb_spec kind "trace") as [->|H3]; [left; split; [set_solver|eauto]|].
  destruct (String.eqb_spec kind "block") as [->|H4]; [left; split; [set_solver|eauto]|].
  destruct (String.eqb_spec kind "mutex") as [->|H5]; [left; split; [set_solver|eauto]|].
  right. split; [|done]. intros H.
  repeat (apply elem_of_cons in H as [H|H]; [done|]). by apply elem_of_nil in H.
Qed.

Lemma Run_report_ends hook r :
  let c := Run_report' hook r in
  (∀ v, ends c ≠ Panics v) ∧
  (∀ code, ends c = Exits code → code = 1%Z ∧ hook_ran c = false) ∧
  (hook_ran c = true ↔ is_Some hook ∧ ends c = Returns) ∧
  (ends c = Returns ↔
   rerr r = None ∧ repoErrors r = [] ∧ Repos (stats r) ≠ 0%Z).
Proof.
  unfold Run_report.
  destruct (rerr r) as [e|]; simpl;
    [|destruct (repoErrors r) as [|re res]; simpl;
      [destruct (Z.eqb_spec (Repos (stats r)) 0) as [Hz|Hz]; simpl|]].
  all: destruct hook as [line|]; simpl; unfold is_Some;
    repeat (first [split|intro]);
    repeat match goal with
           | H : _ ∧ _ |- _ => destruct H
           | H : ∃ _, _ |- _ => destruct H
           end; simplify_eq; eauto.
Qed.

Lemma flat_map_nil {A B : Type} (f : A → list B) (l : list A) :
  flat_map f l = [] ↔ ∀ x, x ∈ l → f x = [].
Proof.
  induction l as [|x l IH]; simpl.
  - split; [intros _ x Hx; by apply elem_of_nil in Hx|done].
  - split.
    + intros H. apply app_eq_nil in H as [H1 H2].
      intros y Hy. apply elem_of_cons in Hy as [->|Hy]; [done|]. by apply IH.
    + intros H. rewrite (H x) by by left. simpl. apply IH. intros y Hy. apply H. by right.
Qed.


(** When no I/O call fails and a profile, if any, is of a known kind,
    [Run] returns, rather than leaving by [os.Exit(1)], exactly when
    discovery finds a repository and [runOnRepo] fails on none of those
    it finds, a repository without head commit not counting as a
    failure. *)
Theorem Run_command_returns_iff :
  let found := discovered os_Stat ioutil_ReadDir filepath_Abs filepath_Join 1 (Dir opts) in
  let runOnRepo' := runOnRepo git_rev_parse_HEAD Rip_call opts in
  rerr Run' = None →
  (Z.of_nat (length found) < 2 ^ 63)%Z →
  Profile opts = "" ∨ (Profile opts ∈ kinds) →
  (ends (Run_command os_Stat ioutil_ReadDir filepath_Abs filepath_Join git_rev_parse_HEAD
                      Rip_call color_RedString color_YellowString color_GreenString
                      ioutil_TempDir since opts) = Returns ↔
   found ≠ [] ∧
   ∀ d, d ∈ found → (runOnRepo' d).2 = None ∨ (runOnRepo' d).2 = Some errRevParseFailed).
Proof.
  intros found runOnRepo' Hrerr Hlt Hprofile.
  assert (∃ hook, Run_command' = Run_report' hook Run') as [hook ->].
  { unfold Run_command. destruct (String.eqb_spec (Profile opts) "") as [He|Hne]; [by eexists|].
    destruct (enableProfiling_kinds (Profile opts)) as [[_ [line ->]]|[Hnin _]]; [by eexists|].
    by destruct Hprofile. }
  destruct (Run_report_ends hook Run') as (_ & _ & _ & ->).
  pose proof (runOnDirs_started os_Stat ioutil_ReadDir filepath_Abs filepath_Join
                git_rev_parse_HEAD Rip_call opts 1 (Dir opts) Hrerr) as Hst.
  fold found in Hst.
  destruct (runOnDirs_tallied os_Stat ioutil_ReadDir filepath_Abs filepath_Join
              git_rev_parse_HEAD Rip_call opts 1 (Dir opts)) as [Herrs Hstats].
  unfold Run. rewrite Herrs, Hstats, Hst.
  destruct (sum_stats_runs git_rev_parse_HEAD Rip_call opts found Hlt) as (Hrepos & _ & _).
  rewrite Hrepos, flat_map_nil. split.
  - intros (_ & Hnone & Hcount). split.
    + intros Hnil. rewrite Hnil in Hcount. simpl in Hcount. lia.
    + intros d Hd. specialize (Hnone d Hd).
      destruct (run_adds git_rev_parse_HEAD Rip_call opts d)
        as [(_ & _ & _ & ?)|(_ & _ & e & He & _)]; [done|].
      simpl in He. rewrite He in Hnone. done.
  - intros (Hne & Hok).
    assert (∀ d, d ∈ found → repoErrors (run git_rev_parse_HEAD Rip_call opts d) = []) as Hnone.
    { intros d Hd.
      destruct (run_adds git_rev_parse_HEAD Rip_call opts d)
        as [(_ & ? & _)|(_ & _ & e & _ & He & Hne')]; [done|].
      destruct (Hok d Hd) as [Hn|Hn]; fold (runOnRepo' d) in He; rewrite He in Hn;
        simplify_eq. }
    split; [done|]. split; [done|].
    apply flat_map_nil in Hnone. rewrite Hnone. simpl.
    destruct found; [done|]. simpl. lia.
Qed.

End CommandFacts.


Lemma Run_command_returns_iff_witness :
  let c := ripcmd.Run_command demo.os_Stat demo.ioutil_ReadDir demo.filepath_Abs
             demo.filepath_Join demo.git_rev_parse_HEAD demo.Rip_call
             id id id "/tmp/ripsrc-profile" "1s" demo.cmd_opts in
  ripcmd.written c =
    [("Warning! Skipped 1 empty repos" ++ fmt.nl)%string;
     ("Finished processing repos 2 entries 1 in 1s" ++ fmt.nl)%string] ∧
  ripcmd.ends c = ripcmd.Returns.
Proof.
  split; [reflexivity|].
  apply (Run_command_returns_iff demo.os_Stat demo.ioutil_ReadDir demo.filepath_Abs
           demo.filepath_Join demo.git_rev_parse_HEAD demo.Rip_call
           id id id "/tmp/ripsrc-profile" "1s" demo.cmd_opts).
  - reflexivity.
  - vm_compute. reflexivity.
  - by left.
  - split; [discriminate|]. intros d Hd.
    change (d ∈ ["/w/a"; "/w/b.git"]) in Hd.
    apply elem_of_cons in Hd as [->|Hd]; [by left|].
    apply elem_of_cons in Hd as [->|Hd]; [by right|].
    by apply elem_of_nil in Hd.
Defined.

(** * The first command line: what its results goroutine prints *)

Section RootFacts.
Import cmd.
Variable color_CyanString color_GreenString color_MagentaString
         color_YellowString : string → string.

Local Abbreviation record_line' :=
  (record_line color_CyanString color_GreenString color_MagentaString color_YellowString).
Local Abbreviation range_results' :=
  (range_results color_CyanString color_GreenString color_MagentaString color_YellowString).
Local Abbreviation sha_of blame := (commitmeta.SHA (Commit blame)).


Lemma record_line_Some blame :
  (8 ≤ String.length (sha_of blame))%nat → is_Some (record_line' blame).
Proof.
  intros H. unfold record_line, sha_0_8.
  destruct (Nat.leb_spec 8 (String.length (sha_of blame))); [by eexists|lia].
Qed.

Lemma record_line_None blame :
  (String.length (sha_of blame) < 8)%nat → record_line' blame = None.
Proof.
  intros H. unfold record_line, sha_0_8.
  destruct (Nat.leb_spec 8 (String.length (sha_of blame))); [lia|done].
Qed.


Lemma range_results_all results count :
  Forall (λ blame, (8 ≤ String.length (sha_of blame))%nat) results →
  (0 ≤ count)%Z → (count + Z.of_nat (length results) < 2 ^ 63)%Z →
  range_results' results count =
    (omap record_line' results, (count + Z.of_nat (length results))%Z, true) ∧
  length (omap record_line' results) = length results.
Proof.
  intros Hok. revert count.
  induction Hok as [|blame results Hb _ IH]; intros count H0 Hlt; simpl in *.
  - split; [|done]. do 2 f_equal. lia.
  - destruct (record_line_Some blame Hb) as [line Hl]. rewrite Hl.
    rewrite int_add_exact by (unfold ripcmd.is_int; lia).
    destruct (IH (count + 1)%Z) as [-> Hlen]; [lia..|].
    split; [do 2 f_equal; lia|simpl; f_equal; exact Hlen].
Qed.

Lemma range_results_panics pre blame post count :
  Forall (λ blame, (8 ≤ String.length (sha_of blame))%nat) pre →
  (String.length (sha_of blame) < 8)%nat →
  ∃ count', range_results' (pre ++ blame :: post) count =
              (omap record_line' pre, count', false) ∧
            length (omap record_line' pre) = length pre.
Proof.
  intros Hok Hshort. revert count.
  induction Hok as [|b pre Hb _ IH]; intros count; simpl.
  - rewrite (record_line_None blame Hshort). by eexists.
  - destruct (record_line_Some b Hb) as [line Hl]. rewrite Hl.
    destruct (IH (ripcmd.int_add count 1)) as (count' & -> & Hlen).
    exists count'. split; [done|simpl; f_equal; exact Hlen].
Qed.

(** The results goroutine prints one line for each record the channel
    delivers, in order, and counts them, as long as the count fits an
    [int]; it then reaches [resultsDone <- true].  At the first record
    whose sha has fewer than 8 bytes it panics instead, with the lines
    of the records before it printed. *)
Theorem range_results_prints_each_record (results : list BlameResult) :
  (Forall (λ blame, (8 ≤ String.length (sha_of blame))%nat) results →
   (Z.of_nat (length results) < 2 ^ 63)%Z →
   range_results' results 0 =
     (omap record_line' results, Z.of_nat (length results), true) ∧
   length (omap record_line' results) = length results) ∧
  (∀ pre blame post,
     results = pre ++ blame :: post →
     Forall (λ blame, (8 ≤ String.length (sha_of blame))%nat) pre →
     (String.length (sha_of blame) < 8)%nat →
     ∃ count, range_results' results 0 = (omap record_line' pre, count, false) ∧
              length (omap record_line' pre) = length pre).
Proof.
  split.
  - intros Hok Hlt. by apply (range_results_all results 0 Hok).
  - intros pre blame post -> Hok Hshort. by apply range_results_panics.
Qed.

End RootFacts.


Lemma range_results_prints_each_record_witness :
  let ok := demo.record "3a82e44558db78d9e61661d3c85b0a79d23a1d48" "main.go" in
  let short := demo.record "3a82e44" "main.go" in
  ∃ count, cmd.range_results id id id id [ok; short; ok] 0 =
             (omap (cmd.record_line id id id id) [ok], count, false) ∧
           length (omap (cmd.record_line id id id id) [ok]) = 1.
Proof.
  apply (proj2 (range_results_prints_each_record id id id id
                  [demo.record "3a82e44558db78d9e61661d3c85b0a79d23a1d48" "main.go";
                   demo.record "3a82e44" "main.go";
                   demo.record "3a82e44558db78d9e61661d3c85b0a79d23a1d48" "main.go"])
               [demo.record "3a82e44558db78d9e61661d3c85b0a79d23a1d48" "main.go"]
               (demo.record "3a82e44" "main.go")
               [demo.record "3a82e44558db78d9e61661d3c85b0a79d23a1d48" "main.go"]).
  - reflexivity.
  - repeat constructor.
  - vm_compute. lia.
Defined.
